(** * PetLoves: the chat text formatter (src/utils/textFormatter.tsx)

    A shallow embedding of [formatText] (the block scanner) and
    [formatInlineText] (the inline span resolver), together with the
    fragment of ECMAScript regular expressions their patterns use. *)

From Stdlib Require Import Ascii String.
From Stdlib Require Import List Arith Lia Bool NArith Sorted.
Import ListNotations.

(** ** Strings

    A JavaScript string is a sequence of UTF-16 code units.  The patterns of
    the formatter mention code units outside ASCII (the bullet U+2022, the
    Unicode white space of [\s] and [trim]), so a character is its code
    unit. *)

Definition char := N.
Definition str := list char.

(** An ASCII literal as a JavaScript string. *)
Definition lit (s : string) : str := map N_of_ascii (list_ascii_of_string s).

Definition NL : char := 10%N.
Definition CR : char := 13%N.
Definition SPACE : char := 32%N.
Definition HASH : char := 35%N.
Definition LPAREN : char := 40%N.
Definition RPAREN : char := 41%N.
Definition STAR : char := 42%N.
Definition MINUS : char := 45%N.
Definition DOT : char := 46%N.
Definition GT : char := 62%N.
Definition LBRACK : char := 91%N.
Definition RBRACK : char := 93%N.
Definition BACKTICK : char := 96%N.
Definition BULLET : char := 8226%N.

Definition is_char (c : char) : char -> bool := N.eqb c.
Definition not_char (c : char) : char -> bool := fun x => negb (N.eqb c x).

(** WhiteSpace and LineTerminator code units: what [\s] matches and what
    [String.prototype.trim] strips. *)
Definition is_space (c : char) : bool :=
  ((9 <=? c) && (c <=? 13) || (c =? 32) || (c =? 160) || (c =? 5760)
   || (8192 <=? c) && (c <=? 8202) || (c =? 8232) || (c =? 8233)
   || (c =? 8239) || (c =? 8287) || (c =? 12288) || (c =? 65279))%N.

(** LineTerminator code units: what [.] does not match. *)
Definition is_line_terminator (c : char) : bool :=
  ((c =? 10) || (c =? 13) || (c =? 8232) || (c =? 8233))%N.

Definition dot (c : char) : bool := negb (is_line_terminator c).

Definition is_digit (c : char) : bool := ((48 <=? c) && (c <=? 57))%N.

(** [[-*•]] *)
Definition is_bullet (c : char) : bool :=
  ((c =? 45) || (c =? 42) || (c =? 8226))%N.

(** [s.slice(a, b)] for [0 <= a], [0 <= b]; [s.slice(a)] is [skipn a s]. *)
Definition slice (s : str) (a b : nat) : str := firstn (b - a) (skipn a s).

Fixpoint startsWith (s p : str) : bool :=
  match p, s with
  | [], _ => true
  | c :: p', x :: s' => N.eqb x c && startsWith s' p'
  | _ :: _, [] => false
  end.

Fixpoint trimStart (s : str) : str :=
  match s with
  | c :: s' => if is_space c then trimStart s' else s
  | [] => []
  end.

Definition trimEnd (s : str) : str := rev (trimStart (rev s)).

Definition trim (s : str) : str := trimEnd (trimStart s).

Definition is_empty (s : str) : bool :=
  match s with [] => true | _ => false end.

Definition is_empty_list {A : Type} (l : list A) : bool :=
  match l with [] => true | _ => false end.

(** [text.split('\n')] as a right-to-left pass: the current line and the
    lines after it. *)
Fixpoint split_aux (s : str) : str * list str :=
  match s with
  | [] => ([], [])
  | c :: s' =>
      let '(cur, rest) := split_aux s' in
      if N.eqb c NL then ([], cur :: rest) else (c :: cur, rest)
  end.

Definition split_lines (s : str) : list str :=
  let '(cur, rest) := split_aux s in cur :: rest.

(** [lines.join('\n')] *)
Fixpoint join_lines (ls : list str) : str :=
  match ls with
  | [] => []
  | [l] => l
  | l :: ls' => l ++ NL :: join_lines ls'
  end.

(** ** Regular expressions

    The fragment of ECMAScript patterns the formatter uses: literal
    characters, a character class under a greedy or lazy bounded quantifier,
    capture-group brackets and the two anchors (without the [m] flag).  The
    matcher is the backtracking matcher of the language specification: a
    quantifier tries its alternatives in priority order and the first one
    for which the rest of the pattern matches wins. *)

(** [Lit c] is the character [c]; [Rep cls lo hi greedy] a character of the
    class [cls] repeated [lo] to [hi] times ([None]: unbounded), lazily
    when [greedy] is [false]; [Open g] and [Close g] the brackets of capture
    group [g]; [Bol] and [Eol] the anchors [^] and [$]. *)
Inductive Node : Type :=
| Lit (c : char)
| Rep (cls : char -> bool) (lo : nat) (hi : option nat) (greedy : bool)
| Open (g : nat)
| Close (g : nat)
| Bol
| Eol.

Definition Regex := list Node.

(** The quantifiers [+], [*] and [*?]. *)
Definition plus (cls : char -> bool) : Node := Rep cls 1 None true.
Definition star (cls : char -> bool) : Node := Rep cls 0 None true.
Definition lazy_star (cls : char -> bool) : Node := Rep cls 0 None false.

(** The captures of a match in progress: the offsets at which groups were
    opened, and the ranges of the groups closed so far. *)
Record Caps : Type := mkCaps {
  opened : list (nat * nat);
  closed : list (nat * (nat * nat))
}.

Definition no_caps : Caps := mkCaps [] [].

Fixpoint assoc {A : Type} (g : nat) (l : list (nat * A)) : option A :=
  match l with
  | [] => None
  | (k, v) :: l' => if Nat.eqb k g then Some v else assoc g l'
  end.

Definition open_group (g pos : nat) (c : Caps) : Caps :=
  mkCaps ((g, pos) :: opened c) (closed c).

Definition close_group (g pos : nat) (c : Caps) : Caps :=
  match assoc g (opened c) with
  | Some s => mkCaps (opened c) ((g, (s, pos)) :: closed c)
  | None => c
  end.

(** [k] repetitions leave room for one more. *)
Definition below (k : nat) (hi : option nat) : bool :=
  match hi with
  | None => true
  | Some h => k <? h
  end.

Section Quantifier.

(** The rest of the pattern, as a continuation on the remaining suffix and
    its offset. *)
Variable cont : str -> nat -> option (nat * Caps).
Variable cls : char -> bool.
Variable lo : nat.
Variable hi : option nat.
Variable greedy : bool.

(** [rep s pos k]: [k] characters of the class are consumed already.  A
    greedy quantifier first tries to consume one more and falls back to
    the continuation; a lazy one tries the continuation first. *)
Fixpoint rep (s : str) (pos k : nat) : option (nat * Caps) :=
  let stop := fun _ : unit => if lo <=? k then cont s pos else None in
  let more := fun _ : unit =>
    match s with
    | x :: s' => if cls x && below k hi then rep s' (S pos) (S k) else None
    | [] => None
    end in
  if greedy then
    match more tt with
    | Some r => Some r
    | None => stop tt
    end
  else
    match stop tt with
    | Some r => Some r
    | None => more tt
    end.

End Quantifier.

(** [run re s pos caps]: match [re] against the input whose remaining
    suffix is [s], the suffix starting at offset [pos].  The result is the
    end offset of the match and the captures. *)
Fixpoint run (re : Regex) (s : str) (pos : nat) (caps : Caps)
  : option (nat * Caps) :=
  match re with
  | [] => Some (pos, caps)
  | Lit c :: re' =>
      match s with
      | x :: s' => if N.eqb x c then run re' s' (S pos) caps else None
      | [] => None
      end
  | Rep cls lo hi greedy :: re' =>
      rep (fun s' pos' => run re' s' pos' caps) cls lo hi greedy s pos 0
  | Open g :: re' => run re' s pos (open_group g pos caps)
  | Close g :: re' => run re' s pos (close_group g pos caps)
  | Bol :: re' => if Nat.eqb pos 0 then run re' s pos caps else None
  | Eol :: re' =>
      match s with
      | [] => run re' s pos caps
      | _ :: _ => None
      end
  end.

(** The match array of [RegExp.prototype.exec]: [index], [match[0]] and the
    captured groups ([match[2]] is read for the link pattern only). *)
Record RegExpMatch : Type := mkMatch {
  index : nat;
  m0 : str;
  m1 : str;
  m2 : str
}.

Definition group (text : str) (g : nat) (caps : Caps) : str :=
  match assoc g (closed caps) with
  | Some (a, b) => slice text a b
  | None => []
  end.

(** The leftmost offset at or after [pos] at which the pattern matches. *)
Fixpoint search (re : Regex) (text s : str) (pos : nat) : option RegExpMatch :=
  match run re s pos no_caps with
  | Some (e, caps) =>
      Some (mkMatch pos (slice text pos e) (group text 1 caps) (group text 2 caps))
  | None =>
      match s with
      | [] => None
      | _ :: s' => search re text s' (S pos)
      end
  end.

(** [regex.exec(text)] with [regex.lastIndex = lastIndex]: the match array
    and the value [regex.lastIndex] has after the call (the end offset of the
    match, for a pattern with the [g] flag). *)
Definition exec (re : Regex) (text : str) (lastIndex : nat)
  : option (RegExpMatch * nat) :=
  if lastIndex <=? length text then
    match search re text (skipn lastIndex text) lastIndex with
    | Some m => Some (m, index m + length (m0 m))
    | None => None
    end
  else None.

(** [text.match(re)] for a pattern without the [g] flag. *)
Definition str_match (re : Regex) (text : str) : option RegExpMatch :=
  search re text text 0.

(** ** The inline span resolver: [formatInlineText] *)

(** React keys of the inline parts: [text-n], [format-n] and [plain]. *)
Inductive Key : Type :=
| KText (n : nat)
| KFormat (n : nat)
| KPlain.

(** The elements [formatInlineText] produces, each with its children. *)
Inductive InlineNode : Type :=
| Span (key : Key) (children : str)
| Anchor (key : Key) (href : str) (children : str)
| Strong (key : Key) (children : str)
| Em (key : Key) (children : str)
| Code (key : Key) (children : str).

(** The entries of [patterns], in the order of the array. *)
Inductive Pattern : Type :=
| Link
| BoldTriple
| BoldDouble
| Italic
| InlineCode.

Definition patterns : list Pattern :=
  [Link; BoldTriple; BoldDouble; Italic; InlineCode].

Definition regex (p : Pattern) : Regex :=
  match p with
  | Link =>
      (* /\[([^\]]+)\]\(([^)]+)\)/g *)
      [Lit LBRACK; Open 1; plus (not_char RBRACK); Close 1; Lit RBRACK;
       Lit LPAREN; Open 2; plus (not_char RPAREN); Close 2; Lit RPAREN]
  | BoldTriple =>
      (* /\*\*\*(.*?)\*\*\*/g *)
      [Lit STAR; Lit STAR; Lit STAR; Open 1; lazy_star dot; Close 1;
       Lit STAR; Lit STAR; Lit STAR]
  | BoldDouble =>
      (* /\*\*(.*?)\*\*/g *)
      [Lit STAR; Lit STAR; Open 1; lazy_star dot; Close 1; Lit STAR; Lit STAR]
  | Italic =>
      (* /\*(.*?)\*/g *)
      [Lit STAR; Open 1; lazy_star dot; Close 1; Lit STAR]
  | InlineCode =>
      (* /`([^`]+)`/g *)
      [Lit BACKTICK; Open 1; plus (not_char BACKTICK); Close 1; Lit BACKTICK]
  end.

Definition render (p : Pattern) (m : RegExpMatch) (key : Key) : InlineNode :=
  match p with
  | Link => Anchor key (m2 m) (m1 m)
  | BoldTriple => Strong key (m1 m)
  | BoldDouble => Strong key (m1 m)
  | Italic => Em key (m1 m)
  | InlineCode => Code key (m1 m)
  end.

(** The entries of [allMatches]. *)
Record Occurrence : Type := mkOcc {
  o_match : RegExpMatch;
  o_pattern : Pattern;
  o_start : nat;
  o_end : nat
}.

(** [while ((match = regex.exec(text)) !== null) allMatches.push(...)].  The
    loop has no bound of its own, so the model counts its iterations down
    from [fuel]; [None] is a loop that has not finished within [fuel]
    iterations. *)
Fixpoint collect (fuel : nat) (p : Pattern) (text : str) (lastIndex : nat)
    (allMatches : list Occurrence) : option (list Occurrence) :=
  match fuel with
  | 0 => None
  | S fuel' =>
      match exec (regex p) text lastIndex with
      | None => Some allMatches
      | Some (m, lastIndex') =>
          collect fuel' p text lastIndex'
            (allMatches ++ [mkOcc m p (index m) (index m + length (m0 m))])
      end
  end.

(** [patterns.forEach(pattern => ...)]: each pattern scans with a fresh
    regex object ([lastIndex] 0) and pushes to the shared [allMatches]. *)
Fixpoint forEach_pattern (fuel : nat) (ps : list Pattern) (text : str)
    (allMatches : list Occurrence) : option (list Occurrence) :=
  match ps with
  | [] => Some allMatches
  | p :: ps' =>
      match collect fuel p text 0 allMatches with
      | Some allMatches' => forEach_pattern fuel ps' text allMatches'
      | None => None
      end
  end.

(** [allMatches.sort((a, b) => a.start - b.start)].  [Array.prototype.sort]
    is stable: entries with equal [start] keep their relative order. *)
Fixpoint insert (x : Occurrence) (l : list Occurrence) : list Occurrence :=
  match l with
  | [] => [x]
  | y :: l' => if o_start y <? o_start x then y :: insert x l' else x :: l
  end.

Fixpoint sort (l : list Occurrence) : list Occurrence :=
  match l with
  | [] => []
  | x :: l' => insert x (sort l')
  end.

(** The loop that removes overlapping matches; the state is
    [(validMatches, lastEnd)]. *)
Definition keep_step (st : list Occurrence * nat) (o : Occurrence)
  : list Occurrence * nat :=
  let '(validMatches, lastEnd) := st in
  if lastEnd <=? o_start o then (validMatches ++ [o], o_end o) else st.

Definition removeOverlaps (sorted : list Occurrence) : list Occurrence :=
  fst (fold_left keep_step sorted ([], 0)).

(** The state of the loop that builds the parts. *)
Record Build : Type := mkBuild {
  parts : list InlineNode;
  currentIndex : nat;
  partIndex : nat
}.

(** [if (s) parts.push(<span key={`text-${partIndex++}`}>{s}</span>)] *)
Definition push_text (s : str) (st : Build) : Build :=
  if is_empty s then st
  else mkBuild (parts st ++ [Span (KText (partIndex st)) s])
               (currentIndex st) (S (partIndex st)).

Definition build_step (text : str) (st : Build) (o : Occurrence) : Build :=
  let st1 :=
    if currentIndex st <? o_start o
    then push_text (slice text (currentIndex st) (o_start o)) st
    else st in
  mkBuild (parts st1 ++ [render (o_pattern o) (o_match o) (KFormat (partIndex st1))])
          (o_end o) (S (partIndex st1)).

Definition finish (text : str) (st : Build) : list InlineNode :=
  let st1 :=
    if currentIndex st <? length text
    then push_text (skipn (currentIndex st) text) st
    else st in
  if is_empty_list (parts st1) then [Span KPlain text] else parts st1.

Definition buildParts (text : str) (validMatches : list Occurrence)
  : list InlineNode :=
  finish text (fold_left (build_step text) validMatches (mkBuild [] 0 0)).

Definition formatInlineText_fuel (fuel : nat) (text : str)
  : option (list InlineNode) :=
  match forEach_pattern fuel patterns text [] with
  | Some allMatches => Some (buildParts text (removeOverlaps (sort allMatches)))
  | None => None
  end.

(** The iterations of one [exec] loop are bounded by the length of the text
    (see [collect_enough_fuel]); the resolver is the fuelled one run with
    that much fuel. *)
Definition formatInlineText (text : str) : list InlineNode :=
  match formatInlineText_fuel (S (length text)) text with
  | Some ps => ps
  | None => []
  end.

(** ** The block scanner: [formatText] *)

(** The elements [formatText] pushes to [formattedLines].  Each carries the
    line index of its React key; tag and class name are fixed by the
    constructor (and, for a header, by its level). *)
Inductive BlockNode : Type :=
| CodeBlock (lineIndex : nat) (content : str)
| EmptyLine (lineIndex : nat)
| Header (lineIndex : nat) (level : nat) (children : list InlineNode)
| Blockquote (lineIndex : nat) (children : list InlineNode)
| NumberedItem (lineIndex : nat) (number : str) (children : list InlineNode)
| BulletItem (lineIndex : nat) (children : list InlineNode)
| Paragraph (lineIndex : nat) (children : list InlineNode).

Definition FENCE : str := [BACKTICK; BACKTICK; BACKTICK].
Definition QUOTE : str := [GT; SPACE].

(** /^(#{1,6})\s+(.+)$/ *)
Definition headerRe : Regex :=
  [Bol; Open 1; Rep (is_char HASH) 1 (Some 6) true; Close 1; plus is_space;
   Open 2; plus dot; Close 2; Eol].

(** /^\s*(\d+)\. (.+)$/ *)
Definition numberedRe : Regex :=
  [Bol; star is_space; Open 1; plus is_digit; Close 1; Lit DOT; Lit SPACE;
   Open 2; plus dot; Close 2; Eol].

(** /^\s*[-*•]\s+(.+)$/ *)
Definition bulletRe : Regex :=
  [Bol; star is_space; Rep is_bullet 1 (Some 1) true; plus is_space;
   Open 1; plus dot; Close 1; Eol].

(** The variables of the scanning loop. *)
Record Scan : Type := mkScan {
  formattedLines : list BlockNode;
  inCodeBlock : bool;
  codeBlockContent : list str
}.

Definition scan0 : Scan := mkScan [] false [].

Section BlockScanner.

(** The inline resolver the scanner calls; [None] is a call that has not
    returned. *)
Variable inline : str -> option (list InlineNode).

Definition push_block (st : Scan) (element : list InlineNode -> BlockNode)
    (text : str) : option Scan :=
  match inline text with
  | Some children =>
      Some (mkScan (formattedLines st ++ [element children])
                   (inCodeBlock st) (codeBlockContent st))
  | None => None
  end.

(** One iteration of the loop over [lines]. *)
Definition scanLine (st : Scan) (lineIndex : nat) (line : str) : option Scan :=
  if startsWith (trim line) FENCE then
    if inCodeBlock st then
      Some (mkScan
              (formattedLines st
                 ++ [CodeBlock lineIndex (join_lines (codeBlockContent st))])
              false [])
    else Some (mkScan (formattedLines st) true (codeBlockContent st))
  else if inCodeBlock st then
    Some (mkScan (formattedLines st) (inCodeBlock st)
                 (codeBlockContent st ++ [line]))
  else if is_empty (trim line) then
    Some (mkScan (formattedLines st ++ [EmptyLine lineIndex])
                 (inCodeBlock st) (codeBlockContent st))
  else
    match str_match headerRe line with
    | Some headerMatch =>
        let level := length (m1 headerMatch) in
        push_block st (Header lineIndex level) (m2 headerMatch)
    | None =>
        if startsWith (trim line) QUOTE then
          push_block st (Blockquote lineIndex) (skipn 2 (trim line))
        else
          match str_match numberedRe line with
          | Some numberedListMatch =>
              push_block st (NumberedItem lineIndex (m1 numberedListMatch))
                         (m2 numberedListMatch)
          | None =>
              match str_match bulletRe line with
              | Some bulletListMatch =>
                  push_block st (BulletItem lineIndex) (m1 bulletListMatch)
              | None => push_block st (Paragraph lineIndex) line
              end
          end
    end.

(** [for (let lineIndex = 0; lineIndex < lines.length; lineIndex++)] *)
Fixpoint scanLines (st : Scan) (lineIndex : nat) (lines : list str)
  : option Scan :=
  match lines with
  | [] => Some st
  | line :: rest =>
      match scanLine st lineIndex line with
      | Some st' => scanLines st' (S lineIndex) rest
      | None => None
      end
  end.

End BlockScanner.

(** The argument of [formatText] is typed [string]; the component passes its
    [text] prop through unchecked, so at run time it may also be [null] or
    [undefined]. *)
Inductive JsValue : Type :=
| JsUndefined
| JsNull
| JsString (s : str).

(** [!text] *)
Definition falsy (text : JsValue) : bool :=
  match text with
  | JsString (_ :: _) => false
  | _ => true
  end.

Definition formatText_fuel (fuel : nat) (text : JsValue)
  : option (list BlockNode) :=
  match text with
  | JsString s =>
      if falsy text then Some []
      else
        match scanLines (formatInlineText_fuel fuel) scan0 0 (split_lines s) with
        | Some st => Some (formattedLines st)
        | None => None
        end
  | _ => Some []
  end.

Definition js_length (text : JsValue) : nat :=
  match text with
  | JsString s => length s
  | _ => 0
  end.

Definition formatText (text : JsValue) : list BlockNode :=
  match formatText_fuel (S (js_length text)) text with
  | Some nodes => nodes
  | None => []
  end.

(** ** Email validation: [validateGmailEmail] and [normalizeGmailEmail]
    (utils/emailValidation) *)

Definition AT : char := 64%N.
Definition PLUS : char := 43%N.
Definition UNDERSCORE : char := 95%N.

(** [[a-zA-Z0-9._+-]] *)
Definition is_local_char (c : char) : bool :=
  ((97 <=? c) && (c <=? 122) || (65 <=? c) && (c <=? 90)
   || (48 <=? c) && (c <=? 57)
   || (c =? 46) || (c =? 95) || (c =? 43) || (c =? 45))%N.

Definition GMAIL_COM : str := lit "@gmail.com".

(** /^[a-zA-Z0-9._+-]+@gmail\.com$/ *)
Definition gmailRegex : Regex :=
  Bol :: plus is_local_char :: map Lit GMAIL_COM ++ [Eol].

(** [regex.test(s)] for a pattern without the [g] flag. *)
Definition regex_test (re : Regex) (s : str) : bool :=
  match str_match re s with
  | Some _ => true
  | None => false
  end.

(** [s.split(sep)[0]]: the text before the first [sep], the whole string
    when there is none. *)
Fixpoint split_first (sep : char) (s : str) : str :=
  match s with
  | [] => []
  | c :: s' => if N.eqb c sep then [] else c :: split_first sep s'
  end.

Definition endsWith (s p : str) : bool := startsWith (rev s) (rev p).

(** [s.includes(p)] *)
Fixpoint includes (s p : str) : bool :=
  startsWith s p
  || match s with
     | [] => false
     | _ :: s' => includes s' p
     end.

Record EmailValidationResult : Type := mkResult {
  isValid : bool;
  error : option str
}.

Definition EMAIL_REQUIRED : str := lit "Email is required".
Definition ONLY_GMAIL : str :=
  lit "Only Gmail accounts are accepted. Please use an email in the format: xyz@gmail.com".
Definition INVALID_FORMAT : str :=
  lit "Invalid email format. Please use a valid Gmail address: xyz@gmail.com".
Definition DOT_AT_END : str :=
  lit "Gmail address cannot start or end with a dot".
Definition CONSECUTIVE_DOTS : str :=
  lit "Gmail address cannot contain consecutive dots".

Section EmailValidation.

(** [String.prototype.toLowerCase], the Unicode lower-casing of the
    platform; nothing is assumed of it. *)
Variable toLowerCase : str -> str.

Definition normalizeGmailEmail (email : str) : str :=
  toLowerCase (trim email).

Definition validateGmailEmail (email : str) : EmailValidationResult :=
  let normalizedEmail := toLowerCase (trim email) in
  if is_empty normalizedEmail then mkResult false (Some EMAIL_REQUIRED)
  else if negb (regex_test gmailRegex normalizedEmail) then
    mkResult false (Some ONLY_GMAIL)
  else
    let localPart := split_first AT normalizedEmail in
    if is_empty localPart || Nat.eqb (length localPart) 0 then
      mkResult false (Some INVALID_FORMAT)
    else if startsWith localPart [DOT] || endsWith localPart [DOT] then
      mkResult false (Some DOT_AT_END)
    else if includes localPart [DOT; DOT] then
      mkResult false (Some CONSECUTIVE_DOTS)
    else mkResult true None.

End EmailValidation.

(** Lower-casing of ASCII text, an instance of [toLowerCase] for text
    without characters outside ASCII. *)
Definition ascii_lower (s : str) : str :=
  map (fun c => if ((65 <=? c) && (c <=? 90))%N then (c + 32)%N else c) s.

(** * Notions used by the statements *)

(** The pattern begins with a literal character. *)
Definition starts_with_literal (re : Regex) : Prop :=
  match re with
  | Lit _ :: _ => True
  | _ => False
  end.

(** The pooled occurrences, as the loops leave them in [allMatches]. *)
Definition allMatches (text : str) : list Occurrence :=
  match forEach_pattern (S (length text)) patterns text [] with
  | Some l => l
  | None => []
  end.

(** The occurrences kept after sorting and removing overlaps. *)
Definition validMatches (text : str) : list Occurrence :=
  removeOverlaps (sort (allMatches text)).

(** A well-formed occurrence: its pattern matches the text at [start] and
    ends at [end], and its match array is the one [exec] builds there. *)
Definition occ_ok (text : str) (o : Occurrence) : Prop :=
  exists caps,
    run (regex (o_pattern o)) (skipn (o_start o) text) (o_start o) no_caps
      = Some (o_end o, caps) /\
    o_match o = mkMatch (o_start o) (slice text (o_start o) (o_end o))
                        (group text 1 caps) (group text 2 caps) /\
    o_start o < o_end o /\ o_end o <= length text.

(** Occurrences in ascending order, none starting before [lo] or before the
    end of the one before it. *)
Fixpoint chained (lo : nat) (l : list Occurrence) : Prop :=
  match l with
  | [] => True
  | o :: l' => lo <= o_start o /\ o_start o < o_end o /\ chained (o_end o) l'
  end.

(** The occurrences of one pattern family, in scan order. *)
Definition occurrences (p : Pattern) (text : str) : list Occurrence :=
  match collect (S (length text)) p text 0 [] with
  | Some l => l
  | None => []
  end.

(** The overlap filter, read from the front of the sorted list. *)
Fixpoint keep (lastEnd : nat) (l : list Occurrence) : list Occurrence :=
  match l with
  | [] => []
  | o :: l' =>
      if lastEnd <=? o_start o then o :: keep (o_end o) l' else keep lastEnd l'
  end.

(** The source ranges of the parts, as the build loop cuts them: the gap
    [[currentIndex, start)] before a kept match when there is one, the
    match's own [[start, end)], and the remainder after the last match. *)
Fixpoint rangesFrom (len cur : nat) (kept : list Occurrence)
  : list (nat * nat) :=
  match kept with
  | [] => if cur <? len then [(cur, len)] else []
  | o :: kept' =>
      (if cur <? o_start o then [(cur, o_start o)] else [])
        ++ (o_start o, o_end o) :: rangesFrom len (o_end o) kept'
  end.

(** The ranges of the parts of [formatInlineText text]; the single plain
    span of the fallback covers the whole text. *)
Definition sourceRanges (text : str) : list (nat * nat) :=
  match rangesFrom (length text) 0 (validMatches text) with
  | [] => [(0, length text)]
  | rs => rs
  end.

(** A part is cut from a range: a plain span holds the text of the range; a
    formatted element renders a kept occurrence whose [[start, end)] is the
    range and whose [match[0]] is the text of the range. *)
Definition covers (text : str) (r : nat * nat) (n : InlineNode) : Prop :=
  match n with
  | Span _ s => s = slice text (fst r) (snd r)
  | _ =>
      exists o key,
        In o (validMatches text) /\
        o_start o = fst r /\ o_end o = snd r /\
        m0 (o_match o) = slice text (fst r) (snd r) /\
        n = render (o_pattern o) (o_match o) key
  end.

(** Each range begins where the one before it ends, from [lo] to [hi]. *)
Fixpoint contiguous (lo : nat) (rs : list (nat * nat)) (hi : nat) : Prop :=
  match rs with
  | [] => lo = hi
  | (a, b) :: rs' => a = lo /\ a <= b /\ contiguous b rs' hi
  end.

(** The text of a range. *)
Definition text_of (text : str) (r : nat * nat) : str :=
  slice text (fst r) (snd r).

(** The state before the fallback to a single plain span. *)
Definition tail_step (text : str) (st : Build) : Build :=
  if currentIndex st <? length text
  then push_text (skipn (currentIndex st) text) st
  else st.

(** What is kept of an occurrence list: family and range. *)
Definition summary (l : list Occurrence) : list (Pattern * nat * nat) :=
  map (fun o => (o_pattern o, o_start o, o_end o)) l.

(** The character a pattern begins with. *)
Definition lead (p : Pattern) : char :=
  match p with
  | Link => LBRACK
  | BoldTriple | BoldDouble | Italic => STAR
  | InlineCode => BACKTICK
  end.

(** The three families whose pattern begins with an asterisk. *)
Definition asterisk_family (p : Pattern) : bool :=
  match p with
  | BoldTriple | BoldDouble | Italic => true
  | Link | InlineCode => false
  end.

(** The position of a pattern in [patterns]. *)
Definition rank (p : Pattern) : nat :=
  match p with
  | Link => 0
  | BoldTriple => 1
  | BoldDouble => 2
  | Italic => 3
  | InlineCode => 4
  end.

(** The order of the pool: by family, and by start offset within one. *)
Definition pool_order (a b : Occurrence) : Prop :=
  rank (o_pattern a) < rank (o_pattern b) \/
  (o_pattern a = o_pattern b /\ o_start a < o_start b).

(** The claim as the specification words it: no two pooled occurrences
    share a start offset. *)
Definition tie_free (text : str) : Prop :=
  forall i j a b, i <> j ->
    nth_error (allMatches text) i = Some a ->
    nth_error (allMatches text) j = Some b ->
    o_start a <> o_start b.

(** The resolver as the scanner sees it once its loops are known to end. *)
Definition resolve (text : str) : option (list InlineNode) :=
  Some (formatInlineText text).

(** [line.trim().startsWith('```')] *)
Definition is_fence (line : str) : bool := startsWith (trim line) FENCE.

(** The claim as the specification words it: every line of one to six
    hashes, white space and non-empty content is a header of that level. *)
Definition header_claim : Prop :=
  forall n ws content,
    1 <= n <= 6 -> ws <> [] -> forallb is_space ws = true -> content <> [] ->
    exists txt,
      scanLine resolve scan0 0 (repeat HASH n ++ ws ++ content)
      = push_block resolve scan0 (Header 0 n) txt.

(** Captures and results moved [d] characters to the right. *)
Definition shift_caps (d : nat) (c : Caps) : Caps :=
  mkCaps (map (fun gp => (fst gp, snd gp + d)) (opened c))
         (map (fun gr => (fst gr, (fst (snd gr) + d, snd (snd gr) + d)))
              (closed c)).

Definition shift_result (d : nat) (r : nat * Caps) : nat * Caps :=
  (fst r + d, shift_caps d (snd r)).

(** The pattern has no [^] anchor. *)
Definition bol_free (re : Regex) : bool :=
  forallb (fun n => match n with Bol => false | _ => true end) re.

(** The quantifier cannot consume the next character. *)
Definition stops (cls : char -> bool) (rest : str) : bool :=
  match rest with
  | [] => true
  | y :: _ => negb (cls y)
  end.

(** The first character of [s] is white space. *)
Definition begins_with_space (s : str) : bool :=
  match s with
  | c :: _ => is_space c
  | [] => false
  end.

(** The React key of an inline part. *)
Definition node_key (n : InlineNode) : Key :=
  match n with
  | Span key _ | Anchor key _ _ | Strong key _ | Em key _ | Code key _ => key
  end.

Definition is_span (n : InlineNode) : bool :=
  match n with
  | Span _ _ => true
  | _ => false
  end.

(** The key the build loop gives the part pushed when [partIndex] is [i]. *)
Definition expected_key (i : nat) (n : InlineNode) : Key :=
  if is_span n then KText i else KFormat i.

(** The parts carry the keys of positions [i], [i + 1], ... *)
Fixpoint keyed (i : nat) (l : list InlineNode) : Prop :=
  match l with
  | [] => True
  | n :: l' => node_key n = expected_key i n /\ keyed (S i) l'
  end.

Definition key_number (k : Key) : option nat :=
  match k with
  | KText n | KFormat n => Some n
  | KPlain => None
  end.

(** The characters an inline pattern can begin with: [[], [*] and the
    backtick. *)
Definition is_markup_lead (c : char) : bool :=
  N.eqb c LBRACK || N.eqb c STAR || N.eqb c BACKTICK.

(** The build loop numbers the parts in the order it pushes them. *)
Definition numbered_parts (st : Build) : Prop :=
  keyed 0 (parts st) /\ partIndex st = length (parts st).

(** The line index in the React key of a block. *)
Definition block_index (b : BlockNode) : nat :=
  match b with
  | CodeBlock i _ | EmptyLine i | Header i _ _ | Blockquote i _
  | NumberedItem i _ _ | BulletItem i _ | Paragraph i _ => i
  end.

(** No character of the text can begin an inline pattern. *)
Definition markup_free (text : str) : bool :=
  forallb (fun c => negb (is_markup_lead c)) text.

(** The matched text of an occurrence, rebuilt from its groups and the
    delimiters of its pattern. *)
Definition delimited (p : Pattern) (m : RegExpMatch) : str :=
  match p with
  | Link => LBRACK :: m1 m ++ RBRACK :: LPAREN :: m2 m ++ [RPAREN]
  | BoldTriple => STAR :: STAR :: STAR :: m1 m ++ [STAR; STAR; STAR]
  | BoldDouble => STAR :: STAR :: m1 m ++ [STAR; STAR]
  | Italic => STAR :: m1 m ++ [STAR]
  | InlineCode => BACKTICK :: m1 m ++ [BACKTICK]
  end.

(** What the pattern guarantees of the groups: label and address of a link
    are non-empty and free of []] and [)]; inline code is non-empty and free
    of backticks; emphasized text holds no line terminator. *)
Definition content_ok (p : Pattern) (m : RegExpMatch) : bool :=
  match p with
  | Link =>
      negb (is_empty (m1 m)) && forallb (not_char RBRACK) (m1 m)
      && negb (is_empty (m2 m)) && forallb (not_char RPAREN) (m2 m)
  | InlineCode => negb (is_empty (m1 m)) && forallb (not_char BACKTICK) (m1 m)
  | BoldTriple | BoldDouble | Italic => forallb dot (m1 m)
  end.

(** What holds of every part of the output. *)
Definition node_ok (n : InlineNode) : bool :=
  match n with
  | Span key s => negb (is_empty s) || match key with KPlain => true | _ => false end
  | Anchor _ href label =>
      negb (is_empty label) && forallb (not_char RBRACK) label
      && negb (is_empty href) && forallb (not_char RPAREN) href
  | Code _ s => negb (is_empty s) && forallb (not_char BACKTICK) s
  | Strong _ s | Em _ s => forallb dot s
  end.

(** The plain span of a stretch of text, with part number [k]; nothing for
    an empty stretch. *)
Definition text_part (k : nat) (s : str) : list InlineNode :=
  if is_empty s then [] else [Span (KText k) s].

(** One formatted element between the plain spans of the text before and
    after it. *)
Definition around (pre : str) (element : Key -> InlineNode) (post : str)
  : list InlineNode :=
  let k := if is_empty pre then 0 else 1 in
  text_part 0 pre ++ [element (KFormat k)] ++ text_part (S k) post.

(** The number of asterisks of a text. *)
Definition stars (s : str) : nat := length (filter (N.eqb STAR) s).

(** Text that can stand between asterisks and be matched whole: without
    line terminators and without asterisks. *)
Definition emphasis_text (x : str) : bool :=
  forallb (fun c => dot c && not_char STAR c) x.

(** * Properties *)

(** ** Strings *)

Lemma slice_length (s : str) (a b : nat) :
  b <= length s -> length (slice s a b) = b - a.
Proof.
  intro H. unfold slice. rewrite length_firstn, length_skipn. lia.
Qed.

Lemma firstn_plus {A : Type} (a b : nat) : forall l : list A,
  firstn (a + b) l = firstn a l ++ firstn b (skipn a l).
Proof.
  induction a as [|a IH]; intros [|x l]; simpl; auto.
  - now rewrite firstn_nil.
  - now rewrite IH.
Qed.

Lemma slice_app (s : str) (a b c : nat) :
  a <= b -> b <= c -> slice s a b ++ slice s b c = slice s a c.
Proof.
  intros Hab Hbc. unfold slice.
  replace (c - a) with ((b - a) + (c - b)) by lia.
  rewrite firstn_plus, skipn_skipn.
  replace (b - a + a) with b by lia. reflexivity.
Qed.

Lemma slice_all (s : str) : slice s 0 (length s) = s.
Proof. unfold slice. rewrite Nat.sub_0_r. simpl. apply firstn_all. Qed.

Lemma slice_whole (s : str) (b : nat) : b = length s -> slice s 0 b = s.
Proof. intros ->. apply slice_all. Qed.

Lemma slice_to_end (s : str) (a : nat) : slice s a (length s) = skipn a s.
Proof.
  unfold slice. apply firstn_all2. rewrite length_skipn. lia.
Qed.

Lemma slice_middle (pre mid post : str) :
  slice (pre ++ mid ++ post) (length pre) (length pre + length mid) = mid.
Proof.
  unfold slice. rewrite skipn_app, skipn_all, Nat.sub_diag. simpl.
  replace (length pre + length mid - length pre) with (length mid + 0) by lia.
  rewrite firstn_app_2. simpl. apply app_nil_r.
Qed.

(** ** The matcher *)

Section QuantifierFacts.

Variable cont : str -> nat -> option (nat * Caps).
Variable cls : char -> bool.
Variable lo : nat.
Variable hi : option nat.
Variable greedy : bool.

Let rp := rep cont cls lo hi greedy.

(** A successful quantifier consumed some [j] characters of the class and
    handed the rest to the continuation. *)
Lemma rep_sound (s : str) : forall pos k r,
  rp s pos k = Some r ->
  exists j, j <= length s /\
    forallb cls (firstn j s) = true /\
    lo <= k + j /\
    (j = 0 \/ below (k + j - 1) hi = true) /\
    cont (skipn j s) (pos + j) = Some r.
Proof.
  subst rp. induction s as [|x s' IH]; intros pos k r H.
  - exists 0. simpl in H.
    assert (Hs : (if lo <=? k then cont [] pos else None) = Some r)
      by (destruct greedy; [exact H | destruct (if lo <=? k then _ else _); congruence]).
    destruct (lo <=? k) eqn:E; [|discriminate].
    apply Nat.leb_le in E. rewrite !Nat.add_0_r.
    repeat split; auto; lia.
  - simpl in H.
    set (more := if cls x && below k hi
                 then rep cont cls lo hi greedy s' (S pos) (S k) else None) in H.
    set (stop := if lo <=? k then cont (x :: s') pos else None) in H.
    assert (Hc : more = Some r \/ stop = Some r).
    { destruct greedy.
      - destruct more; [left; congruence | right; exact H].
      - destruct stop; [right; congruence | left; exact H]. }
    destruct Hc as [Hm | Hs].
    + subst more. destruct (cls x && below k hi) eqn:E; [|discriminate].
      apply andb_prop in E. destruct E as [Ex Eb].
      apply IH in Hm. destruct Hm as (j & Hj & Hall & Hlo & Hhi & Hk).
      exists (S j). simpl. rewrite Ex, Hall.
      replace (pos + S j) with (S pos + j) by lia.
      repeat split; auto; try lia.
      right. destruct Hhi as [-> | Hhi].
      * replace (k + 1 - 1) with k by lia. exact Eb.
      * replace (k + S j - 1) with (S k + j - 1) by lia. exact Hhi.
    + subst stop. destruct (lo <=? k) eqn:E; [|discriminate].
      apply Nat.leb_le in E. exists 0. rewrite !Nat.add_0_r. simpl.
      repeat split; auto; lia.
Qed.

End QuantifierFacts.

(** A match ends inside the remaining input. *)
Lemma run_bounds (re : Regex) : forall s pos caps e caps',
  run re s pos caps = Some (e, caps') -> pos <= e <= pos + length s.
Proof.
  induction re as [|n re' IH]; intros s pos caps e caps' H.
  - simpl in H. inversion H; subst. lia.
  - destruct n; simpl in H.
    + destruct s as [|x s']; [discriminate|].
      destruct (N.eqb x c); [|discriminate].
      apply IH in H. simpl. lia.
    + apply rep_sound in H. destruct H as (j & Hj & _ & _ & _ & H).
      apply IH in H. rewrite length_skipn in H. lia.
    + apply IH in H. exact H.
    + apply IH in H. exact H.
    + destruct (Nat.eqb pos 0); [|discriminate]. apply IH in H. exact H.
    + destruct s; [|discriminate]. apply IH in H. exact H.
Qed.

(** A pattern that begins with a literal character matches it first. *)
Lemma run_lit (c : char) (re : Regex) (s : str) (pos : nat) (caps : Caps) r :
  run (Lit c :: re) s pos caps = Some r ->
  exists s', s = c :: s' /\ run re s' (S pos) caps = Some r.
Proof.
  simpl. destruct s as [|x s']; [discriminate|].
  destruct (N.eqb x c) eqn:E; [|discriminate].
  apply N.eqb_eq in E. subst. eauto.
Qed.

(** [search] returns the leftmost offset at which the pattern matches. *)
Lemma search_sound (re : Regex) (text : str) : forall s pos m,
  search re text s pos = Some m ->
  exists d e caps,
    d <= length s /\
    run re (skipn d s) (pos + d) no_caps = Some (e, caps) /\
    m = mkMatch (pos + d) (slice text (pos + d) e)
                (group text 1 caps) (group text 2 caps) /\
    forall d', d' < d -> run re (skipn d' s) (pos + d') no_caps = None.
Proof.
  induction s as [|x s' IH]; intros pos m H; simpl in H.
  - destruct (run re [] pos no_caps) as [[e caps]|] eqn:E; [|discriminate].
    exists 0, e, caps. rewrite Nat.add_0_r. simpl.
    repeat split; auto; try congruence; intros; lia.
  - destruct (run re (x :: s') pos no_caps) as [[e caps]|] eqn:E.
    + exists 0, e, caps. rewrite Nat.add_0_r. simpl.
      repeat split; auto; try congruence; intros; lia.
    + apply IH in H. destruct H as (d & e & caps & Hd & Hr & Hm & Hleft).
      exists (S d), e, caps. replace (pos + S d) with (S pos + d) by lia.
      simpl. repeat split; auto; try lia.
      intros [|d'] Hd'.
      * rewrite Nat.add_0_r. exact E.
      * replace (pos + S d') with (S pos + d') by lia. apply Hleft. lia.
Qed.

(** What a successful [exec] returns: the match found at the leftmost
    offset [index >= lastIndex], and the end offset of that match as the
    new [lastIndex]. *)
Lemma exec_sound (re : Regex) (text : str) (lastIndex : nat) m lastIndex' :
  exec re text lastIndex = Some (m, lastIndex') ->
  exists caps,
    lastIndex <= index m /\ index m <= lastIndex' /\ lastIndex' <= length text /\
    run re (skipn (index m) text) (index m) no_caps = Some (lastIndex', caps) /\
    m = mkMatch (index m) (slice text (index m) lastIndex')
                (group text 1 caps) (group text 2 caps) /\
    forall i, lastIndex <= i < index m ->
              run re (skipn i text) i no_caps = None.
Proof.
  unfold exec. intro H.
  destruct (lastIndex <=? length text) eqn:E; [|discriminate].
  apply Nat.leb_le in E.
  destruct (search re text (skipn lastIndex text) lastIndex) as [m'|] eqn:Es;
    [|discriminate].
  inversion H; subst m' lastIndex'; clear H.
  apply search_sound in Es.
  destruct Es as (d & e & caps & Hd & Hr & Hm & Hleft).
  rewrite length_skipn in Hd. rewrite skipn_skipn in Hr.
  pose proof (run_bounds _ _ _ _ _ _ Hr) as Hb. rewrite length_skipn in Hb.
  assert (Hi : index m = lastIndex + d) by (subst m; reflexivity).
  assert (Hl : length (m0 m) = e - (lastIndex + d)).
  { subst m. simpl. apply slice_length. lia. }
  rewrite Hi, Hl.
  replace (lastIndex + d + (e - (lastIndex + d))) with e by lia.
  replace (d + lastIndex) with (lastIndex + d) in Hr by lia.
  exists caps. repeat split; auto; try lia.
  intros i Hi'. specialize (Hleft (i - lastIndex)).
  rewrite skipn_skipn in Hleft.
  replace (i - lastIndex + lastIndex) with i in Hleft by lia.
  replace (lastIndex + (i - lastIndex)) with i in Hleft by lia.
  apply Hleft. lia.
Qed.

(** ** Every inline pattern matches a non-empty substring *)

Lemma regex_starts_with_literal (p : Pattern) : starts_with_literal (regex p).
Proof. destruct p; exact I. Qed.

Lemma run_nonempty (re : Regex) (s : str) (pos : nat) (caps : Caps) e caps' :
  starts_with_literal re ->
  run re s pos caps = Some (e, caps') -> pos < e.
Proof.
  destruct re as [|[c| | | | |] re']; simpl; try contradiction.
  intros _ H. destruct s as [|x s']; [discriminate|].
  destruct (N.eqb x c); [|discriminate].
  apply run_bounds in H. lia.
Qed.

Lemma exec_advances (p : Pattern) (text : str) (lastIndex : nat) m lastIndex' :
  exec (regex p) text lastIndex = Some (m, lastIndex') ->
  lastIndex <= index m /\ index m < lastIndex' /\ lastIndex' <= length text.
Proof.
  intro H. apply exec_sound in H.
  destruct H as (caps & H1 & H2 & H3 & Hr & _).
  apply run_nonempty in Hr; [lia | apply regex_starts_with_literal].
Qed.

Lemma exec_lastIndex (re : Regex) (text : str) (lastIndex : nat) m lastIndex' :
  exec re text lastIndex = Some (m, lastIndex') ->
  lastIndex' = index m + length (m0 m).
Proof.
  unfold exec. destruct (lastIndex <=? length text); [|discriminate].
  destruct (search re text (skipn lastIndex text) lastIndex); [|discriminate].
  intro H. inversion H. reflexivity.
Qed.

(** ** The [exec] loops terminate *)

(** With more iterations allowed than characters left to scan, the loop
    finishes. *)
Lemma collect_terminates (p : Pattern) (text : str) :
  forall fuel lastIndex acc,
    length text - lastIndex < fuel ->
    exists r, collect fuel p text lastIndex acc = Some r.
Proof.
  induction fuel as [|fuel IH]; intros lastIndex acc Hlt; [lia|].
  simpl. destruct (exec (regex p) text lastIndex) as [[m li]|] eqn:E.
  - apply exec_advances in E. apply IH. lia.
  - eauto.
Qed.

(** A loop that has finished gives the same result with more fuel. *)
Lemma collect_fuel_mono (p : Pattern) (text : str) :
  forall fuel fuel' lastIndex acc r,
    collect fuel p text lastIndex acc = Some r ->
    fuel <= fuel' ->
    collect fuel' p text lastIndex acc = Some r.
Proof.
  induction fuel as [|fuel IH]; intros fuel' lastIndex acc r H Hle;
    [discriminate|].
  destruct fuel' as [|fuel']; [lia|].
  simpl in *. destruct (exec (regex p) text lastIndex) as [[m li]|]; auto.
  apply IH with (fuel' := fuel') in H; auto. lia.
Qed.

Lemma collect_enough_fuel (p : Pattern) (text : str) (acc : list Occurrence) :
  exists r, forall fuel,
    length text < fuel -> collect fuel p text 0 acc = Some r.
Proof.
  destruct (collect_terminates p text (S (length text)) 0 acc) as [r Hr]; [lia|].
  exists r. intros fuel Hlt. apply collect_fuel_mono with (1 := Hr). lia.
Qed.

Lemma forEach_pattern_enough_fuel (text : str) :
  forall ps acc, exists r, forall fuel,
    length text < fuel -> forEach_pattern fuel ps text acc = Some r.
Proof.
  induction ps as [|p ps IH]; intro acc; simpl.
  - eauto.
  - destruct (collect_enough_fuel p text acc) as [r1 H1].
    destruct (IH r1) as [r H]. exists r. intros fuel Hlt.
    rewrite (H1 fuel Hlt). auto.
Qed.

Lemma allMatches_enough_fuel (text : str) (fuel : nat) :
  length text < fuel ->
  forEach_pattern fuel patterns text [] = Some (allMatches text).
Proof.
  intro Hlt. unfold allMatches.
  destruct (forEach_pattern_enough_fuel text patterns []) as [r H].
  rewrite (H (S (length text))) by lia. auto.
Qed.

Lemma formatInlineText_enough_fuel (text : str) (fuel : nat) :
  length text < fuel ->
  formatInlineText_fuel fuel text = Some (formatInlineText text).
Proof.
  intro Hlt. unfold formatInlineText, formatInlineText_fuel.
  rewrite !allMatches_enough_fuel by lia. reflexivity.
Qed.

Lemma formatInlineText_eq (text : str) :
  formatInlineText text = buildParts text (validMatches text).
Proof.
  unfold formatInlineText, formatInlineText_fuel.
  rewrite allMatches_enough_fuel by lia. reflexivity.
Qed.

(** ** What the pool holds *)

(** The accumulator only grows at its end. *)
Lemma collect_acc (p : Pattern) (text : str) : forall fuel lastIndex acc,
  collect fuel p text lastIndex acc
  = option_map (app acc) (collect fuel p text lastIndex []).
Proof.
  induction fuel as [|fuel IH]; intros lastIndex acc; simpl; auto.
  destruct (exec (regex p) text lastIndex) as [[m li]|]; simpl.
  - rewrite IH. rewrite (IH li [_]).
    destruct (collect fuel p text li []); simpl; auto.
    now rewrite <- app_assoc.
  - now rewrite app_nil_r.
Qed.

Lemma collect_spec (p : Pattern) (text : str) : forall fuel lastIndex r,
  collect fuel p text lastIndex [] = Some r ->
  chained lastIndex r /\ Forall (occ_ok text) r /\
  Forall (fun o => o_pattern o = p) r.
Proof.
  induction fuel as [|fuel IH]; intros lastIndex r H; [discriminate|].
  simpl in H. destruct (exec (regex p) text lastIndex) as [[m li]|] eqn:E.
  - rewrite collect_acc in H.
    destruct (collect fuel p text li []) as [new|] eqn:Ec; [|discriminate].
    simpl in H. inversion H; subst r; clear H.
    apply IH in Ec. destruct Ec as (Hc & Hok & Hp).
    pose proof (exec_lastIndex _ _ _ _ _ E) as Hli.
    pose proof (exec_advances _ _ _ _ _ E) as (Ha & Hb & Hd).
    apply exec_sound in E. destruct E as (caps & _ & _ & _ & Hr & Hm & _).
    rewrite <- Hli. simpl. repeat split; auto.
    constructor; auto. exists caps. simpl. auto.
  - inversion H; subst. simpl. auto.
Qed.

Lemma occurrences_spec (p : Pattern) (text : str) :
  chained 0 (occurrences p text) /\ Forall (occ_ok text) (occurrences p text) /\
  Forall (fun o => o_pattern o = p) (occurrences p text).
Proof.
  unfold occurrences.
  destruct (collect (S (length text)) p text 0 []) eqn:E.
  - eapply collect_spec; eauto.
  - simpl. auto.
Qed.

Lemma forEach_pattern_flat (text : str) (fuel : nat) :
  length text < fuel ->
  forall ps acc,
    forEach_pattern fuel ps text acc
    = Some (acc ++ flat_map (fun p => occurrences p text) ps).
Proof.
  intros Hlt. induction ps as [|p ps IH]; intro acc; simpl.
  - now rewrite app_nil_r.
  - rewrite collect_acc. unfold occurrences.
    destruct (collect_enough_fuel p text []) as [r Hr].
    rewrite (Hr fuel Hlt), (Hr (S (length text))) by lia. simpl.
    rewrite IH. now rewrite <- app_assoc.
Qed.

(** The pool is the families' occurrences, family after family. *)
Lemma allMatches_flat (text : str) :
  allMatches text = flat_map (fun p => occurrences p text) patterns.
Proof.
  unfold allMatches. rewrite forEach_pattern_flat by lia. reflexivity.
Qed.

Lemma allMatches_ok (text : str) : Forall (occ_ok text) (allMatches text).
Proof.
  rewrite allMatches_flat. apply Forall_flat_map, Forall_forall.
  intros p _. apply occurrences_spec.
Qed.

(** ** Sorting and overlap removal *)

Lemma insert_In (x y : Occurrence) (l : list Occurrence) :
  In y (insert x l) <-> y = x \/ In y l.
Proof.
  induction l as [|z l IH]; simpl.
  - intuition congruence.
  - destruct (o_start z <? o_start x); simpl; rewrite ?IH; intuition congruence.
Qed.

Lemma sort_In (y : Occurrence) (l : list Occurrence) :
  In y (sort l) <-> In y l.
Proof.
  induction l as [|x l IH]; simpl; [tauto|].
  rewrite insert_In, IH. intuition congruence.
Qed.

Lemma fold_keep_step (l : list Occurrence) : forall acc lastEnd,
  fst (fold_left keep_step l (acc, lastEnd)) = acc ++ keep lastEnd l.
Proof.
  induction l as [|o l IH]; intros acc lastEnd; simpl.
  - now rewrite app_nil_r.
  - destruct (lastEnd <=? o_start o); rewrite IH; auto.
    now rewrite <- app_assoc.
Qed.

Lemma removeOverlaps_keep (l : list Occurrence) : removeOverlaps l = keep 0 l.
Proof. unfold removeOverlaps. now rewrite fold_keep_step. Qed.

Lemma keep_In (l : list Occurrence) : forall lastEnd o,
  In o (keep lastEnd l) -> In o l.
Proof.
  induction l as [|x l IH]; intros lastEnd o; simpl; auto.
  destruct (lastEnd <=? o_start x); simpl; intros H.
  - destruct H; eauto.
  - eauto.
Qed.

Lemma keep_chained (l : list Occurrence) : forall lastEnd,
  Forall (fun o => o_start o < o_end o) l -> chained lastEnd (keep lastEnd l).
Proof.
  induction l as [|x l IH]; intros lastEnd H; simpl; auto.
  inversion H; subst.
  destruct (lastEnd <=? o_start x) eqn:E; simpl; auto.
  apply Nat.leb_le in E. auto.
Qed.

Lemma occ_ok_nonempty (text : str) (o : Occurrence) :
  occ_ok text o -> o_start o < o_end o.
Proof. intros (caps & _ & _ & H & _). exact H. Qed.

Lemma validMatches_ok (text : str) : Forall (occ_ok text) (validMatches text).
Proof.
  apply Forall_forall. intros o Ho. unfold validMatches in Ho.
  rewrite removeOverlaps_keep in Ho. apply keep_In in Ho.
  apply -> sort_In in Ho.
  pose proof (allMatches_ok text) as H. rewrite Forall_forall in H.
  apply H, Ho.
Qed.

Lemma validMatches_chained (text : str) : chained 0 (validMatches text).
Proof.
  unfold validMatches. rewrite removeOverlaps_keep. apply keep_chained.
  apply Forall_forall. intros o Ho. apply -> sort_In in Ho.
  pose proof (allMatches_ok text) as H. rewrite Forall_forall in H.
  eapply occ_ok_nonempty; eauto.
Qed.

(** ** The parts and their source ranges *)

Lemma contiguous_le (rs : list (nat * nat)) : forall lo hi,
  contiguous lo rs hi -> lo <= hi.
Proof.
  induction rs as [|[a b] rs IH]; simpl; intros lo hi H.
  - lia.
  - destruct H as (-> & Hab & H). apply IH in H. lia.
Qed.

Lemma contiguous_concat (text : str) (rs : list (nat * nat)) : forall lo hi,
  contiguous lo rs hi ->
  concat (map (text_of text) rs) = slice text lo hi.
Proof.
  induction rs as [|[a b] rs IH]; simpl; intros lo hi H.
  - subst. unfold slice. now rewrite Nat.sub_diag.
  - destruct H as (-> & Hab & H). rewrite (IH _ _ H).
    unfold text_of. simpl. apply slice_app; auto.
    eapply contiguous_le; eauto.
Qed.

Lemma contiguous_sorted (rs : list (nat * nat)) : forall lo hi,
  contiguous lo rs hi ->
  Forall (fun r => lo <= fst r) rs /\
  StronglySorted (fun r1 r2 => snd r1 <= fst r2) rs.
Proof.
  induction rs as [|[a b] rs IH]; simpl; intros lo hi H.
  - split; constructor.
  - destruct H as (-> & Hab & H). apply IH in H. destruct H as [Hlo Hs].
    split.
    + constructor; simpl; auto.
      eapply Forall_impl; [|exact Hlo]. simpl. intros; lia.
    + constructor; auto.
Qed.

Lemma rangesFrom_contiguous (len : nat) (kept : list Occurrence) : forall cur,
  cur <= len -> chained cur kept ->
  Forall (fun o => o_end o <= len) kept ->
  contiguous cur (rangesFrom len cur kept) len.
Proof.
  induction kept as [|o kept IH]; simpl; intros cur Hcur Hch Hend.
  - destruct (cur <? len) eqn:E; simpl.
    + apply Nat.ltb_lt in E. lia.
    + apply Nat.ltb_ge in E. lia.
  - destruct Hch as (H1 & H2 & H3). inversion Hend; subst.
    specialize (IH (o_end o) ltac:(assumption) H3 ltac:(assumption)).
    destruct (cur <? o_start o) eqn:E; simpl.
    + apply Nat.ltb_lt in E. repeat split; auto; lia.
    + apply Nat.ltb_ge in E. repeat split; auto; lia.
Qed.

Lemma finish_tail_step (text : str) (st : Build) :
  finish text st =
  if is_empty_list (parts (tail_step text st)) then [Span KPlain text]
  else parts (tail_step text st).
Proof. reflexivity. Qed.

Lemma push_text_parts (s : str) (st : Build) :
  s <> [] ->
  push_text s st = mkBuild (parts st ++ [Span (KText (partIndex st)) s])
                           (currentIndex st) (S (partIndex st)).
Proof. destruct s; [congruence | reflexivity]. Qed.

Lemma slice_nonempty (text : str) (a b : nat) :
  a < b -> b <= length text -> slice text a b <> [].
Proof.
  intros Hab Hb E. apply (f_equal (@length char)) in E.
  rewrite slice_length in E by assumption. simpl in E. lia.
Qed.

Lemma skipn_nonempty (text : str) (a : nat) :
  a < length text -> skipn a text <> [].
Proof.
  intros Ha E. apply (f_equal (@length char)) in E.
  rewrite length_skipn in E. simpl in E. lia.
Qed.

Lemma covers_render (text : str) (o : Occurrence) (key : Key) :
  In o (validMatches text) -> occ_ok text o ->
  covers text (o_start o, o_end o) (render (o_pattern o) (o_match o) key).
Proof.
  intros Hin (caps & _ & Hm & _).
  assert (H0 : m0 (o_match o) = slice text (o_start o) (o_end o))
    by (rewrite Hm; reflexivity).
  destruct (o_pattern o) eqn:Ep; simpl; exists o, key; rewrite Ep; simpl; auto.
Qed.

(** The build loop and the ranges advance in step. *)
Lemma build_covers (text : str) (kept : list Occurrence) : forall st rs,
  Forall (fun o => In o (validMatches text) /\ occ_ok text o) kept ->
  chained (currentIndex st) kept ->
  Forall2 (covers text) rs (parts st) ->
  Forall2 (covers text)
    (rs ++ rangesFrom (length text) (currentIndex st) kept)
    (parts (tail_step text (fold_left (build_step text) kept st))).
Proof.
  induction kept as [|o kept IH]; intros st rs Hok Hch Hrs; simpl.
  - unfold tail_step. destruct (currentIndex st <? length text) eqn:E.
    + apply Nat.ltb_lt in E.
      rewrite push_text_parts by (apply skipn_nonempty; exact E). simpl.
      apply Forall2_app; auto. constructor; [|constructor].
      simpl. symmetry. apply slice_to_end.
    + now rewrite app_nil_r.
  - inversion Hok as [|? ? [Hin Ho] Hok']; subst.
    destruct Hch as (H1 & H2 & H3).
    assert (Hend : o_end o <= length text) by (destruct Ho as (? & _ & _ & _ & H); exact H).
    set (gap := if currentIndex st <? o_start o
                then [(currentIndex st, o_start o)] else []).
    replace (rs ++ gap ++ (o_start o, o_end o) :: rangesFrom (length text) (o_end o) kept)
      with ((rs ++ gap ++ [(o_start o, o_end o)])
              ++ rangesFrom (length text) (o_end o) kept)
      by (rewrite <- !app_assoc; reflexivity).
    apply (IH (build_step text st o)); auto.
    unfold build_step. simpl. subst gap.
    destruct (currentIndex st <? o_start o) eqn:E.
    + apply Nat.ltb_lt in E.
      rewrite push_text_parts by (apply slice_nonempty; lia). simpl.
      match goal with
      | |- Forall2 _ (?l ++ [?a; ?b]) _ =>
          change (l ++ [a; b]) with (l ++ [a] ++ [b])
      end.
      rewrite app_assoc. apply Forall2_app; [apply Forall2_app; auto|].
      * constructor; [reflexivity | constructor].
      * constructor; [|constructor]. apply covers_render; auto.
    + simpl. apply Forall2_app; auto.
      constructor; [|constructor]. apply covers_render; auto.
Qed.

(** C1. Partition law of the inline resolver: the parts of
    [formatInlineText] are cut from source ranges (the gap before a kept
    match, the match's full range with its delimiters, the remainder) that
    start at 0, each begin where the one before ends, end at the length of
    the text, do not overlap and ascend; the texts of the ranges, in order,
    concatenate to the input. *)
Theorem formatInlineText_partition (text : str) :
  Forall2 (covers text) (sourceRanges text) (formatInlineText text) /\
  contiguous 0 (sourceRanges text) (length text) /\
  StronglySorted (fun r1 r2 => snd r1 <= fst r2) (sourceRanges text) /\
  concat (map (text_of text) (sourceRanges text)) = text.
Proof.
  assert (Hcov : Forall2 (covers text)
            (rangesFrom (length text) 0 (validMatches text))
            (parts (tail_step text
               (fold_left (build_step text) (validMatches text) (mkBuild [] 0 0))))).
  { apply (build_covers text (validMatches text) (mkBuild [] 0 0) []).
    - pose proof (validMatches_ok text) as H. rewrite Forall_forall in *.
      intros o Ho. split; auto.
    - apply validMatches_chained.
    - constructor. }
  assert (Hcont : contiguous 0 (rangesFrom (length text) 0 (validMatches text))
                             (length text)).
  { apply rangesFrom_contiguous; [lia | apply validMatches_chained |].
    eapply Forall_impl; [|apply validMatches_ok].
    intros o (? & _ & _ & _ & H). exact H. }
  assert (Hc : contiguous 0 (sourceRanges text) (length text)).
  { unfold sourceRanges.
    destruct (rangesFrom (length text) 0 (validMatches text)); auto.
    simpl. repeat split; lia. }
  split; [|split; [exact Hc|split]].
  - rewrite formatInlineText_eq. unfold buildParts, sourceRanges.
    rewrite finish_tail_step.
    inversion Hcov as [Hr Hp | r n rs ps Hrn Hrest Hr Hp]; simpl.
    + constructor; [|constructor]. simpl. symmetry. apply slice_all.
    + constructor; auto.
  - eapply contiguous_sorted; eauto.
  - rewrite (contiguous_concat text _ _ _ Hc). apply slice_all.
Qed.

(** ** Concrete inputs of the inline resolver *)

(** C2. The input [Hello **world] has no closing [**], yet the italic
    pattern [\*(.*?)\*] matches the two asterisks as an emphasis with empty
    content: the resolver returns a plain span, an empty [em] element and a
    plain span, and the two asterisks are in none of them. *)
Theorem formatInlineText_unterminated_bold :
  formatInlineText (lit "Hello **world")
  = [Span (KText 0) (lit "Hello "); Em (KFormat 1) [];
     Span (KText 2) (lit "world")].
Proof. vm_compute. reflexivity. Qed.

(** C3. [***x***] resolves to one [strong] element, rendered from the
    triple-asterisk occurrence that spans the whole token; [**a** *b*]
    resolves to a [strong] element for [a], a plain span for the blank and
    an [em] element for [b]. *)
Theorem formatInlineText_priority :
  formatInlineText (lit "***x***") = [Strong (KFormat 0) (lit "x")] /\
  summary (validMatches (lit "***x***")) = [(BoldTriple, 0, 7)] /\
  formatInlineText (lit "**a** *b*")
  = [Strong (KFormat 0) (lit "a"); Span (KText 1) (lit " ");
     Em (KFormat 2) (lit "b")].
Proof. vm_compute. repeat split; reflexivity. Qed.

(** ** Start offsets in the pool *)

Lemma occ_lead (text : str) (o : Occurrence) :
  occ_ok text o -> nth_error text (o_start o) = Some (lead (o_pattern o)).
Proof.
  intros (caps & Hr & _).
  assert (H : exists s', skipn (o_start o) text = lead (o_pattern o) :: s').
  { destruct (o_pattern o); simpl regex in Hr; apply run_lit in Hr;
      destruct Hr as (s' & Hs & _); eauto. }
  destruct H as (s' & Hs).
  rewrite <- (Nat.add_0_r (o_start o)), <- nth_error_skipn, Hs. reflexivity.
Qed.

Lemma chained_lower (l : list Occurrence) : forall lo,
  chained lo l -> Forall (fun o => lo <= o_start o) l.
Proof.
  induction l as [|o l IH]; simpl; intros lo H; constructor.
  - tauto.
  - destruct H as (H1 & H2 & H3). apply IH in H3.
    eapply Forall_impl; [|exact H3]. simpl. intros; lia.
Qed.

Lemma occurrences_sorted (p : Pattern) (text : str) :
  StronglySorted pool_order (occurrences p text).
Proof.
  destruct (occurrences_spec p text) as (Hc & _ & Hp).
  revert Hc Hp. generalize 0. generalize (occurrences p text).
  induction l as [|o l IH]; intros lo Hc Hp; constructor.
  - destruct Hc as (_ & _ & Hc). inversion Hp as [|o' l' Hpo Hpl [Eo El]].
    eapply IH; eauto.
  - destruct Hc as (_ & Hlt & Hc). apply chained_lower in Hc.
    inversion Hp as [|o' l' Hpo Hpl [Eo El]].
    rewrite Forall_forall in *. intros b Hb. right. split.
    + rewrite (Hpl b Hb). exact Hpo.
    + specialize (Hc b Hb). lia.
Qed.

Lemma StronglySorted_app {A : Type} (R : A -> A -> Prop) (l1 l2 : list A) :
  StronglySorted R l1 -> StronglySorted R l2 ->
  (forall a b, In a l1 -> In b l2 -> R a b) ->
  StronglySorted R (l1 ++ l2).
Proof.
  induction l1 as [|x l1 IH]; simpl; intros H1 H2 H; auto.
  inversion H1; subst. constructor.
  - apply IH; auto.
  - apply Forall_app. split; auto. apply Forall_forall. auto.
Qed.

Lemma StronglySorted_nth {A : Type} (R : A -> A -> Prop) (l : list A) :
  StronglySorted R l ->
  forall i j a b, i < j ->
    nth_error l i = Some a -> nth_error l j = Some b -> R a b.
Proof.
  induction 1 as [|x l Hs IH Hall]; intros i j a b Hij Hi Hj.
  - destruct i; discriminate.
  - destruct j as [|j]; [lia|]. simpl in Hj. destruct i as [|i]; simpl in Hi.
    + inversion Hi; subst. rewrite Forall_forall in Hall.
      apply Hall. eapply nth_error_In; eauto.
    + apply (IH i j); auto. lia.
Qed.

Lemma flat_map_sorted (text : str) (ps : list Pattern) :
  StronglySorted (fun p q => rank p < rank q) ps ->
  StronglySorted pool_order (flat_map (fun p => occurrences p text) ps).
Proof.
  induction 1 as [|p ps Hs IH Hall]; simpl; [constructor|].
  apply StronglySorted_app; auto using occurrences_sorted.
  intros a b Ha Hb. left.
  apply in_flat_map in Hb. destruct Hb as (q & Hq & Hb).
  rewrite Forall_forall in Hall. specialize (Hall q Hq).
  destruct (occurrences_spec p text) as (_ & _ & Hp).
  destruct (occurrences_spec q text) as (_ & _ & Hq').
  rewrite Forall_forall in Hp, Hq'.
  rewrite (Hp a Ha), (Hq' b Hb). exact Hall.
Qed.

Lemma allMatches_sorted (text : str) :
  StronglySorted pool_order (allMatches text).
Proof.
  rewrite allMatches_flat. apply flat_map_sorted.
  unfold patterns. repeat constructor; simpl; lia.
Qed.

(** C4, as stated, fails: in [**a**] the bold-double occurrence and the
    first italic occurrence both start at offset 0. *)
Lemma tie_free_counterexample : ~ tie_free (lit "**a**").
Proof.
  intro H.
  refine (H 0 1 _ _ _ eq_refl eq_refl _); [lia | vm_compute; reflexivity].
Qed.

(** C4, amended.  Two pooled occurrences can share a start offset only when
    they come from two different asterisk families (bold-triple,
    bold-double, italic), the earlier one in the pool from the family
    scanned earlier; occurrences of one family, and link and inline-code
    occurrences against any other, have distinct start offsets. *)
Theorem pooled_ties_only_between_asterisk_families
    (text : str) (i j : nat) (a b : Occurrence) :
  i < j ->
  nth_error (allMatches text) i = Some a ->
  nth_error (allMatches text) j = Some b ->
  o_start a = o_start b ->
  asterisk_family (o_pattern a) = true /\
  asterisk_family (o_pattern b) = true /\
  rank (o_pattern a) < rank (o_pattern b).
Proof.
  intros Hij Ha Hb Heq.
  pose proof (StronglySorted_nth _ _ (allMatches_sorted text) _ _ _ _ Hij Ha Hb)
    as Hord.
  pose proof (allMatches_ok text) as Hok. rewrite Forall_forall in Hok.
  pose proof (occ_lead _ _ (Hok a (nth_error_In _ _ Ha))) as La.
  pose proof (occ_lead _ _ (Hok b (nth_error_In _ _ Hb))) as Lb.
  rewrite Heq, Lb in La. inversion La as [Hl]. clear La Lb.
  destruct Hord as [Hr | [_ Hlt]]; [|lia].
  destruct (o_pattern a), (o_pattern b); simpl in *;
    try discriminate; try lia; auto.
Qed.

Lemma pooled_ties_witness :
  asterisk_family BoldDouble = true /\ asterisk_family Italic = true /\
  rank BoldDouble < rank Italic.
Proof.
  refine (pooled_ties_only_between_asterisk_families (lit "**a**") 0 1
            (mkOcc (mkMatch 0 (lit "**a**") (lit "a") []) BoldDouble 0 5)
            (mkOcc (mkMatch 0 (lit "**") [] []) Italic 0 2) _ _ _ _).
  - lia.
  - vm_compute. reflexivity.
  - vm_compute. reflexivity.
  - reflexivity.
Defined.

(** ** Character classes and trimming *)

Ltac bool_to_prop :=
  repeat rewrite ?orb_true_iff, ?andb_true_iff, ?orb_false_iff,
    ?andb_false_iff, ?negb_true_iff, ?negb_false_iff,
    ?N.eqb_eq, ?N.eqb_neq, ?N.leb_le, ?N.leb_gt in *.

Ltac char_facts :=
  unfold is_space, is_digit, is_bullet, is_line_terminator, dot, is_char,
    not_char, HASH, GT, BACKTICK, STAR, DOT, SPACE, NL, CR, MINUS, BULLET in *;
  bool_to_prop; lia.

Lemma space_not_hash (c : char) : is_space c = true -> is_char HASH c = false.
Proof. intro H. char_facts. Qed.

Lemma digit_not_space (c : char) : is_digit c = true -> is_space c = false.
Proof. intro H. char_facts. Qed.

Lemma bullet_not_space (c : char) : is_bullet c = true -> is_space c = false.
Proof. intro H. char_facts. Qed.

Lemma trimStart_app_space (ws s : str) :
  forallb is_space ws = true -> trimStart (ws ++ s) = trimStart s.
Proof.
  induction ws as [|c ws IH]; simpl; auto.
  intro H. apply andb_prop in H. destruct H as [Hc Hws]. rewrite Hc. auto.
Qed.

Lemma trimStart_snoc (s : str) (c : char) :
  is_space c = false -> trimStart (s ++ [c]) = trimStart s ++ [c].
Proof.
  intro Hc. induction s as [|x s IH]; simpl.
  - now rewrite Hc.
  - destruct (is_space x); auto.
Qed.

Lemma trimEnd_cons (c : char) (s : str) :
  is_space c = false -> trimEnd (c :: s) = c :: trimEnd s.
Proof.
  intro Hc. unfold trimEnd. simpl.
  rewrite trimStart_snoc by assumption. rewrite rev_app_distr. reflexivity.
Qed.

(** Trimming ignores leading white space, and keeps a first character that
    is not white space. *)
Lemma trim_app_space (ws s : str) :
  forallb is_space ws = true -> trim (ws ++ s) = trim s.
Proof. intro H. unfold trim. now rewrite trimStart_app_space. Qed.

Lemma trim_cons (c : char) (s : str) :
  is_space c = false -> trim (c :: s) = c :: trimEnd s.
Proof.
  intro Hc. unfold trim. simpl. rewrite Hc. now apply trimEnd_cons.
Qed.

Lemma trimStart_length (s : str) : length (trimStart s) <= length s.
Proof.
  induction s as [|c s IH]; simpl; auto.
  destruct (is_space c); simpl; lia.
Qed.

Lemma trim_length (s : str) : length (trim s) <= length s.
Proof.
  unfold trim, trimEnd. rewrite length_rev.
  pose proof (trimStart_length (rev (trimStart s))) as H.
  rewrite length_rev in H. pose proof (trimStart_length s). lia.
Qed.

Lemma slice_length_le (s : str) (a b : nat) : length (slice s a b) <= length s.
Proof.
  unfold slice. rewrite length_firstn, length_skipn. lia.
Qed.

(** ** The matcher, node by node *)

Lemma below_le (k k' : nat) (hi : option nat) :
  k <= k' -> below k' hi = true -> below k hi = true.
Proof.
  destruct hi as [h|]; simpl; auto.
  rewrite !Nat.ltb_lt. lia.
Qed.

Section QuantifierComplete.

Variable cont : str -> nat -> option (nat * Caps).
Variable cls : char -> bool.
Variable lo : nat.
Variable hi : option nat.
Variable greedy : bool.

(** If some admissible number of characters leads to a match of the rest,
    the quantifier does not fail. *)
Lemma rep_complete (pre rest : str) : forall pos k,
  forallb cls pre = true ->
  lo <= k + length pre ->
  (pre = [] \/ below (k + length pre - 1) hi = true) ->
  cont rest (pos + length pre) <> None ->
  rep cont cls lo hi greedy (pre ++ rest) pos k <> None.
Proof.
  induction pre as [|x pre IH]; intros pos k Hall Hlo Hhi Hc.
  - simpl in Hlo, Hc. rewrite Nat.add_0_r in Hlo, Hc.
    assert (Hs : (if lo <=? k then cont rest pos else None) <> None).
    { destruct (lo <=? k) eqn:E; auto. apply Nat.leb_gt in E. lia. }
    simpl app. destruct rest as [|y rest']; simpl;
      destruct greedy;
      repeat match goal with
             | |- context [match ?x with Some _ => _ | None => _ end] =>
                 destruct x eqn:?
             end; congruence.
  - simpl in Hall. apply andb_prop in Hall. destruct Hall as [Hx Hall].
    simpl length in *.
    destruct Hhi as [Hhi | Hhi]; [discriminate|].
    assert (Hb : below k hi = true) by (eapply below_le; [|exact Hhi]; lia).
    assert (Hm : rep cont cls lo hi greedy (pre ++ rest) (S pos) (S k) <> None).
    { apply IH; auto.
      - lia.
      - destruct pre; [left; reflexivity | right].
        simpl length in *. replace (S k + S (length pre) - 1)
          with (k + S (S (length pre)) - 1) by lia. exact Hhi.
      - replace (S pos + length pre) with (pos + S (length pre)) by lia.
        exact Hc. }
    simpl. rewrite Hx, Hb. simpl.
    destruct greedy.
    + destruct (rep cont cls lo hi true (pre ++ rest) (S pos) (S k));
        congruence.
    + destruct (if lo <=? k then cont (x :: pre ++ rest) pos else None);
        congruence.
Qed.

End QuantifierComplete.

Lemma run_rep (cls : char -> bool) (lo : nat) (hi : option nat) (g : bool)
    (re : Regex) (s : str) (pos : nat) (caps : Caps) r :
  run (Rep cls lo hi g :: re) s pos caps = Some r ->
  exists pre rest,
    s = pre ++ rest /\ forallb cls pre = true /\ lo <= length pre /\
    (pre = [] \/ below (length pre - 1) hi = true) /\
    run re rest (pos + length pre) caps = Some r.
Proof.
  intro H. simpl in H. apply rep_sound in H.
  destruct H as (j & Hj & Hall & Hlo & Hhi & Hc).
  exists (firstn j s), (skipn j s).
  rewrite firstn_skipn, length_firstn, Nat.min_l by assumption.
  repeat split; auto.
  destruct Hhi as [-> | Hhi]; [left; reflexivity | right; exact Hhi].
Qed.

Lemma run_rep_complete (cls : char -> bool) (lo : nat) (hi : option nat)
    (g : bool) (re : Regex) (pre rest : str) (pos : nat) (caps : Caps) :
  forallb cls pre = true -> lo <= length pre ->
  (pre = [] \/ below (length pre - 1) hi = true) ->
  run re rest (pos + length pre) caps <> None ->
  run (Rep cls lo hi g :: re) (pre ++ rest) pos caps <> None.
Proof.
  intros. simpl. apply rep_complete; auto.
Qed.

Lemma run_eol (re : Regex) (s : str) (pos : nat) (caps : Caps) r :
  run (Eol :: re) s pos caps = Some r -> s = [] /\ run re [] pos caps = Some r.
Proof. simpl. destruct s; [auto | discriminate]. Qed.

(** Splitting a string at its first character outside a class. *)
Lemma split_unique (P : char -> bool) : forall l1 l2 x y r1 r2,
  l1 ++ x :: r1 = l2 ++ y :: r2 ->
  forallb P l1 = true -> P x = false ->
  forallb P l2 = true -> P y = false ->
  l1 = l2 /\ x = y /\ r1 = r2.
Proof.
  induction l1 as [|a l1 IH]; intros [|b l2] x y r1 r2 E H1 Hx H2 Hy;
    simpl in *.
  - inversion E; auto.
  - inversion E; subst. apply andb_prop in H2. destruct H2. congruence.
  - inversion E; subst. apply andb_prop in H1. destruct H1. congruence.
  - inversion E; subst. apply andb_prop in H1, H2.
    destruct H1, H2. destruct (IH l2 x y r1 r2) as (-> & -> & ->); auto.
Qed.

(** A pattern anchored with [^] can only match at offset 0. *)
Lemma search_bol_later (re : Regex) (text : str) : forall s pos,
  0 < pos -> search (Bol :: re) text s pos = None.
Proof.
  induction s as [|x s IH]; intros pos Hpos; simpl;
    destruct pos; try lia; simpl; auto; apply IH; lia.
Qed.

Lemma str_match_anchored (re : Regex) (text : str) :
  str_match (Bol :: re) text =
  match run re text 0 no_caps with
  | Some (e, caps) =>
      Some (mkMatch 0 (slice text 0 e) (group text 1 caps) (group text 2 caps))
  | None => None
  end.
Proof.
  unfold str_match. destruct text as [|x s]; simpl.
  - destruct (run re [] 0 no_caps) as [[e caps]|]; reflexivity.
  - destruct (run re (x :: s) 0 no_caps) as [[e caps]|]; [reflexivity|].
    apply search_bol_later. lia.
Qed.

Lemma run_open (g : nat) (re : Regex) (s : str) (pos : nat) (caps : Caps) :
  run (Open g :: re) s pos caps = run re s pos (open_group g pos caps).
Proof. reflexivity. Qed.

Lemma run_close (g : nat) (re : Regex) (s : str) (pos : nat) (caps : Caps) :
  run (Close g :: re) s pos caps = run re s pos (close_group g pos caps).
Proof. reflexivity. Qed.

Lemma run_eol_nil (pos : nat) (caps : Caps) :
  run [Eol] [] pos caps = Some (pos, caps).
Proof. reflexivity. Qed.

Lemma nonempty_head {A : Type} (l : list A) :
  1 <= length l -> exists x l', l = x :: l'.
Proof. destruct l; simpl; [lia | eauto]. Qed.

Lemma forallb_repeat (P : char -> bool) (c : char) (n : nat) :
  P c = true -> forallb P (repeat c n) = true.
Proof. intro H. induction n; simpl; auto. now rewrite H. Qed.

(** One step of reading a successful run: peel the first node of the
    pattern off the hypothesis. *)
Ltac peel H :=
  first
    [ rewrite run_open in H
    | rewrite run_close in H
    | let pre := fresh "pre" in
      let rest := fresh "rest" in
      let Hs := fresh "Hsplit" in
      let Hall := fresh "Hall" in
      let Hlo := fresh "Hlo" in
      let Hhi := fresh "Hhi" in
      apply run_rep in H;
      destruct H as (pre & rest & Hs & Hall & Hlo & Hhi & H)
    | let s' := fresh "s" in
      let Hs := fresh "Hlit" in
      apply run_lit in H; destruct H as (s' & Hs & H)
    | let Hs := fresh "Hend" in
      apply run_eol in H; destruct H as (Hs & H) ].

(** ** The line patterns *)

(** A header match begins with [#]. *)
Lemma header_match_hash (line : str) (m : RegExpMatch) :
  str_match headerRe line = Some m -> exists rest, line = HASH :: rest.
Proof.
  unfold headerRe. rewrite str_match_anchored.
  destruct (run _ line 0 no_caps) as [[e caps]|] eqn:H; [|discriminate].
  intros _. peel H. peel H.
  apply nonempty_head in Hlo. destruct Hlo as (x & pre' & ->).
  cbn [forallb] in Hall. apply andb_prop in Hall. destruct Hall as [Hx _].
  apply N.eqb_eq in Hx. subst. simpl. eauto.
Qed.

Lemma header_no_match (c : char) (rest : str) :
  c <> HASH -> str_match headerRe (c :: rest) = None.
Proof.
  intro Hc. destruct (str_match headerRe (c :: rest)) eqn:E; auto.
  apply header_match_hash in E. destruct E as (rest' & E). congruence.
Qed.

Lemma nth_error_hashes (n k : nat) (rest : str) :
  k < n -> nth_error (repeat HASH n ++ rest) k = Some HASH.
Proof.
  intro H. rewrite nth_error_app1 by (rewrite repeat_length; exact H).
  apply nth_error_repeat. exact H.
Qed.

Lemma nth_error_middle (pre : str) (x : char) (rest : str) :
  nth_error (pre ++ x :: rest) (length pre) = Some x.
Proof.
  rewrite nth_error_app2 by lia. now rewrite Nat.sub_diag.
Qed.

(** Seven or more [#] are not a header prefix. *)
Lemma header_too_many (n : nat) (rest : str) :
  7 <= n -> str_match headerRe (repeat HASH n ++ rest) = None.
Proof.
  intro Hn. unfold headerRe. rewrite str_match_anchored.
  destruct (run _ _ 0 no_caps) as [[e caps]|] eqn:H; [exfalso|reflexivity].
  peel H. peel H. peel H. peel H.
  apply nonempty_head in Hlo0. destruct Hlo0 as (y & pre' & ->).
  cbn [forallb] in Hall0. apply andb_prop in Hall0. destruct Hall0 as [Hy _].
  assert (Hlen : length pre < n).
  { destruct Hhi as [-> | Hhi]; simpl in *; [lia|].
    apply Nat.ltb_lt in Hhi. lia. }
  pose proof (nth_error_hashes n (length pre) rest Hlen) as Hk.
  rewrite Hsplit, Hsplit0 in Hk. simpl in Hk.
  rewrite nth_error_middle in Hk. inversion Hk; subst. discriminate.
Qed.

Lemma slice_eq (pre mid post : str) (a b : nat) :
  a = length pre -> b = length pre + length mid ->
  slice (pre ++ mid ++ post) a b = mid.
Proof. intros -> ->. apply slice_middle. Qed.

(** The tail [(.+)$] of the three line patterns matches any non-empty
    content without line terminators. *)
Lemma run_content_complete (g : nat) (content : str) (pos : nat) (caps : Caps) :
  content <> [] -> forallb dot content = true ->
  run [plus dot; Close g; Eol] content pos caps <> None.
Proof.
  intros Hne Hall. rewrite <- (app_nil_r content).
  apply run_rep_complete; auto.
  - destruct content; [congruence | simpl; lia].
  - rewrite run_close, run_eol_nil. discriminate.
Qed.

(** The tail [\s+(.+)$]: required white space, then content. *)
Lemma run_space_content_complete (g : nat) (ws content : str) (pos : nat)
    (caps : Caps) :
  ws <> [] -> forallb is_space ws = true ->
  content <> [] -> forallb dot content = true ->
  run [plus is_space; Open g; plus dot; Close g; Eol] (ws ++ content) pos caps
  <> None.
Proof.
  intros Hws Hsp Hne Hall. apply run_rep_complete; auto.
  - destruct ws; [congruence | simpl; lia].
  - rewrite run_open. apply run_content_complete; auto.
Qed.

(** A line of [n] hashes (1 to 6), white space and content matches the
    header pattern, and the first group is the [n] hashes. *)
Lemma header_match_level (n : nat) (ws content : str) :
  1 <= n <= 6 ->
  ws <> [] -> forallb is_space ws = true ->
  content <> [] -> forallb dot content = true ->
  exists m,
    str_match headerRe (repeat HASH n ++ ws ++ content) = Some m /\
    length (m1 m) = n.
Proof.
  intros Hn Hws Hsp Hne Hdot. unfold headerRe. rewrite str_match_anchored.
  set (line := repeat HASH n ++ ws ++ content).
  destruct (run _ line 0 no_caps) as [[e caps]|] eqn:H.
  - eexists. split; [reflexivity|]. simpl m1.
    peel H. peel H. peel H. peel H. peel H. peel H. peel H. peel H.
    simpl in H. inversion H; subst e caps; clear H.
    apply nonempty_head in Hlo0. destruct Hlo0 as (y & pre0' & ->).
    cbn [forallb] in Hall0. apply andb_prop in Hall0. destruct Hall0 as [Hy _].
    destruct ws as [|w ws']; [congruence|].
    cbn [forallb] in Hsp. apply andb_prop in Hsp. destruct Hsp as [Hw _].
    assert (Epre : repeat HASH n = pre).
    { subst line. rewrite Hsplit0 in Hsplit. simpl in Hsplit.
      apply (split_unique (is_char HASH) _ _ _ _ _ _ Hsplit
               (forallb_repeat _ _ _ eq_refl) (space_not_hash _ Hw)
               Hall (space_not_hash _ Hy)). }
    unfold group. simpl. rewrite slice_length.
    + rewrite <- Epre, repeat_length. lia.
    + rewrite Hsplit, length_app. lia.
  - exfalso. revert H. subst line. rewrite run_open.
    apply run_rep_complete.
    + apply forallb_repeat. reflexivity.
    + rewrite repeat_length. lia.
    + right. rewrite repeat_length. simpl. apply Nat.ltb_lt. lia.
    + rewrite run_close. apply run_space_content_complete; auto.
Qed.

(** After optional white space the numbered-list pattern needs a digit. *)
Lemma numbered_no_match (ws : str) (c : char) (rest : str) :
  forallb is_space ws = true -> is_space c = false -> is_digit c = false ->
  str_match numberedRe (ws ++ c :: rest) = None.
Proof.
  intros Hsp Hc Hd. unfold numberedRe. rewrite str_match_anchored.
  destruct (run _ _ 0 no_caps) as [[e caps]|] eqn:H; [exfalso|reflexivity].
  peel H. peel H. peel H.
  apply nonempty_head in Hlo0. destruct Hlo0 as (y & pre' & ->).
  cbn [forallb] in Hall0. apply andb_prop in Hall0. destruct Hall0 as [Hy _].
  rewrite Hsplit0 in Hsplit. simpl in Hsplit.
  apply (split_unique is_space) in Hsplit; auto using digit_not_space.
  destruct Hsplit as (_ & <- & _). congruence.
Qed.

(** After optional white space the bullet pattern needs a bullet marker. *)
Lemma bullet_no_match (ws : str) (c : char) (rest : str) :
  forallb is_space ws = true -> is_space c = false -> is_bullet c = false ->
  str_match bulletRe (ws ++ c :: rest) = None.
Proof.
  intros Hsp Hc Hd. unfold bulletRe. rewrite str_match_anchored.
  destruct (run _ _ 0 no_caps) as [[e caps]|] eqn:H; [exfalso|reflexivity].
  peel H. peel H.
  apply nonempty_head in Hlo0. destruct Hlo0 as (y & pre' & ->).
  cbn [forallb] in Hall0. apply andb_prop in Hall0. destruct Hall0 as [Hy _].
  rewrite Hsplit0 in Hsplit. simpl in Hsplit.
  apply (split_unique is_space) in Hsplit; auto using bullet_not_space.
  destruct Hsplit as (_ & <- & _). congruence.
Qed.

(** An indented bullet line matches the bullet pattern. *)
Lemma bullet_match (ws : str) (b : char) (ws1 content : str) :
  forallb is_space ws = true -> is_bullet b = true ->
  ws1 <> [] -> forallb is_space ws1 = true ->
  content <> [] -> forallb dot content = true ->
  exists m, str_match bulletRe (ws ++ b :: ws1 ++ content) = Some m.
Proof.
  intros Hsp Hb Hws1 Hsp1 Hne Hall. unfold bulletRe.
  rewrite str_match_anchored.
  destruct (run _ _ 0 no_caps) as [[e caps]|] eqn:H; [eauto|].
  exfalso. revert H. apply run_rep_complete; auto; [lia|].
  change (b :: ws1 ++ content) with ([b] ++ ws1 ++ content).
  apply run_rep_complete; simpl; auto.
  - now rewrite Hb.
  - apply run_space_content_complete; auto.
Qed.

Lemma run_lit_eq (c : char) (re : Regex) (s : str) (pos : nat) (caps : Caps) :
  run (Lit c :: re) (c :: s) pos caps = run re s (S pos) caps.
Proof. simpl. now rewrite N.eqb_refl. Qed.

(** An indented numbered line matches the numbered-list pattern; the groups
    are the digits and the content. *)
Lemma numbered_match (ws digits content : str) :
  forallb is_space ws = true ->
  digits <> [] -> forallb is_digit digits = true ->
  content <> [] -> forallb dot content = true ->
  str_match numberedRe (ws ++ digits ++ DOT :: SPACE :: content)
  = Some (mkMatch 0 (ws ++ digits ++ DOT :: SPACE :: content) digits content).
Proof.
  intros Hsp Hdne Hdig Hne Hdot. unfold numberedRe.
  rewrite str_match_anchored.
  set (line := ws ++ digits ++ DOT :: SPACE :: content).
  destruct (run _ line 0 no_caps) as [[e caps]|] eqn:H.
  - peel H. peel H. peel H. peel H. peel H. peel H. peel H. peel H. peel H.
    peel H. simpl in H. inversion H; subst e caps; clear H.
    apply nonempty_head in Hlo0. destruct Hlo0 as (y & pre0' & ->).
    cbn [forallb] in Hall0. apply andb_prop in Hall0.
    destruct Hall0 as [Hy Hpre0].
    destruct digits as [|d0 digits']; [congruence|].
    cbn [forallb] in Hdig. apply andb_prop in Hdig. destruct Hdig as [Hd0 Hdig].
    subst line. rewrite Hsplit0, Hlit in Hsplit. simpl in Hsplit.
    destruct (split_unique is_space _ _ _ _ _ _ Hsplit Hsp
                (digit_not_space _ Hd0) Hall (digit_not_space _ Hy))
      as (<- & <- & Htail).
    destruct (split_unique is_digit _ _ _ _ _ _ Htail Hdig eq_refl
                Hpre0 eq_refl) as (<- & _ & Hs).
    subst rest1. rewrite app_nil_r in Hsplit1. subst s0 s.
    inversion Hs as [Hc]. subst pre1. clear Hs Htail Hsplit.
    unfold group. simpl closed. simpl assoc. cbv beta iota.
    assert (E : ws ++ (d0 :: digits') ++ DOT :: SPACE :: content
                = (ws ++ (d0 :: digits') ++ [DOT; SPACE]) ++ content ++ [])
      by (rewrite app_nil_r, <- !app_assoc; reflexivity).
    f_equal. f_equal.
    + apply slice_whole. rewrite !length_app. simpl. lia.
    + apply (slice_eq ws (d0 :: digits') (DOT :: SPACE :: content)); simpl; lia.
    + rewrite E. apply slice_eq; rewrite !length_app; simpl; lia.
  - exfalso. revert H. subst line. apply run_rep_complete; auto; [lia|].
    rewrite run_open. apply run_rep_complete; auto.
    + destruct digits; [congruence | simpl; lia].
    + rewrite run_close, !run_lit_eq, run_open.
      apply run_content_complete; auto.
Qed.

(** ** The scanner and the resolver it calls *)

Lemma group_length (text : str) (g : nat) (caps : Caps) :
  length (group text g caps) <= length text.
Proof.
  unfold group. destruct (assoc g (closed caps)) as [[a b]|]; simpl.
  - apply slice_length_le.
  - lia.
Qed.

Lemma str_match_groups (re : Regex) (line : str) (m : RegExpMatch) :
  str_match re line = Some m ->
  length (m1 m) <= length line /\ length (m2 m) <= length line.
Proof.
  unfold str_match. intro H. apply search_sound in H.
  destruct H as (d & e & caps & _ & _ & -> & _). simpl.
  split; apply group_length.
Qed.

(** The scanner passes the resolver nothing longer than the line. *)
Lemma scanLine_ext (f g : str -> option (list InlineNode)) (st : Scan)
    (i : nat) (line : str) :
  (forall t, length t <= length line -> f t = g t) ->
  scanLine f st i line = scanLine g st i line.
Proof.
  intro H. unfold scanLine, push_block.
  destruct (startsWith (trim line) FENCE); [reflexivity|].
  destruct (inCodeBlock st); [reflexivity|].
  destruct (is_empty (trim line)); [reflexivity|].
  destruct (str_match headerRe line) as [m|] eqn:Eh.
  { apply str_match_groups in Eh. now rewrite H. }
  destruct (startsWith (trim line) QUOTE).
  { rewrite H; auto. rewrite length_skipn. pose proof (trim_length line). lia. }
  destruct (str_match numberedRe line) as [m|] eqn:En.
  { apply str_match_groups in En. now rewrite H. }
  destruct (str_match bulletRe line) as [m|] eqn:Eb.
  { apply str_match_groups in Eb. now rewrite H. }
  now rewrite H.
Qed.

Lemma scanLines_ext (f g : str -> option (list InlineNode)) (lines : list str) :
  forall st i,
    Forall (fun line => forall t, length t <= length line -> f t = g t) lines ->
    scanLines f st i lines = scanLines g st i lines.
Proof.
  induction lines as [|line lines IH]; intros st i H; simpl; auto.
  inversion H; subst. rewrite (scanLine_ext f g) by assumption.
  destruct (scanLine g st i line); auto.
Qed.

Lemma scanLine_resolve_total (st : Scan) (i : nat) (line : str) :
  exists st', scanLine resolve st i line = Some st'.
Proof.
  unfold scanLine, push_block, resolve.
  repeat match goal with
         | |- context [if ?b then _ else _] => destruct b
         | |- context [match ?x with Some _ => _ | None => _ end] => destruct x
         end; eauto.
Qed.

Lemma scanLines_resolve_total (lines : list str) : forall st i,
  exists st', scanLines resolve st i lines = Some st'.
Proof.
  induction lines as [|line lines IH]; intros st i; simpl; eauto.
  destruct (scanLine_resolve_total st i line) as [st' ->]. apply IH.
Qed.

Lemma split_aux_length (s : str) :
  length (fst (split_aux s)) <= length s /\
  Forall (fun l => length l <= length s) (snd (split_aux s)).
Proof.
  induction s as [|c s IH]; simpl; auto.
  destruct (split_aux s) as [cur rest]. simpl in IH. destruct IH as [Hc Hr].
  assert (Hr' : Forall (fun l => length l <= S (length s)) rest)
    by (eapply Forall_impl; [|exact Hr]; simpl; intros; lia).
  destruct (N.eqb c NL); simpl; split; auto; lia.
Qed.

Lemma split_lines_length (s : str) :
  Forall (fun l => length l <= length s) (split_lines s).
Proof.
  unfold split_lines. pose proof (split_aux_length s) as H.
  destruct (split_aux s) as [cur rest]. simpl in H. destruct H. auto.
Qed.

Lemma scanLines_enough_fuel (s : str) (fuel : nat) (st : Scan) (i : nat) :
  length s < fuel ->
  scanLines (formatInlineText_fuel fuel) st i (split_lines s)
  = scanLines resolve st i (split_lines s).
Proof.
  intro Hlt. apply scanLines_ext.
  eapply Forall_impl; [|apply split_lines_length].
  simpl. intros line Hline t Ht. apply formatInlineText_enough_fuel. lia.
Qed.

Lemma formatText_enough_fuel (text : JsValue) (fuel : nat) :
  js_length text < fuel -> formatText_fuel fuel text = Some (formatText text).
Proof.
  intro Hlt. unfold formatText.
  destruct text as [| |s]; try reflexivity.
  simpl in *. destruct s as [|c s]; [reflexivity|]. simpl falsy. cbv iota.
  rewrite (scanLines_enough_fuel (c :: s) fuel) by exact Hlt.
  rewrite (scanLines_enough_fuel (c :: s) (S (length (c :: s)))) by lia.
  destruct (scanLines_resolve_total (split_lines (c :: s)) scan0 0) as [st' ->].
  reflexivity.
Qed.

Lemma formatText_eq (s : str) (st : Scan) :
  s <> [] ->
  scanLines resolve scan0 0 (split_lines s) = Some st ->
  formatText (JsString s) = formattedLines st.
Proof.
  intros Hne H. unfold formatText, formatText_fuel.
  destruct s as [|c s]; [congruence|]. simpl falsy. cbv iota.
  rewrite scanLines_enough_fuel by (simpl; lia). now rewrite H.
Qed.

Lemma scanLines_app (inline : str -> option (list InlineNode))
    (l1 l2 : list str) : forall st i,
  scanLines inline st i (l1 ++ l2) =
  match scanLines inline st i l1 with
  | Some st' => scanLines inline st' (i + length l1) l2
  | None => None
  end.
Proof.
  induction l1 as [|line l1 IH]; intros st i; simpl.
  - now rewrite Nat.add_0_r.
  - destruct (scanLine inline st i line); auto.
    rewrite IH. now replace (S i + length l1) with (i + S (length l1)) by lia.
Qed.

(** ** Termination *)

(** C9. Termination.  An inline pattern matches only a non-empty substring,
    so each iteration of an [exec] loop moves [lastIndex] strictly forward;
    with more iterations allowed than the text has characters, the loops of
    [formatInlineText] finish with the parts of the text, and [formatText],
    one pass over the lines with one resolver call per line at most,
    returns its blocks. *)
Theorem formatter_terminates (text : str) (fuel : nat) :
  length text < fuel ->
  (forall p lastIndex m lastIndex',
      exec (regex p) text lastIndex = Some (m, lastIndex') ->
      m0 m <> [] /\ lastIndex < lastIndex' /\ lastIndex' <= length text) /\
  (forall p acc, exists r, collect fuel p text 0 acc = Some r) /\
  formatInlineText_fuel fuel text = Some (formatInlineText text) /\
  formatText_fuel fuel (JsString text) = Some (formatText (JsString text)).
Proof.
  intro Hlt. repeat split.
  - pose proof (exec_advances _ _ _ _ _ H) as (Ha & Hb & Hc).
    apply exec_sound in H. destruct H as (caps & _ & _ & _ & _ & Hm & _).
    rewrite Hm. simpl. apply slice_nonempty; assumption.
  - apply exec_advances in H. lia.
  - apply exec_advances in H. lia.
  - intros p acc. apply collect_terminates. lia.
  - apply formatInlineText_enough_fuel. exact Hlt.
  - apply formatText_enough_fuel. exact Hlt.
Qed.

Lemma formatter_terminates_witness :
  (m0 (mkMatch 0 (lit "*a*") (lit "a") []) <> [] /\ 0 < 3 /\ 3 <= 7) /\
  formatInlineText_fuel 8 (lit "*a* *b*")
  = Some (formatInlineText (lit "*a* *b*")) /\
  formatText_fuel 8 (JsString (lit "*a* *b*"))
  = Some (formatText (JsString (lit "*a* *b*"))).
Proof.
  destruct (formatter_terminates (lit "*a* *b*") 8) as (H0 & _ & H1 & H2).
  - simpl. lia.
  - split; [|split; assumption].
    apply (H0 Italic 0 _ 3). vm_compute. reflexivity.
Defined.

(** ** Empty input *)

(** C8. [formatText] returns the empty list of blocks for the empty string,
    for [null] and for [undefined]; no loop is entered, so the call returns
    whatever the fuel. *)
Theorem formatText_empty_input :
  formatText (JsString []) = [] /\
  formatText JsNull = [] /\
  formatText JsUndefined = [] /\
  forall fuel,
    formatText_fuel fuel (JsString []) = Some [] /\
    formatText_fuel fuel JsNull = Some [] /\
    formatText_fuel fuel JsUndefined = Some [].
Proof. repeat split; reflexivity. Qed.

(** ** Fenced code blocks *)

Lemma scanLine_in_fence (inline : str -> option (list InlineNode))
    (st : Scan) (i : nat) (line : str) :
  inCodeBlock st = true -> is_fence line = false ->
  scanLine inline st i line
  = Some (mkScan (formattedLines st) true (codeBlockContent st ++ [line])).
Proof.
  unfold is_fence, scanLine. intros Hin Hf. now rewrite Hf, Hin.
Qed.

Lemma scanLines_in_fence (inline : str -> option (list InlineNode))
    (body : list str) : forall st i,
  inCodeBlock st = true ->
  Forall (fun line => is_fence line = false) body ->
  scanLines inline st i body
  = Some (mkScan (formattedLines st) true (codeBlockContent st ++ body)).
Proof.
  induction body as [|line body IH]; intros st i Hin Hb; simpl.
  - rewrite app_nil_r. destruct st; simpl in *. now subst.
  - inversion Hb; subst. rewrite scanLine_in_fence by assumption.
    rewrite IH by auto. simpl. now rewrite <- app_assoc.
Qed.

(** C5. Fence isolation.  Inside a fence every line that is not itself a
    fence line is appended verbatim to [codeBlockContent]; nothing is
    pushed to [formattedLines] and the inline resolver is not consulted
    (the result is the same for every resolver, even one that never
    returns).  The closing fence line emits one code block whose content is
    the accumulated lines joined by newlines. *)
Theorem fence_isolation (inline : str -> option (list InlineNode))
    (st : Scan) (i : nat) (body : list str) (closing : str) :
  inCodeBlock st = true ->
  Forall (fun line => is_fence line = false) body ->
  is_fence closing = true ->
  scanLines inline st i body
  = Some (mkScan (formattedLines st) true (codeBlockContent st ++ body)) /\
  scanLines inline st i (body ++ [closing])
  = Some (mkScan
            (formattedLines st
               ++ [CodeBlock (i + length body)
                             (join_lines (codeBlockContent st ++ body))])
            false []).
Proof.
  intros Hin Hb Hc. split.
  - now apply scanLines_in_fence.
  - rewrite scanLines_app, scanLines_in_fence by assumption.
    simpl. unfold scanLine. unfold is_fence in Hc. now rewrite Hc.
Qed.

Lemma fence_isolation_witness :
  scanLines (fun _ => None) (mkScan [] true []) 1
            [lit "**not bold**"; lit "# h"]
  = Some (mkScan [] true [lit "**not bold**"; lit "# h"]) /\
  scanLines (fun _ => None) (mkScan [] true []) 1
            [lit "**not bold**"; lit "# h"; lit "```"]
  = Some (mkScan [CodeBlock 3 (lit "**not bold**" ++ NL :: lit "# h")]
                 false []).
Proof.
  apply (fence_isolation (fun _ => None) (mkScan [] true []) 1
           [lit "**not bold**"; lit "# h"] (lit "```")).
  - reflexivity.
  - repeat constructor.
  - reflexivity.
Defined.

(** Markup between two fence lines reaches the output as the content of the
    code block. *)
Example fence_isolation_example :
  formatText (JsString (lit "```" ++ NL :: lit "**not bold**" ++ NL :: lit "```"))
  = [CodeBlock 2 (lit "**not bold**")].
Proof. vm_compute. reflexivity. Qed.

Lemma scanLine_open_fence (inline : str -> option (list InlineNode))
    (st : Scan) (i : nat) (line : str) :
  inCodeBlock st = false -> is_fence line = true ->
  scanLine inline st i line
  = Some (mkScan (formattedLines st) true (codeBlockContent st)).
Proof.
  unfold is_fence, scanLine. intros Hin Hf. now rewrite Hf, Hin.
Qed.

(** C6. Unterminated fence.  When the lines end inside a fence opened at
    [opening], [formatText] returns exactly the blocks of the lines before
    the opening fence: no block is emitted for the fence line or for the
    lines after it. *)
Theorem formatText_unterminated_fence (text : str) (pre : list str)
    (opening : str) (body : list str) (st : Scan) :
  split_lines text = pre ++ opening :: body ->
  scanLines resolve scan0 0 pre = Some st ->
  inCodeBlock st = false ->
  is_fence opening = true ->
  Forall (fun line => is_fence line = false) body ->
  formatText (JsString text) = formattedLines st.
Proof.
  intros Hsplit Hpre Hin Hop Hbody.
  assert (Hne : text <> []).
  { intros ->. destruct pre as [|l [|l' pre]]; simpl in Hsplit;
      inversion Hsplit; subst; discriminate. }
  apply formatText_eq with
    (st := mkScan (formattedLines st) true (codeBlockContent st ++ body)); auto.
  rewrite Hsplit, scanLines_app, Hpre. simpl.
  rewrite scanLine_open_fence by assumption.
  now rewrite scanLines_in_fence.
Qed.

Lemma formatText_unterminated_fence_witness :
  formatText (JsString (lit "a" ++ NL :: lit "```js" ++ NL :: lit "**x**"))
  = [Paragraph 0 [Span (KText 0) (lit "a")]].
Proof.
  apply (formatText_unterminated_fence
           (lit "a" ++ NL :: lit "```js" ++ NL :: lit "**x**")
           [lit "a"] (lit "```js") [lit "**x**"]
           (mkScan [Paragraph 0 [Span (KText 0) (lit "a")]] false [])).
  - reflexivity.
  - vm_compute. reflexivity.
  - reflexivity.
  - reflexivity.
  - repeat constructor.
Defined.

(** ** Classification of a line outside a fence *)

Lemma eqb_false (c d : char) : c <> d -> N.eqb c d = false.
Proof. apply N.eqb_neq. Qed.

(** A line whose first character after leading white space is neither a
    backtick nor [>] is not a fence line, not blank and not a blockquote:
    it goes to the header, numbered-list and bullet patterns, in this
    order, and to the paragraph fallback. *)
Lemma scanLine_classify (inline : str -> option (list InlineNode))
    (st : Scan) (i : nat) (ws : str) (c : char) (rest : str) :
  inCodeBlock st = false ->
  forallb is_space ws = true -> is_space c = false ->
  c <> BACKTICK -> c <> GT ->
  scanLine inline st i (ws ++ c :: rest) =
  match str_match headerRe (ws ++ c :: rest) with
  | Some m => push_block inline st (Header i (length (m1 m))) (m2 m)
  | None =>
      match str_match numberedRe (ws ++ c :: rest) with
      | Some m => push_block inline st (NumberedItem i (m1 m)) (m2 m)
      | None =>
          match str_match bulletRe (ws ++ c :: rest) with
          | Some m => push_block inline st (BulletItem i) (m1 m)
          | None => push_block inline st (Paragraph i) (ws ++ c :: rest)
          end
      end
  end.
Proof.
  intros Hin Hws Hc Hb Hg. unfold scanLine.
  rewrite trim_app_space, trim_cons, Hin by assumption.
  unfold FENCE, QUOTE. cbn [startsWith is_empty].
  rewrite (eqb_false _ _ Hb), (eqb_false _ _ Hg). reflexivity.
Qed.

Lemma header_no_match_indented (ws : str) (c : char) (rest : str) :
  forallb is_space ws = true -> c <> HASH ->
  str_match headerRe (ws ++ c :: rest) = None.
Proof.
  intros Hws Hc. destruct ws as [|w ws]; simpl.
  - now apply header_no_match.
  - apply header_no_match. cbn [forallb] in Hws. apply andb_prop in Hws.
    destruct Hws as [Hw _]. intros ->. discriminate.
Qed.

Lemma header_no_match_space (ws s : str) :
  forallb is_space ws = true -> ws <> [] ->
  str_match headerRe (ws ++ s) = None.
Proof.
  intros Hws Hne. destruct ws as [|w ws]; [congruence|]. simpl.
  apply header_no_match. cbn [forallb] in Hws. apply andb_prop in Hws.
  destruct Hws as [Hw _]. intros ->. discriminate.
Qed.

(** ** List lines *)

(** The lines the numbered-list pattern matches: optional white space,
    digits (the first group), a dot, a space and content without line
    terminators (the second group). *)
Lemma numbered_match_shape (line : str) (m : RegExpMatch) :
  str_match numberedRe line = Some m ->
  exists pre,
    line = pre ++ m1 m ++ DOT :: SPACE :: m2 m /\
    forallb is_space pre = true /\
    m1 m <> [] /\ forallb is_digit (m1 m) = true /\
    m2 m <> [] /\ forallb dot (m2 m) = true.
Proof.
  unfold numberedRe. rewrite str_match_anchored.
  destruct (run _ line 0 no_caps) as [[e caps]|] eqn:H; [|discriminate].
  intro Hm. inversion Hm; subst m; clear Hm. simpl m1. simpl m2.
  peel H. peel H. peel H. peel H. peel H. peel H. peel H. peel H. peel H.
  peel H. simpl in H. inversion H; subst e caps; clear H.
  subst rest1. rewrite app_nil_r in Hsplit1. subst s0 s rest0 rest.
  unfold group. simpl closed. simpl assoc. cbv beta iota.
  assert (E : pre ++ pre0 ++ DOT :: SPACE :: pre1
              = (pre ++ pre0 ++ [DOT; SPACE]) ++ pre1 ++ [])
    by (rewrite app_nil_r, <- !app_assoc; reflexivity).
  assert (G1 : slice line (length pre) (length pre + length pre0) = pre0)
    by (rewrite Hsplit; apply slice_eq; simpl; lia).
  assert (G2 : slice line (S (S (length pre + length pre0)))
                     (S (S (length pre + length pre0 + length pre1))) = pre1).
  { rewrite Hsplit, E. apply slice_eq; rewrite !length_app; simpl; lia. }
  rewrite G1, G2. exists pre. repeat split; auto.
  - destruct pre0; [simpl in *; lia | discriminate].
  - destruct pre1; [simpl in *; lia | discriminate].
Qed.

(** The lines the bullet pattern matches: optional white space, one bullet
    marker, white space and content without line terminators. *)
Lemma bullet_match_shape (line : str) (m : RegExpMatch) :
  str_match bulletRe line = Some m ->
  exists pre b ws1 content,
    line = pre ++ b :: ws1 ++ content /\
    forallb is_space pre = true /\ is_bullet b = true /\
    ws1 <> [] /\ forallb is_space ws1 = true /\
    content <> [] /\ forallb dot content = true.
Proof.
  unfold bulletRe. rewrite str_match_anchored.
  destruct (run _ line 0 no_caps) as [[e caps]|] eqn:H; [|discriminate].
  intros _.
  peel H. peel H. peel H. peel H. peel H. peel H. peel H.
  destruct pre0 as [|b [|b' pre0]].
  - simpl in Hlo0. lia.
  - cbn [forallb] in Hall0. apply andb_prop in Hall0. destruct Hall0 as [Hb _].
    subst rest2. rewrite app_nil_r in Hsplit2. clear H. subst.
    exists pre, b, pre1, pre2. repeat split; auto.
    + destruct pre1; [simpl in *; lia | discriminate].
    + destruct pre2; [simpl in *; lia | discriminate].
  - destruct Hhi0 as [Hhi0 | Hhi0]; [discriminate|].
    simpl in Hhi0. discriminate.
Qed.

Lemma startsWith_quote (t : str) :
  startsWith t QUOTE = true -> exists t', t = GT :: SPACE :: t'.
Proof.
  unfold QUOTE. destruct t as [|a [|b t]]; simpl; try discriminate.
  - now rewrite andb_false_r.
  - intro H. apply andb_prop in H. destruct H as [Ha H].
    apply andb_prop in H. destruct H as [Hb _].
    apply N.eqb_eq in Ha, Hb. subst. eauto.
Qed.

Lemma trimStart_shape (s : str) :
  exists sp, forallb is_space sp = true /\ s = sp ++ trimStart s.
Proof.
  induction s as [|c s (sp & Hsp & Hs)]; simpl.
  - exists []. auto.
  - destruct (is_space c) eqn:E.
    + exists (c :: sp). simpl. rewrite E, Hsp. split; [reflexivity|].
      f_equal. exact Hs.
    + exists []. auto.
Qed.

Lemma trimStart_head (s : str) (a : char) (t : str) :
  trimStart s = a :: t -> is_space a = false.
Proof.
  induction s as [|c s IH]; simpl; [discriminate|].
  destruct (is_space c) eqn:E; auto. intro H. inversion H; subst. exact E.
Qed.

(** A trimmed line that begins with [c] comes from a line of white space,
    then [c]. *)
Lemma trim_head (s : str) (c : char) (t : str) :
  trim s = c :: t ->
  exists sp r, s = sp ++ c :: r /\ forallb is_space sp = true /\
               is_space c = false.
Proof.
  unfold trim. intro H.
  destruct (trimStart_shape s) as (sp & Hsp & Hs).
  destruct (trimStart s) as [|a x] eqn:E; [discriminate|].
  pose proof (trimStart_head _ _ _ E) as Ha.
  rewrite trimEnd_cons in H by assumption. inversion H; subst a.
  exists sp, x. auto.
Qed.

(** ** Matching is independent of the offset *)

Lemma assoc_map {A B : Type} (f : A -> B) (g : nat) (l : list (nat * A)) :
  assoc g (map (fun kv => (fst kv, f (snd kv))) l) = option_map f (assoc g l).
Proof.
  induction l as [|[k v] l IH]; simpl; auto.
  destruct (Nat.eqb k g); auto.
Qed.

Lemma close_group_shift (g pos d : nat) (c : Caps) :
  close_group g (pos + d) (shift_caps d c) = shift_caps d (close_group g pos c).
Proof.
  unfold close_group, shift_caps. simpl opened.
  rewrite (assoc_map (fun p => p + d)).
  destruct (assoc g (opened c)); reflexivity.
Qed.

Section QuantifierShift.

Variable cont1 cont2 : str -> nat -> option (nat * Caps).
Variable cls : char -> bool.
Variable lo : nat.
Variable hi : option nat.
Variable greedy : bool.
Variable d : nat.

Hypothesis cont_shift : forall s p,
  cont2 s (p + d) = option_map (shift_result d) (cont1 s p).

Lemma rep_shift (s : str) : forall pos k,
  rep cont2 cls lo hi greedy s (pos + d) k
  = option_map (shift_result d) (rep cont1 cls lo hi greedy s pos k).
Proof.
  induction s as [|x s IH]; intros pos k; simpl.
  - rewrite cont_shift.
    destruct greedy, (lo <=? k); simpl; auto; destruct (cont1 [] pos); auto.
  - rewrite cont_shift. change (S (pos + d)) with (S pos + d). rewrite IH.
    destruct (rep cont1 cls lo hi greedy s (S pos) (S k)),
      (cont1 (x :: s) pos), greedy, (cls x && below k hi), (lo <=? k);
      reflexivity.
Qed.

End QuantifierShift.

(** A pattern without [^] matches the same way wherever the suffix starts:
    end offset and captures move with the start offset. *)
Lemma run_shift (d : nat) (re : Regex) :
  bol_free re = true ->
  forall s pos caps,
    run re s (pos + d) (shift_caps d caps)
    = option_map (shift_result d) (run re s pos caps).
Proof.
  induction re as [|n re IH]; intros Hb s pos caps; [reflexivity|].
  simpl in Hb. apply andb_prop in Hb. destruct Hb as [Hn Hb].
  specialize (IH Hb). destruct n; try discriminate; simpl.
  - destruct s as [|x s]; auto. destruct (N.eqb x c); auto.
    apply (IH s (S pos)).
  - apply rep_shift. intros s' p'. apply IH.
  - apply (IH s pos (open_group g pos caps)).
  - rewrite close_group_shift. apply IH.
  - destruct s; auto.
Qed.

(** Under [*] without an upper bound the count of consumed characters does
    not matter. *)
Lemma rep_star_count (cont : str -> nat -> option (nat * Caps))
    (cls : char -> bool) (g : bool) (s : str) : forall pos k k',
  rep cont cls 0 None g s pos k = rep cont cls 0 None g s pos k'.
Proof.
  induction s as [|x s IH]; intros pos k k'; simpl; auto.
  now rewrite (IH (S pos) (S k) (S k')).
Qed.

(** A greedy quantifier that can consume a prefix of the class and then
    succeeds, succeeds on the whole with the same result. *)
Lemma rep_greedy_prefix (cont : str -> nat -> option (nat * Caps))
    (cls : char -> bool) (lo : nat) (hi : option nat) (r : nat * Caps)
    (pre rest : str) : forall pos k,
  forallb cls pre = true ->
  (pre = [] \/ below (k + length pre - 1) hi = true) ->
  rep cont cls lo hi true rest (pos + length pre) (k + length pre) = Some r ->
  rep cont cls lo hi true (pre ++ rest) pos k = Some r.
Proof.
  induction pre as [|x pre IH]; intros pos k Hall Hhi H.
  - simpl in *. now rewrite !Nat.add_0_r in H.
  - simpl in Hall. apply andb_prop in Hall. destruct Hall as [Hx Hall].
    destruct Hhi as [Hhi | Hhi]; [discriminate|]. simpl length in *.
    assert (Hb : below k hi = true) by (eapply below_le; [|exact Hhi]; lia).
    simpl. rewrite Hx, Hb. simpl. rewrite (IH (S pos) (S k)); auto.
    + destruct pre; [left; reflexivity | right]. simpl length in *.
      replace (S k + S (length pre) - 1) with (k + S (S (length pre)) - 1)
        by lia. exact Hhi.
    + replace (S pos + length pre) with (pos + S (length pre)) by lia.
      replace (S k + length pre) with (k + S (length pre)) by lia. exact H.
Qed.

Lemma skipn_shift (ws line : str) (a : nat) :
  skipn (a + length ws) (ws ++ line) = skipn a line.
Proof.
  rewrite skipn_app, skipn_all2 by lia.
  now replace (a + length ws - length ws) with a by lia.
Qed.

Lemma slice_shift (ws line : str) (a b : nat) :
  slice (ws ++ line) (a + length ws) (b + length ws) = slice line a b.
Proof.
  unfold slice. rewrite skipn_shift. f_equal. lia.
Qed.

Lemma group_shift (ws line : str) (g : nat) (caps : Caps) :
  group (ws ++ line) g (shift_caps (length ws) caps) = group line g caps.
Proof.
  unfold group, shift_caps. simpl closed.
  rewrite (assoc_map (fun r => (fst r + length ws, snd r + length ws))).
  destruct (assoc g (closed caps)) as [[a b]|]; simpl; auto.
  apply slice_shift.
Qed.

(** A line pattern that begins with [^\s*] matches an indented line as it
    matches the line: the groups are the same. *)
Lemma str_match_indent (re : Regex) (ws line : str) (m : RegExpMatch) :
  bol_free re = true -> forallb is_space ws = true ->
  str_match (Bol :: star is_space :: re) line = Some m ->
  str_match (Bol :: star is_space :: re) (ws ++ line)
  = Some (mkMatch 0 (ws ++ m0 m) (m1 m) (m2 m)).
Proof.
  intros Hb Hws. rewrite !str_match_anchored.
  destruct (run _ line 0 no_caps) as [[e caps]|] eqn:H; [|discriminate].
  intro Hm. inversion Hm; subst m; clear Hm. cbn [m0 m1 m2].
  assert (Hi : run (star is_space :: re) (ws ++ line) 0 no_caps
               = Some (e + length ws, shift_caps (length ws) caps)).
  { simpl. simpl in H. apply rep_greedy_prefix; auto.
    rewrite (rep_star_count _ _ _ _ _ _ 0).
    rewrite (rep_shift (fun s p => run re s p no_caps)
                       (fun s p => run re s p no_caps)).
    - now rewrite H.
    - intros s p. apply (run_shift (length ws) re Hb s p no_caps). }
  rewrite Hi, !group_shift. f_equal. f_equal.
  unfold slice. simpl. rewrite !Nat.sub_0_r.
  replace (e + length ws) with (length ws + e) by lia.
  apply firstn_app_2.
Qed.

Lemma numbered_indent (ws line : str) (m : RegExpMatch) :
  forallb is_space ws = true ->
  str_match numberedRe line = Some m ->
  str_match numberedRe (ws ++ line)
  = Some (mkMatch 0 (ws ++ m0 m) (m1 m) (m2 m)).
Proof. intros Hws Hm. unfold numberedRe in *. now apply str_match_indent. Qed.

Lemma bullet_indent (ws line : str) (m : RegExpMatch) :
  forallb is_space ws = true ->
  str_match bulletRe line = Some m ->
  str_match bulletRe (ws ++ line)
  = Some (mkMatch 0 (ws ++ m0 m) (m1 m) (m2 m)).
Proof. intros Hws Hm. unfold bulletRe in *. now apply str_match_indent. Qed.

(** Outside a fence, pushing a block leaves the state with the block
    appended, its children being what the inline resolver returns; there is
    no state while the resolver has not returned. *)
Lemma push_block_eq (inline : str -> option (list InlineNode)) (st : Scan)
    (element : list InlineNode -> BlockNode) (text : str) :
  inCodeBlock st = false ->
  push_block inline st element text
  = option_map
      (fun children =>
         mkScan (formattedLines st ++ [element children]) false
                (codeBlockContent st))
      (inline text).
Proof.
  intro Hin. unfold push_block. destruct (inline text); simpl; [|reflexivity].
  now rewrite Hin.
Qed.

(** The branch of the loop body an indented line takes. *)
Lemma leading_whitespace_branch
    (inline : str -> option (list InlineNode)) (st : Scan) (i : nat)
    (ws : str) :
  forallb is_space ws = true ->
  inCodeBlock st = false ->
  (forall line m,
      str_match numberedRe line = Some m ->
      scanLine inline st i (ws ++ line)
      = push_block inline st (NumberedItem i (m1 m)) (m2 m)) /\
  (forall line m,
      str_match bulletRe line = Some m ->
      scanLine inline st i (ws ++ line)
      = push_block inline st (BulletItem i) (m1 m)) /\
  (forall line,
      startsWith (trim line) QUOTE = true ->
      scanLine inline st i (ws ++ line)
      = push_block inline st (Blockquote i) (skipn 2 (trim line))) /\
  (forall line,
      is_fence line = true ->
      scanLine inline st i (ws ++ line)
      = Some (mkScan (formattedLines st) true (codeBlockContent st))) /\
  (forall st' line,
      inCodeBlock st' = true -> is_fence line = true ->
      scanLine inline st' i (ws ++ line)
      = Some (mkScan
                (formattedLines st'
                   ++ [CodeBlock i (join_lines (codeBlockContent st'))])
                false [])) /\
  (forall rest,
      ws <> [] ->
      scanLine inline st i (ws ++ HASH :: rest)
      = push_block inline st (Paragraph i) (ws ++ HASH :: rest)).
Proof.
  intros Hws Hin. repeat split.
  - intros line m Hm.
    pose proof (numbered_indent ws line m Hws Hm) as Hn.
    destruct (numbered_match_shape _ _ Hm)
      as (pre & Hline & Hpre & Hne1 & Hdig & _).
    destruct (m1 m) as [|d0 digits'] eqn:E1; [congruence|].
    cbn [forallb] in Hdig. apply andb_prop in Hdig. destruct Hdig as [Hd0 _].
    assert (HL : ws ++ line
                 = (ws ++ pre) ++ d0 :: digits' ++ DOT :: SPACE :: m2 m)
      by (rewrite Hline, app_assoc; reflexivity).
    rewrite HL in *.
    rewrite scanLine_classify; auto using digit_not_space;
      try (intros ->; discriminate);
      try (rewrite forallb_app, Hws, Hpre; reflexivity).
    rewrite header_no_match_indented, Hn; auto;
      try (intros ->; discriminate);
      try (rewrite forallb_app, Hws, Hpre; reflexivity).
  - intros line m Hm.
    pose proof (bullet_indent ws line m Hws Hm) as Hn.
    destruct (bullet_match_shape _ _ Hm)
      as (pre & b & ws1 & content & Hline & Hpre & Hb & _).
    assert (HL : ws ++ line = (ws ++ pre) ++ b :: ws1 ++ content)
      by (rewrite Hline, app_assoc; reflexivity).
    assert (Hd : is_digit b = false)
      by (destruct (is_digit b) eqn:Ed; auto; exfalso; clear - Hb Ed;
          char_facts).
    rewrite HL in *.
    rewrite scanLine_classify; auto using bullet_not_space;
      try (intros ->; discriminate);
      try (rewrite forallb_app, Hws, Hpre; reflexivity).
    rewrite header_no_match_indented, numbered_no_match, Hn;
      auto using bullet_not_space; try (intros ->; discriminate);
      try (rewrite forallb_app, Hws, Hpre; reflexivity).
  - intros line Hq.
    destruct (startsWith_quote _ Hq) as (t' & Ht).
    destruct (trim_head _ _ _ Ht) as (sp & r & Hline & Hsp & _).
    assert (Hh : str_match headerRe (ws ++ line) = None).
    { rewrite Hline, app_assoc. apply header_no_match_indented.
      - rewrite forallb_app, Hws, Hsp. reflexivity.
      - discriminate. }
    unfold scanLine. rewrite trim_app_space, Hh, Hq, Hin by assumption.
    rewrite Ht. reflexivity.
  - intros line Hf. apply scanLine_open_fence; auto.
    unfold is_fence in *. now rewrite trim_app_space.
  - intros st' line Hin' Hf. unfold scanLine, is_fence in *.
    now rewrite trim_app_space, Hf, Hin'.
  - intros rest Hne.
    rewrite scanLine_classify; auto; try discriminate.
    rewrite header_no_match_space, numbered_no_match, bullet_no_match;
      auto.
Qed.

(** C10. Leading white space.  Outside a fence, a line the numbered-list
    pattern matches is still a numbered item, with the same number and
    text, when white space is put before it, and a line the bullet pattern
    matches is still a bullet item with the same text; blockquote and fence
    detection look at the trimmed line, so an indented [> ] line is a
    blockquote and an indented fence line toggles the fence; a line with
    white space before its first [#] is a paragraph holding the whole
    line.  In each case the state after the line is the state before it
    with that one block appended, the children of the block being the
    result of the inline resolver on the text named. *)
Theorem leading_whitespace_sensitivity
    (inline : str -> option (list InlineNode)) (st : Scan) (i : nat)
    (ws : str) :
  forallb is_space ws = true ->
  inCodeBlock st = false ->
  (forall line m,
      str_match numberedRe line = Some m ->
      scanLine inline st i (ws ++ line)
      = option_map
          (fun children =>
             mkScan (formattedLines st ++ [NumberedItem i (m1 m) children])
                    false (codeBlockContent st))
          (inline (m2 m))) /\
  (forall line m,
      str_match bulletRe line = Some m ->
      scanLine inline st i (ws ++ line)
      = option_map
          (fun children =>
             mkScan (formattedLines st ++ [BulletItem i children])
                    false (codeBlockContent st))
          (inline (m1 m))) /\
  (forall line,
      startsWith (trim line) QUOTE = true ->
      scanLine inline st i (ws ++ line)
      = option_map
          (fun children =>
             mkScan (formattedLines st ++ [Blockquote i children])
                    false (codeBlockContent st))
          (inline (skipn 2 (trim line)))) /\
  (forall line,
      is_fence line = true ->
      scanLine inline st i (ws ++ line)
      = Some (mkScan (formattedLines st) true (codeBlockContent st))) /\
  (forall st' line,
      inCodeBlock st' = true -> is_fence line = true ->
      scanLine inline st' i (ws ++ line)
      = Some (mkScan
                (formattedLines st'
                   ++ [CodeBlock i (join_lines (codeBlockContent st'))])
                false [])) /\
  (forall rest,
      ws <> [] ->
      scanLine inline st i (ws ++ HASH :: rest)
      = option_map
          (fun children =>
             mkScan (formattedLines st ++ [Paragraph i children])
                    false (codeBlockContent st))
          (inline (ws ++ HASH :: rest))).
Proof.
  intros Hws Hin.
  destruct (leading_whitespace_branch inline st i ws Hws Hin)
    as (H1 & H2 & H3 & H4 & H5 & H6).
  split; [|split; [|split; [|split; [|split]]]].
  - intros line m Hm. rewrite (H1 line m Hm). now apply push_block_eq.
  - intros line m Hm. rewrite (H2 line m Hm). now apply push_block_eq.
  - intros line Hq. rewrite (H3 line Hq). now apply push_block_eq.
  - exact H4.
  - exact H5.
  - intros rest Hne. rewrite (H6 rest Hne). now apply push_block_eq.
Qed.

Lemma leading_whitespace_witness :
  scanLine resolve scan0 0 (lit "  007. Feed the cat")
  = Some (mkScan [NumberedItem 0 (lit "007")
                    [Span (KText 0) (lit "Feed the cat")]] false []) /\
  scanLine resolve scan0 0 (lit "  - item")
  = Some (mkScan [BulletItem 0 [Span (KText 0) (lit "item")]] false []) /\
  scanLine resolve scan0 0 (lit "  > quoted")
  = Some (mkScan [Blockquote 0 [Span (KText 0) (lit "quoted")]] false []) /\
  scanLine resolve scan0 0 (lit "  ```js") = Some (mkScan [] true []) /\
  scanLine resolve (mkScan [] true [lit "x"]) 0 (lit "  ```")
  = Some (mkScan [CodeBlock 0 (lit "x")] false []) /\
  scanLine resolve scan0 0 (lit "  # Title")
  = Some (mkScan [Paragraph 0 [Span (KText 0) (lit "  # Title")]] false []).
Proof.
  destruct (leading_whitespace_sensitivity resolve scan0 0 (lit "  ")
              eq_refl eq_refl) as (H1 & H2 & H3 & H4 & H5 & H6).
  split; [|split; [|split; [|split; [|split]]]].
  - apply (H1 (lit "007. Feed the cat")
              (mkMatch 0 (lit "007. Feed the cat") (lit "007")
                       (lit "Feed the cat"))).
    vm_compute. reflexivity.
  - apply (H2 (lit "- item") (mkMatch 0 (lit "- item") (lit "item") [])).
    vm_compute. reflexivity.
  - apply (H3 (lit "> quoted")). vm_compute. reflexivity.
  - apply (H4 (lit "```js")). vm_compute. reflexivity.
  - apply (H5 (mkScan [] true [lit "x"]) (lit "```")); reflexivity.
  - apply (H6 (lit " Title")). discriminate.
Defined.

(** ** The first choice of a greedy quantifier *)

Lemma rep_greedy_stop (cont : str -> nat -> option (nat * Caps))
    (cls : char -> bool) (lo : nat) (hi : option nat) (rest : str)
    (pos k : nat) :
  stops cls rest = true ->
  rep cont cls lo hi true rest pos k
  = if lo <=? k then cont rest pos else None.
Proof.
  destruct rest as [|y rest]; simpl; auto.
  intro H. apply negb_true_iff in H. now rewrite H.
Qed.

(** A greedy quantifier that consumes the whole run of its class and then
    matches the rest of the pattern returns that match. *)
Lemma run_rep_greedy_first (cls : char -> bool) (lo : nat) (hi : option nat)
    (re : Regex) (pre rest : str) (pos : nat) (caps : Caps) (r : nat * Caps) :
  forallb cls pre = true -> stops cls rest = true ->
  lo <= length pre ->
  (pre = [] \/ below (length pre - 1) hi = true) ->
  run re rest (pos + length pre) caps = Some r ->
  run (Rep cls lo hi true :: re) (pre ++ rest) pos caps = Some r.
Proof.
  intros Hall Hstop Hlo Hhi H. simpl. apply rep_greedy_prefix; auto.
  rewrite rep_greedy_stop by assumption. simpl.
  destruct (lo <=? length pre) eqn:E; [exact H|].
  apply Nat.leb_gt in E. lia.
Qed.

(** When the content begins with a character that is not white space, the
    groups of the header match are the hashes and the content. *)
Lemma header_match_exact (n : nat) (ws : str) (c : char) (t : str) :
  1 <= n <= 6 ->
  ws <> [] -> forallb is_space ws = true ->
  is_space c = false -> forallb dot (c :: t) = true ->
  str_match headerRe (repeat HASH n ++ ws ++ c :: t)
  = Some (mkMatch 0 (repeat HASH n ++ ws ++ c :: t) (repeat HASH n) (c :: t)).
Proof.
  intros Hn Hws Hsp Hc Hdot. unfold headerRe. rewrite str_match_anchored.
  set (line := repeat HASH n ++ ws ++ c :: t).
  set (p1 := 0 + length (repeat HASH n)).
  set (p2 := p1 + length ws).
  set (p3 := p2 + length (c :: t)).
  assert (H : run (tl headerRe) line 0 no_caps
              = Some (p3, close_group 2 p3
                            (open_group 2 p2
                               (close_group 1 p1 (open_group 1 0 no_caps))))).
  { unfold headerRe, tl. rewrite run_open. apply run_rep_greedy_first.
    - apply forallb_repeat. reflexivity.
    - destruct ws as [|w ws']; [congruence|]. cbn [stops app].
      cbn [forallb] in Hsp. apply andb_prop in Hsp. destruct Hsp as [Hw _].
      now rewrite (space_not_hash _ Hw).
    - rewrite repeat_length. lia.
    - right. rewrite repeat_length. simpl. apply Nat.ltb_lt. lia.
    - rewrite run_close. apply run_rep_greedy_first; auto.
      + cbn [stops]. now rewrite Hc.
      + destruct ws; [congruence | simpl; lia].
      + rewrite run_open. rewrite <- (app_nil_r (c :: t)) at 1.
        apply run_rep_greedy_first; auto.
        simpl. lia. }
  unfold headerRe, tl in H. rewrite H.
  unfold group. simpl closed. simpl assoc. cbv beta iota.
  assert (E : line = (repeat HASH n ++ ws) ++ (c :: t) ++ [])
    by (subst line; rewrite app_nil_r, <- app_assoc; reflexivity).
  f_equal. f_equal.
  - apply slice_whole. subst p3 p2 p1 line. rewrite !length_app. lia.
  - replace line with ([] ++ repeat HASH n ++ ws ++ c :: t) by reflexivity.
    apply slice_eq; simpl; subst p1; lia.
  - rewrite E. apply slice_eq; subst p3 p2 p1; rewrite ?length_app; lia.
Qed.

(** ** Header lines *)

(** C7, as stated, fails: the header pattern ends in [(.+)$] and [.] does
    not match a line terminator, so [# a] followed by a carriage return (a
    line of a text with CRLF line ends) is a paragraph. *)
Lemma header_claim_counterexample : ~ header_claim.
Proof.
  intro H. destruct (H 1 [SPACE] [97%N; CR]) as [txt E];
    [lia | discriminate | reflexivity | discriminate |].
  assert (L : scanLine resolve scan0 0 (repeat HASH 1 ++ [SPACE] ++ [97%N; CR])
              = Some (mkScan [Paragraph 0 [Span (KText 0) [HASH; SPACE; 97%N; CR]]]
                             false []))
    by (vm_compute; reflexivity).
  rewrite L in E. cbv [push_block resolve scan0 formattedLines app] in E.
  discriminate E.
Qed.

(** The branch of the loop body a line of hashes takes. *)
Lemma header_branch (inline : str -> option (list InlineNode))
    (st : Scan) (i : nat) :
  inCodeBlock st = false ->
  (forall n ws content,
      1 <= n <= 6 ->
      ws <> [] -> forallb is_space ws = true ->
      content <> [] -> forallb dot content = true ->
      exists txt,
        scanLine inline st i (repeat HASH n ++ ws ++ content)
        = push_block inline st (Header i n) txt /\
        (begins_with_space content = false -> txt = content)) /\
  (forall n rest,
      7 <= n ->
      scanLine inline st i (repeat HASH n ++ rest)
      = push_block inline st (Paragraph i) (repeat HASH n ++ rest)).
Proof.
  intro Hin. split.
  - intros n ws content Hn Hws Hsp Hne Hdot.
    assert (Hm : exists m,
               str_match headerRe (repeat HASH n ++ ws ++ content) = Some m /\
               length (m1 m) = n /\
               (begins_with_space content = false -> m2 m = content)).
    { destruct content as [|c t]; [congruence|].
      destruct (is_space c) eqn:Ec.
      - destruct (header_match_level n ws (c :: t) Hn Hws Hsp Hne Hdot)
          as (m & Hm & Hlevel).
        exists m. repeat split; auto. simpl. congruence.
      - eexists. split; [apply header_match_exact; auto|].
        simpl. rewrite repeat_length. auto. }
    destruct Hm as (m & Hm & Hlevel & Htxt).
    exists (m2 m). split; [|exact Htxt]. destruct n as [|n]; [lia|].
    change (repeat HASH (S n) ++ ws ++ content)
      with ([] ++ HASH :: (repeat HASH n ++ ws ++ content)) in *.
    rewrite scanLine_classify, Hm, Hlevel by (auto; discriminate).
    reflexivity.
  - intros n rest Hn.
    pose proof (header_too_many n rest Hn) as Hh.
    destruct n as [|n]; [lia|].
    change (repeat HASH (S n) ++ rest)
      with ([] ++ HASH :: (repeat HASH n ++ rest)) in *.
    rewrite scanLine_classify, Hh by (auto; discriminate).
    rewrite numbered_no_match, bullet_no_match by reflexivity.
    reflexivity.
Qed.

(** C7, amended.  Outside a fence, a line of [n] hashes ([1 <= n <= 6]),
    white space and non-empty content free of line terminators is a header
    of level [n] (its text is the content, when the content does not begin
    with white space); a line that begins with seven or more hashes is a
    paragraph holding the whole line.  The state after the line is the
    state before it with that one block appended, the children of the
    block being the result of the inline resolver on the text. *)
Theorem header_classification (inline : str -> option (list InlineNode))
    (st : Scan) (i : nat) :
  inCodeBlock st = false ->
  (forall n ws content,
      1 <= n <= 6 ->
      ws <> [] -> forallb is_space ws = true ->
      content <> [] -> forallb dot content = true ->
      exists txt,
        scanLine inline st i (repeat HASH n ++ ws ++ content)
        = option_map
            (fun children =>
               mkScan (formattedLines st ++ [Header i n children]) false
                      (codeBlockContent st))
            (inline txt) /\
        (begins_with_space content = false -> txt = content)) /\
  (forall n rest,
      7 <= n ->
      scanLine inline st i (repeat HASH n ++ rest)
      = option_map
          (fun children =>
             mkScan (formattedLines st ++ [Paragraph i children]) false
                    (codeBlockContent st))
          (inline (repeat HASH n ++ rest))).
Proof.
  intro Hin. destruct (header_branch inline st i Hin) as [H1 H2]. split.
  - intros n ws content Hn Hws Hsp Hne Hdot.
    destruct (H1 n ws content Hn Hws Hsp Hne Hdot) as (txt & Hl & Htxt).
    exists txt. split; [|exact Htxt]. rewrite Hl. now apply push_block_eq.
  - intros n rest Hn. rewrite (H2 n rest Hn). now apply push_block_eq.
Qed.

Lemma header_classification_witness :
  scanLine resolve scan0 3 (lit "### Title")
  = Some (mkScan [Header 3 3 [Span (KText 0) (lit "Title")]] false []) /\
  scanLine resolve scan0 3 (lit "####### x")
  = Some (mkScan [Paragraph 3 [Span (KText 0) (lit "####### x")]] false []).
Proof.
  destruct (header_classification resolve scan0 3 eq_refl) as [H1 H2].
  split.
  - destruct (H1 3 (lit " ") (lit "Title") ltac:(lia) ltac:(discriminate)
                 eq_refl ltac:(discriminate) eq_refl) as (txt & Htxt & Heq).
    rewrite (Heq eq_refl) in Htxt. exact Htxt.
  - apply (H2 7 (lit " x")). lia.
Defined.

(** * Email validation *)

Lemma run_lits_eq (w : str) (re : Regex) (s : str) : forall pos caps,
  run (map Lit w ++ re) (w ++ s) pos caps = run re s (pos + length w) caps.
Proof.
  induction w as [|c w IH]; intros pos caps; simpl map; simpl app.
  - now rewrite Nat.add_0_r.
  - rewrite run_lit_eq, IH. f_equal. simpl. lia.
Qed.

Lemma run_lits (w : str) (re : Regex) : forall s pos caps r,
  run (map Lit w ++ re) s pos caps = Some r ->
  exists s', s = w ++ s' /\ run re s' (pos + length w) caps = Some r.
Proof.
  induction w as [|c w IH]; intros s pos caps r H; simpl map in H;
    simpl app in H.
  - exists s. rewrite Nat.add_0_r. auto.
  - apply run_lit in H. destruct H as (s1 & -> & H).
    apply IH in H. destruct H as (s' & -> & H).
    exists s'. split; auto.
    replace (pos + length (c :: w)) with (S pos + length w) by (simpl; lia).
    exact H.
Qed.

(** The strings the Gmail pattern accepts: a non-empty local part of
    letters, digits and [._+-], then [@gmail.com]. *)
Lemma gmail_test_iff (n : str) :
  regex_test gmailRegex n = true <->
  exists localPart,
    n = localPart ++ GMAIL_COM /\ localPart <> [] /\
    forallb is_local_char localPart = true.
Proof.
  unfold regex_test, gmailRegex. rewrite str_match_anchored. split.
  - destruct (run _ n 0 no_caps) as [[e caps]|] eqn:H; [|discriminate].
    intros _. peel H. apply run_lits in H. destruct H as (s' & -> & H).
    peel H. subst s'. exists pre. rewrite app_nil_r in Hsplit.
    repeat split; auto. destruct pre; [simpl in Hlo; lia | discriminate].
  - intros (localPart & -> & Hne & Hall).
    destruct (run _ (localPart ++ GMAIL_COM) 0 no_caps) as [[e caps]|] eqn:H;
      [reflexivity|].
    exfalso. revert H. apply run_rep_complete; auto.
    + destruct localPart; [congruence | simpl; lia].
    + rewrite <- (app_nil_r GMAIL_COM) at 2. rewrite run_lits_eq.
      rewrite run_eol_nil. discriminate.
Qed.

Lemma split_first_local (localPart rest : str) :
  forallb is_local_char localPart = true ->
  split_first AT (localPart ++ AT :: rest) = localPart.
Proof.
  induction localPart as [|c l IH]; simpl; intro H.
  - reflexivity.
  - apply andb_prop in H. destruct H as [Hc Hl].
    destruct (N.eqb c AT) eqn:E.
    + apply N.eqb_eq in E. subst c. discriminate.
    + now rewrite IH.
Qed.

Lemma is_empty_false (s : str) : s <> [] -> is_empty s = false.
Proof. destruct s; [congruence | reflexivity]. Qed.

Section EmailFacts.

Variable toLowerCase : str -> str.

(** What the validator computes once the pattern has accepted the
    normalized address [localPart ++ "@gmail.com"]. *)
Lemma validate_accepted (email localPart : str) :
  toLowerCase (trim email) = localPart ++ GMAIL_COM ->
  localPart <> [] -> forallb is_local_char localPart = true ->
  validateGmailEmail toLowerCase email =
  if startsWith localPart [DOT] || endsWith localPart [DOT] then
    mkResult false (Some DOT_AT_END)
  else if includes localPart [DOT; DOT] then
    mkResult false (Some CONSECUTIVE_DOTS)
  else mkResult true None.
Proof.
  intros Hn Hne Hall. unfold validateGmailEmail. rewrite Hn.
  assert (Ht : regex_test gmailRegex (localPart ++ GMAIL_COM) = true)
    by (apply gmail_test_iff; eauto).
  rewrite Ht. change GMAIL_COM with (AT :: lit "gmail.com").
  rewrite split_first_local by assumption.
  destruct localPart as [|c l]; [congruence|]. reflexivity.
Qed.

(** The address is valid exactly when its trimmed, lower-cased form is a
    local part followed by [@gmail.com], where the local part is non-empty,
    consists of letters, digits and [._+-], neither begins nor ends with a
    dot and has no two dots in a row. *)
Theorem validateGmailEmail_valid_iff (email : str) :
  isValid (validateGmailEmail toLowerCase email) = true <->
  exists localPart,
    normalizeGmailEmail toLowerCase email = localPart ++ GMAIL_COM /\
    localPart <> [] /\
    forallb is_local_char localPart = true /\
    startsWith localPart [DOT] = false /\
    endsWith localPart [DOT] = false /\
    includes localPart [DOT; DOT] = false.
Proof.
  unfold normalizeGmailEmail. split.
  - intro H.
    destruct (regex_test gmailRegex (toLowerCase (trim email))) eqn:Et.
    + apply gmail_test_iff in Et. destruct Et as (l & Hn & Hne & Hall).
      rewrite (validate_accepted email l Hn Hne Hall) in H.
      exists l. destruct (startsWith l [DOT]), (endsWith l [DOT]),
        (includes l [DOT; DOT]); simpl in H; try discriminate.
      repeat split; auto.
    + unfold validateGmailEmail in H. rewrite Et in H.
      destruct (is_empty (toLowerCase (trim email))); discriminate.
  - intros (l & Hn & Hne & Hall & Hs & He & Hi).
    rewrite (validate_accepted email l Hn Hne Hall), Hs, He, Hi. reflexivity.
Qed.

(** The validator has five outcomes: valid without an error message, or
    invalid with one of four messages.  The message of its third check
    ([Invalid email format...]) is never returned: a string the pattern
    accepts has a non-empty local part. *)
Theorem validateGmailEmail_outcomes (email : str) :
  let r := validateGmailEmail toLowerCase email in
  ((isValid r = true /\ error r = None) \/
   (isValid r = false /\
    (error r = Some EMAIL_REQUIRED \/ error r = Some ONLY_GMAIL \/
     error r = Some DOT_AT_END \/ error r = Some CONSECUTIVE_DOTS))) /\
  error r <> Some INVALID_FORMAT.
Proof.
  cbv zeta.
  destruct (regex_test gmailRegex (toLowerCase (trim email))) eqn:Et.
  - apply gmail_test_iff in Et. destruct Et as (l & Hn & Hne & Hall).
    rewrite (validate_accepted email l Hn Hne Hall).
    destruct (startsWith l [DOT] || endsWith l [DOT]);
      [|destruct (includes l [DOT; DOT])]; simpl;
      (split; [tauto | discriminate]).
  - unfold validateGmailEmail. rewrite Et.
    destruct (is_empty (toLowerCase (trim email))); simpl;
      (split; [tauto | discriminate]).
Qed.

End EmailFacts.

Lemma forallb_rev (f : char -> bool) (l : str) :
  forallb f (rev l) = forallb f l.
Proof.
  induction l as [|c l IH]; simpl; auto.
  rewrite forallb_app, IH. simpl. rewrite andb_true_r. apply andb_comm.
Qed.

Lemma trimEnd_app_space (s ws : str) :
  forallb is_space ws = true -> trimEnd (s ++ ws) = trimEnd s.
Proof.
  intro H. unfold trimEnd. rewrite rev_app_distr, trimStart_app_space; auto.
  now rewrite forallb_rev.
Qed.

Lemma trim_app_space_end (s ws : str) :
  forallb is_space ws = true -> trim (s ++ ws) = trim s.
Proof.
  intro H. unfold trim. induction s as [|c s IH]; simpl.
  - rewrite <- (app_nil_r ws), trimStart_app_space by assumption. reflexivity.
  - destruct (is_space c); auto.
    change (c :: s ++ ws) with ((c :: s) ++ ws). now apply trimEnd_app_space.
Qed.

(** White space around the address changes neither the verdict nor the
    normalized address. *)
Theorem validateGmailEmail_ignores_surrounding_space
    (toLowerCase : str -> str) (ws1 email ws2 : str) :
  forallb is_space ws1 = true -> forallb is_space ws2 = true ->
  validateGmailEmail toLowerCase (ws1 ++ email ++ ws2)
  = validateGmailEmail toLowerCase email /\
  normalizeGmailEmail toLowerCase (ws1 ++ email ++ ws2)
  = normalizeGmailEmail toLowerCase email.
Proof.
  intros H1 H2. unfold validateGmailEmail, normalizeGmailEmail.
  rewrite trim_app_space, trim_app_space_end by assumption. auto.
Qed.

Lemma validateGmailEmail_ignores_surrounding_space_witness :
  validateGmailEmail ascii_lower (lit "  John.Doe@Gmail.com ")
  = validateGmailEmail ascii_lower (lit "John.Doe@Gmail.com") /\
  normalizeGmailEmail ascii_lower (lit "  John.Doe@Gmail.com ")
  = normalizeGmailEmail ascii_lower (lit "John.Doe@Gmail.com").
Proof.
  apply (validateGmailEmail_ignores_surrounding_space ascii_lower
           (lit "  ") (lit "John.Doe@Gmail.com") (lit " "));
    reflexivity.
Defined.

(** * More on the inline resolver *)

(** ** Keys of the parts *)

Lemma keyed_app (l1 l2 : list InlineNode) : forall i,
  keyed i (l1 ++ l2) <-> keyed i l1 /\ keyed (i + length l1) l2.
Proof.
  induction l1 as [|n l1 IH]; intro i; simpl.
  - rewrite Nat.add_0_r. tauto.
  - rewrite IH. replace (S i + length l1) with (i + S (length l1)) by lia.
    tauto.
Qed.

Lemma render_key (p : Pattern) (m : RegExpMatch) (key : Key) :
  node_key (render p m key) = key /\ is_span (render p m key) = false.
Proof. destruct p; auto. Qed.

Lemma push_text_numbered (s : str) (st : Build) :
  numbered_parts st -> numbered_parts (push_text s st).
Proof.
  intros [Hk Hi]. unfold push_text. destruct (is_empty s); [split; auto|].
  split; simpl.
  - apply keyed_app. split; auto. simpl. rewrite Hi. auto.
  - rewrite length_app. simpl. lia.
Qed.

Lemma build_step_numbered (text : str) (st : Build) (o : Occurrence) :
  numbered_parts st -> numbered_parts (build_step text st o).
Proof.
  intro H. unfold build_step.
  set (st1 := if currentIndex st <? o_start o then _ else st).
  assert (H1 : numbered_parts st1)
    by (subst st1; destruct (_ <? _); auto using push_text_numbered).
  destruct H1 as [Hk Hi]. split; simpl.
  - apply keyed_app. split; auto. simpl.
    destruct (render_key (o_pattern o) (o_match o) (KFormat (partIndex st1)))
      as [E1 E2].
    unfold expected_key. rewrite E1, E2, Hi. auto.
  - rewrite length_app. simpl. lia.
Qed.

Lemma build_numbered (text : str) (kept : list Occurrence) : forall st,
  numbered_parts st ->
  numbered_parts (tail_step text (fold_left (build_step text) kept st)).
Proof.
  induction kept as [|o kept IH]; intros st H; simpl.
  - unfold tail_step. destruct (_ <? _); auto using push_text_numbered.
  - apply IH. now apply build_step_numbered.
Qed.

Lemma keyed_numbers (l : list InlineNode) : forall i,
  keyed i l -> map key_number (map node_key l) = map Some (seq i (length l)).
Proof.
  induction l as [|n l IH]; intros i H; simpl; auto.
  destruct H as [Hn Hl]. rewrite (IH _ Hl), Hn.
  unfold expected_key. destruct (is_span n); reflexivity.
Qed.

Lemma NoDup_map_Some (l : list nat) : NoDup l -> NoDup (map Some l).
Proof.
  induction 1 as [|x l Hx Hl IH]; simpl; constructor; auto.
  intro H. apply in_map_iff in H. destruct H as (y & E & Hy).
  inversion E; subst. contradiction.
Qed.

Lemma keyed_NoDup (l : list InlineNode) (i : nat) :
  keyed i l -> NoDup (map node_key l).
Proof.
  intro H. apply keyed_numbers in H.
  apply (NoDup_map_inv key_number). rewrite H.
  apply NoDup_map_Some, seq_NoDup.
Qed.

(** A non-empty text always yields parts from the loop, never the
    fallback. *)
Lemma parts_nonempty (text : str) :
  text <> [] ->
  parts (tail_step text
           (fold_left (build_step text) (validMatches text) (mkBuild [] 0 0)))
  <> [].
Proof.
  intros Hne E.
  assert (Hcov := build_covers text (validMatches text) (mkBuild [] 0 0) []).
  simpl in Hcov. rewrite E in Hcov.
  assert (Hr : rangesFrom (length text) 0 (validMatches text) = []).
  { assert (H : Forall2 (covers text)
                  (rangesFrom (length text) 0 (validMatches text)) []).
    { apply Hcov; [|apply validMatches_chained | constructor].
      pose proof (validMatches_ok text) as H. rewrite Forall_forall in *.
      intros o Ho. split; auto. }
    inversion H. reflexivity. }
  assert (Hc : contiguous 0 (rangesFrom (length text) 0 (validMatches text))
                          (length text)).
  { apply rangesFrom_contiguous; [lia | apply validMatches_chained |].
    eapply Forall_impl; [|apply validMatches_ok].
    intros o (? & _ & _ & _ & H). exact H. }
  rewrite Hr in Hc. simpl in Hc. destruct text; [congruence | discriminate].
Qed.

Lemma formatInlineText_nonempty_eq (text : str) :
  text <> [] ->
  formatInlineText text =
  parts (tail_step text
           (fold_left (build_step text) (validMatches text) (mkBuild [] 0 0))).
Proof.
  intro Hne. rewrite formatInlineText_eq. unfold buildParts.
  rewrite finish_tail_step. pose proof (parts_nonempty text Hne) as H.
  destruct (parts _); [congruence | reflexivity].
Qed.

Lemma formatInlineText_keyed (text : str) :
  text <> [] -> keyed 0 (formatInlineText text).
Proof.
  intro Hne. rewrite formatInlineText_nonempty_eq by assumption.
  apply build_numbered. split; simpl; auto.
Qed.

(** Sibling parts never share a React key: for a non-empty text the part
    at position [i] has the key [text-i] when it is a plain span and
    [format-i] when it is a formatted element. *)
Theorem formatInlineText_keys (text : str) :
  NoDup (map node_key (formatInlineText text)) /\
  (text <> [] -> keyed 0 (formatInlineText text)).
Proof.
  split; [|apply formatInlineText_keyed]. destruct text as [|c t].
  - vm_compute. repeat constructor. intros [].
  - eapply keyed_NoDup. apply formatInlineText_keyed. discriminate.
Qed.

(** The span with key [plain] that the last branch pushes ("if no
    formatting was found") appears for the empty text only; a non-empty
    text without markup gets the key [text-0] from the loop. *)
Theorem plain_key_only_for_empty_text (text : str) (n : InlineNode) :
  In n (formatInlineText text) -> node_key n = KPlain -> text = [].
Proof.
  intros Hin Hkey. destruct text as [|c t]; [reflexivity | exfalso].
  assert (Hk : keyed 0 (formatInlineText (c :: t)))
    by (apply formatInlineText_keyed; discriminate).
  revert Hk Hin. generalize 0. generalize (formatInlineText (c :: t)).
  induction l as [|x l IH]; simpl; intros i Hk Hin; [contradiction|].
  destruct Hk as [Hx Hl]. destruct Hin as [-> | Hin]; [|eauto].
  rewrite Hkey in Hx. unfold expected_key in Hx. destruct (is_span n);
    discriminate.
Qed.

Lemma plain_key_only_for_empty_text_witness : @nil char = [].
Proof.
  apply (plain_key_only_for_empty_text [] (Span KPlain [])).
  - vm_compute. auto.
  - reflexivity.
Defined.

(** ** Text without markup *)

Lemma lead_is_markup (p : Pattern) : is_markup_lead (lead p) = true.
Proof. destruct p; reflexivity. Qed.

Lemma markup_free_nth (text : str) (i : nat) (c : char) :
  markup_free text = true -> nth_error text i = Some c ->
  is_markup_lead c = false.
Proof.
  unfold markup_free. intros H Hn. rewrite forallb_forall in H.
  apply negb_true_iff, H. eapply nth_error_In; eauto.
Qed.

Lemma markup_free_no_matches (text : str) :
  markup_free text = true -> allMatches text = [].
Proof.
  intro H. pose proof (allMatches_ok text) as Hok.
  destruct (allMatches text) as [|o l]; [reflexivity | exfalso].
  inversion Hok as [|? ? Ho _]; subst. apply occ_lead in Ho.
  apply (markup_free_nth _ _ _ H) in Ho. now rewrite lead_is_markup in Ho.
Qed.

(** A text in which no [[], [*] or backtick occurs is returned as one plain
    span holding the whole text (with the key [plain] when it is empty,
    [text-0] otherwise). *)
Theorem formatInlineText_markup_free (text : str) :
  markup_free text = true ->
  formatInlineText text
  = [Span (if is_empty text then KPlain else KText 0) text].
Proof.
  intro H. rewrite formatInlineText_eq. unfold validMatches.
  rewrite (markup_free_no_matches text H). destruct text; reflexivity.
Qed.

Lemma formatInlineText_markup_free_witness :
  formatInlineText (lit "Feed the cat (twice) ]") 
  = [Span (KText 0) (lit "Feed the cat (twice) ]")].
Proof.
  apply (formatInlineText_markup_free (lit "Feed the cat (twice) ]")).
  reflexivity.
Defined.

(** * More on the block scanner *)

(** ** Keys of the blocks *)

Lemma scanLine_index (inline : str -> option (list InlineNode))
    (st st' : Scan) (i : nat) (line : str) :
  scanLine inline st i line = Some st' ->
  formattedLines st' = formattedLines st \/
  exists b, formattedLines st' = formattedLines st ++ [b] /\ block_index b = i.
Proof.
  unfold scanLine, push_block. intro H.
  repeat match type of H with
         | (if ?b then _ else _) = _ => destruct b
         | match ?x with Some _ => _ | None => _ end = _ => destruct x
         end;
    inversion H; subst; simpl; eauto.
Qed.

Lemma scanLines_index (inline : str -> option (list InlineNode))
    (lines : list str) : forall st st' i,
  scanLines inline st i lines = Some st' ->
  exists new,
    formattedLines st' = formattedLines st ++ new /\
    StronglySorted lt (map block_index new) /\
    Forall (fun b => i <= block_index b < i + length lines) new.
Proof.
  induction lines as [|line lines IH]; intros st st' i H; simpl in H.
  - inversion H; subst. exists []. rewrite app_nil_r.
    repeat split; constructor.
  - destruct (scanLine inline st i line) as [st1|] eqn:E; [|discriminate].
    apply IH in H. destruct H as (new & Hf & Hs & Hb).
    assert (Hb' : Forall (fun b => i <= block_index b < i + length (line :: lines))
                         new).
    { eapply Forall_impl; [|exact Hb]. simpl. intros; lia. }
    apply scanLine_index in E. destruct E as [E | (b & E & Hbi)].
    + exists new. rewrite Hf, E. auto.
    + exists (b :: new). rewrite Hf, E, <- app_assoc. simpl.
      repeat split; auto.
      * constructor; auto. rewrite Forall_map.
        eapply Forall_impl; [|exact Hb]. simpl. intros; lia.
      * constructor; auto. simpl. lia.
Qed.

(** The blocks come in line order, at most one per line: their line
    indices increase strictly and stay below the number of lines, so no
    two blocks share a React key. *)
Theorem formatText_block_keys (s : str) :
  StronglySorted lt (map block_index (formatText (JsString s))) /\
  Forall (fun b => block_index b < length (split_lines s))
         (formatText (JsString s)).
Proof.
  destruct s as [|c s]; [split; constructor|].
  destruct (scanLines_resolve_total (split_lines (c :: s)) scan0 0)
    as [st Hst].
  rewrite (formatText_eq (c :: s) st) by (auto; discriminate).
  apply scanLines_index in Hst. destruct Hst as (new & Hf & Hs & Hb).
  simpl in Hf. subst. split; auto.
  eapply Forall_impl; [|exact Hb]. simpl. intros; lia.
Qed.

Lemma scanLine_no_fence (st : Scan) (i : nat) (line : str) :
  inCodeBlock st = false -> is_fence line = false ->
  exists b,
    scanLine resolve st i line
    = Some (mkScan (formattedLines st ++ [b]) false (codeBlockContent st)) /\
    block_index b = i.
Proof.
  unfold is_fence, scanLine, push_block, resolve. intros Hin Hf.
  rewrite Hf, Hin.
  repeat match goal with
         | |- context [if ?b then _ else _] => destruct b
         | |- context [match ?x with Some _ => _ | None => _ end] => destruct x
         end; eexists; split; reflexivity.
Qed.

Lemma scanLines_no_fence (lines : list str) : forall st i,
  inCodeBlock st = false ->
  Forall (fun line => is_fence line = false) lines ->
  exists new,
    scanLines resolve st i lines
    = Some (mkScan (formattedLines st ++ new) false (codeBlockContent st)) /\
    map block_index new = seq i (length lines).
Proof.
  induction lines as [|line lines IH]; intros st i Hin Hl; simpl.
  - exists []. rewrite app_nil_r. destruct st; simpl in *. subst. auto.
  - inversion Hl; subst.
    destruct (scanLine_no_fence st i line) as (b & -> & Hb); auto.
    destruct (IH (mkScan (formattedLines st ++ [b]) false (codeBlockContent st))
                 (S i)) as (new & -> & Hnew); auto.
    exists (b :: new). simpl. rewrite <- app_assoc, Hb, Hnew. auto.
Qed.

(** In a text without fence lines every line gives exactly one block, and
    the block of line [k] carries the index [k]. *)
Theorem formatText_one_block_per_line (s : str) :
  s <> [] ->
  Forall (fun line => is_fence line = false) (split_lines s) ->
  map block_index (formatText (JsString s)) = seq 0 (length (split_lines s)).
Proof.
  intros Hne Hl.
  destruct (scanLines_no_fence (split_lines s) scan0 0 eq_refl Hl)
    as (new & Hs & Hnew).
  rewrite (formatText_eq s _ Hne Hs). exact Hnew.
Qed.

Lemma formatText_one_block_per_line_witness :
  map block_index
      (formatText (JsString (lit "# T" ++ NL :: NL :: lit "- a")))
  = [0; 1; 2].
Proof.
  apply (formatText_one_block_per_line (lit "# T" ++ NL :: NL :: lit "- a")).
  - discriminate.
  - repeat constructor.
Defined.

(** ** Lines and newlines *)

Lemma split_aux_app (x y : str) :
  split_aux (x ++ NL :: y)
  = (fst (split_aux x), snd (split_aux x) ++ split_lines y).
Proof.
  induction x as [|c x IH]; simpl.
  - unfold split_lines. destruct (split_aux y). reflexivity.
  - rewrite IH. destruct (split_aux x) as [cur rest]. simpl.
    destruct (N.eqb c NL); reflexivity.
Qed.

(** [(x + "\n" + y).split("\n")] is [x.split("\n")] followed by
    [y.split("\n")]. *)
Lemma split_lines_app (x y : str) :
  split_lines (x ++ NL :: y) = split_lines x ++ split_lines y.
Proof.
  unfold split_lines at 1 2. rewrite split_aux_app.
  destruct (split_aux x). reflexivity.
Qed.

Lemma split_lines_one (x : str) :
  ~ In NL x -> split_lines x = [x].
Proof.
  unfold split_lines. induction x as [|c x IH]; simpl; intro H; auto.
  destruct (split_aux x) as [cur rest].
  assert (Hx : ~ In NL x) by tauto. apply IH in Hx. inversion Hx; subst.
  destruct (N.eqb c NL) eqn:E; auto.
  apply N.eqb_eq in E. subst. tauto.
Qed.

Lemma split_lines_cons (c : char) (s : str) :
  split_lines (c :: s)
  = if N.eqb c NL then [] :: split_lines s
    else match split_lines s with
         | cur :: rest => (c :: cur) :: rest
         | [] => [[c]]
         end.
Proof.
  unfold split_lines. simpl. destruct (split_aux s) as [cur rest].
  destruct (N.eqb c NL); reflexivity.
Qed.

(** [s.split("\n").join("\n")] is [s]. *)
Lemma join_split_lines (s : str) : join_lines (split_lines s) = s.
Proof.
  induction s as [|c s IH]; [reflexivity|].
  rewrite split_lines_cons.
  destruct (split_lines s) as [|cur rest] eqn:E.
  - unfold split_lines in E. destruct (split_aux s); discriminate.
  - destruct (N.eqb c NL) eqn:Ec.
    + apply N.eqb_eq in Ec. subst c. simpl in *. now rewrite IH.
    + destruct rest; simpl in *; now rewrite <- IH.
Qed.

(** ** A fenced block, from text to block *)

(** A text made of an opening fence line, a body whose lines are not fence
    lines, and a closing fence line yields one code block, and the content
    of the block is the body, character for character. *)
Theorem formatText_fenced_body_verbatim (opening body closing : str) :
  is_fence opening = true -> ~ In NL opening ->
  is_fence closing = true -> ~ In NL closing ->
  Forall (fun line => is_fence line = false) (split_lines body) ->
  formatText (JsString (opening ++ NL :: body ++ NL :: closing))
  = [CodeBlock (S (length (split_lines body))) body].
Proof.
  intros Hop Hno Hcl Hnc Hbody.
  apply (formatText_eq _
           (mkScan [CodeBlock (S (length (split_lines body))) body] false [])).
  - destruct opening; discriminate.
  - rewrite !split_lines_app, (split_lines_one opening Hno),
      (split_lines_one closing Hnc).
    simpl. rewrite scanLine_open_fence by auto. simpl.
    rewrite scanLines_app, scanLines_in_fence by auto. simpl.
    unfold scanLine. unfold is_fence in Hcl. rewrite Hcl. simpl.
    now rewrite join_split_lines.
Qed.

Lemma formatText_fenced_body_verbatim_witness :
  formatText
    (JsString (lit "```js" ++ NL :: (lit "# a" ++ NL :: lit "**b**")
                 ++ NL :: lit "```"))
  = [CodeBlock 3 (lit "# a" ++ NL :: lit "**b**")].
Proof.
  apply (formatText_fenced_body_verbatim (lit "```js")
           (lit "# a" ++ NL :: lit "**b**") (lit "```")).
  - reflexivity.
  - vm_compute. intuition discriminate.
  - reflexivity.
  - vm_compute. intuition discriminate.
  - repeat constructor.
Defined.

(** ** More line classes *)

Lemma trimStart_all_space (ws : str) :
  forallb is_space ws = true -> trimStart ws = [].
Proof.
  intro H. rewrite <- (app_nil_r ws). now rewrite trimStart_app_space.
Qed.

Lemma trim_all_space (ws : str) : forallb is_space ws = true -> trim ws = [].
Proof. intro H. unfold trim. now rewrite trimStart_all_space. Qed.

Lemma trimEnd_all_space (ws : str) :
  forallb is_space ws = true -> trimEnd ws = [].
Proof.
  intro H. unfold trimEnd. rewrite trimStart_all_space; auto.
  now rewrite forallb_rev.
Qed.

(** Outside a fence a line of white space only (the empty line included)
    gives a spacer block; the inline resolver is not called. *)
Theorem blank_line_is_spacer (inline : str -> option (list InlineNode))
    (st : Scan) (i : nat) (line : str) :
  inCodeBlock st = false -> forallb is_space line = true ->
  scanLine inline st i line
  = Some (mkScan (formattedLines st ++ [EmptyLine i]) false
                 (codeBlockContent st)).
Proof.
  intros Hin Hsp. unfold scanLine. rewrite (trim_all_space line Hsp), Hin.
  reflexivity.
Qed.

Lemma blank_line_is_spacer_witness :
  scanLine (fun _ => None) scan0 4 (lit "   ")
  = Some (mkScan [EmptyLine 4] false []).
Proof.
  apply (blank_line_is_spacer (fun _ => None) scan0 4 (lit "   "));
    reflexivity.
Defined.

(** The branch of the loop body a numbered line takes. *)
Lemma numbered_item_branch (inline : str -> option (list InlineNode))
    (st : Scan) (i : nat) (ws digits content : str) :
  inCodeBlock st = false ->
  forallb is_space ws = true ->
  digits <> [] -> forallb is_digit digits = true ->
  content <> [] -> forallb dot content = true ->
  scanLine inline st i (ws ++ digits ++ DOT :: SPACE :: content)
  = push_block inline st (NumberedItem i digits) content.
Proof.
  intros Hin Hws Hne Hdig Hc Hdot.
  pose proof (numbered_match ws digits content Hws Hne Hdig Hc Hdot) as Hm.
  destruct digits as [|d0 digits']; [congruence|].
  cbn [forallb] in Hdig. apply andb_prop in Hdig. destruct Hdig as [Hd0 _].
  cbn [app] in *.
  rewrite scanLine_classify; auto using digit_not_space;
    try (intros ->; discriminate).
  rewrite header_no_match_indented, Hm; auto. intros ->. discriminate.
Qed.

(** The number of a numbered item is kept as typed (no renumbering, leading
    zeros included), and the text of the item is what follows the dot and
    the space: the state after the line is the state before it with the
    numbered item appended, its children being the result of the inline
    resolver on that text. *)
Theorem numbered_item_fidelity (inline : str -> option (list InlineNode))
    (st : Scan) (i : nat) (ws digits content : str) :
  inCodeBlock st = false ->
  forallb is_space ws = true ->
  digits <> [] -> forallb is_digit digits = true ->
  content <> [] -> forallb dot content = true ->
  scanLine inline st i (ws ++ digits ++ DOT :: SPACE :: content)
  = option_map
      (fun children =>
         mkScan (formattedLines st ++ [NumberedItem i digits children]) false
                (codeBlockContent st))
      (inline content).
Proof.
  intros Hin Hws Hne Hdig Hc Hdot.
  rewrite numbered_item_branch by assumption. now apply push_block_eq.
Qed.

Lemma numbered_item_fidelity_witness :
  scanLine resolve scan0 0 (lit " 007. Feed the cat")
  = Some (mkScan [NumberedItem 0 (lit "007")
                    [Span (KText 0) (lit "Feed the cat")]] false []).
Proof.
  apply (numbered_item_fidelity resolve scan0 0 (lit " ") (lit "007")
           (lit "Feed the cat")); try reflexivity; discriminate.
Defined.

(** The branch of the loop body a lone [>] takes. *)
Lemma empty_quote_branch (inline : str -> option (list InlineNode))
    (st : Scan) (i : nat) (ws ws' : str) :
  inCodeBlock st = false ->
  forallb is_space ws = true -> forallb is_space ws' = true ->
  scanLine inline st i (ws ++ GT :: ws')
  = push_block inline st (Paragraph i) (ws ++ GT :: ws').
Proof.
  intros Hin Hws Hws'. unfold scanLine.
  rewrite trim_app_space, trim_cons, (trimEnd_all_space ws' Hws'), Hin
    by (auto; reflexivity).
  rewrite header_no_match_indented, numbered_no_match, bullet_no_match;
    auto; try reflexivity. discriminate.
Qed.

(** A [>] with nothing but white space around it is not a blockquote: the
    trimmed line is [>] alone and does not begin with [> ], so the state
    after the line is the state before it with a paragraph appended, whose
    children are the result of the inline resolver on the whole untrimmed
    line. *)
Theorem empty_quote_is_paragraph (inline : str -> option (list InlineNode))
    (st : Scan) (i : nat) (ws ws' : str) :
  inCodeBlock st = false ->
  forallb is_space ws = true -> forallb is_space ws' = true ->
  scanLine inline st i (ws ++ GT :: ws')
  = option_map
      (fun children =>
         mkScan (formattedLines st ++ [Paragraph i children]) false
                (codeBlockContent st))
      (inline (ws ++ GT :: ws')).
Proof.
  intros Hin Hws Hws'.
  rewrite empty_quote_branch by assumption. now apply push_block_eq.
Qed.

Lemma empty_quote_is_paragraph_witness :
  scanLine resolve scan0 0 (lit ">  ")
  = Some (mkScan [Paragraph 0 [Span (KText 0) (lit ">  ")]] false []).
Proof.
  apply (empty_quote_is_paragraph resolve scan0 0 [] (lit "  "));
    reflexivity.
Defined.

Lemma space_is_not_bullet (c : char) : is_space c = true -> is_bullet c = false.
Proof. intro H. char_facts. Qed.

(** When the content begins with a character that is not white space, the
    group of the bullet match is the content. *)
Lemma bullet_match_exact (ws : str) (b : char) (ws1 : str) (c : char) (t : str) :
  forallb is_space ws = true -> is_bullet b = true ->
  ws1 <> [] -> forallb is_space ws1 = true ->
  is_space c = false -> forallb dot (c :: t) = true ->
  str_match bulletRe (ws ++ b :: ws1 ++ c :: t)
  = Some (mkMatch 0 (ws ++ b :: ws1 ++ c :: t) (c :: t) []).
Proof.
  intros Hws Hb Hne Hsp Hc Hdot. unfold bulletRe. rewrite str_match_anchored.
  set (line := ws ++ b :: ws1 ++ c :: t).
  set (p1 := 0 + length ws).
  set (p2 := p1 + length [b]).
  set (p3 := p2 + length ws1).
  set (p4 := p3 + length (c :: t)).
  assert (H : run (tl bulletRe) line 0 no_caps
              = Some (p4, close_group 1 p4 (open_group 1 p3 no_caps))).
  { unfold bulletRe, tl. subst line. apply run_rep_greedy_first; auto.
    - cbn [stops]. now rewrite (bullet_not_space _ Hb).
    - lia.
    - change (b :: ws1 ++ c :: t) with ([b] ++ ws1 ++ c :: t).
      apply run_rep_greedy_first; auto.
      + simpl. now rewrite Hb.
      + destruct ws1 as [|w ws1']; [congruence|]. cbn [stops app].
        cbn [forallb] in Hsp. apply andb_prop in Hsp. destruct Hsp as [Hw _].
        now rewrite (space_is_not_bullet _ Hw).
      + apply run_rep_greedy_first; auto.
        * cbn [stops]. now rewrite Hc.
        * destruct ws1; [congruence | simpl; lia].
        * rewrite run_open. rewrite <- (app_nil_r (c :: t)) at 1.
          apply run_rep_greedy_first; auto. simpl. lia. }
  unfold bulletRe, tl in H. rewrite H.
  unfold group. simpl closed. simpl assoc. cbv beta iota.
  assert (E : line = (ws ++ b :: ws1) ++ (c :: t) ++ [])
    by (subst line; rewrite app_nil_r, <- app_assoc; reflexivity).
  f_equal. f_equal.
  - apply slice_whole. subst p4 p3 p2 p1 line.
    rewrite !length_app. simpl. rewrite !length_app. simpl. lia.
  - rewrite E. apply slice_eq; subst p4 p3 p2 p1;
      rewrite ?length_app; simpl; lia.
Qed.

(** The branch of the loop body a bullet line takes. *)
Lemma bullet_item_branch (inline : str -> option (list InlineNode))
    (st : Scan) (i : nat) (ws : str) (b : char) (ws1 : str) (c : char)
    (t : str) :
  inCodeBlock st = false ->
  forallb is_space ws = true -> is_bullet b = true ->
  ws1 <> [] -> forallb is_space ws1 = true ->
  is_space c = false -> forallb dot (c :: t) = true ->
  scanLine inline st i (ws ++ b :: ws1 ++ c :: t)
  = push_block inline st (BulletItem i) (c :: t).
Proof.
  intros Hin Hws Hb Hne Hsp Hc Hdot.
  assert (Hd : is_digit b = false)
    by (destruct (is_digit b) eqn:Ed; auto; exfalso; clear - Hb Ed;
        char_facts).
  rewrite scanLine_classify; auto using bullet_not_space;
    try (intros ->; discriminate).
  rewrite header_no_match_indented, numbered_no_match, bullet_match_exact;
    auto using bullet_not_space.
  intros ->. discriminate.
Qed.

(** The marker of a bullet item and the white space around it are dropped:
    the state after the line is the state before it with a bullet item
    appended, whose children are the result of the inline resolver on the
    content after the marker and the white space. *)
Theorem bullet_item_text (inline : str -> option (list InlineNode))
    (st : Scan) (i : nat) (ws : str) (b : char) (ws1 : str) (c : char)
    (t : str) :
  inCodeBlock st = false ->
  forallb is_space ws = true -> is_bullet b = true ->
  ws1 <> [] -> forallb is_space ws1 = true ->
  is_space c = false -> forallb dot (c :: t) = true ->
  scanLine inline st i (ws ++ b :: ws1 ++ c :: t)
  = option_map
      (fun children =>
         mkScan (formattedLines st ++ [BulletItem i children]) false
                (codeBlockContent st))
      (inline (c :: t)).
Proof.
  intros Hin Hws Hb Hne Hsp Hc Hdot.
  rewrite bullet_item_branch by assumption. now apply push_block_eq.
Qed.

Lemma bullet_item_text_witness :
  scanLine resolve scan0 2 (lit "  *   item one")
  = Some (mkScan [BulletItem 2 [Span (KText 0) (lit "item one")]] false []).
Proof.
  apply (bullet_item_text resolve scan0 2 (lit "  ") STAR (lit "   ")
           105%N (lit "tem one")); try reflexivity; discriminate.
Defined.

(** ** Delimiters and contents of the occurrences *)

Lemma slice_from_skipn (text : str) (a : nat) (x y z : str) (p q : nat) :
  skipn a text = x ++ y ++ z ->
  p = a + length x -> q = a + length x + length y ->
  slice text p q = y.
Proof.
  intros H -> ->. unfold slice.
  assert (E : skipn (a + length x) text = y ++ z).
  { replace (a + length x) with (length x + a) by lia.
    rewrite <- skipn_skipn, H, skipn_app, skipn_all, Nat.sub_diag.
    reflexivity. }
  rewrite E.
  replace (a + length x + length y - (a + length x)) with (length y + 0)
    by lia.
  rewrite firstn_app_2. simpl. apply app_nil_r.
Qed.

Ltac slice_at text a x y z HS :=
  apply (slice_from_skipn text a x y z);
  [ rewrite HS; repeat (progress (simpl; rewrite <- ?app_assoc)); reflexivity
  | repeat (progress (simpl; rewrite ?length_app)); lia
  | repeat (progress (simpl; rewrite ?length_app)); lia ].

Lemma nonempty_not_empty (s : str) : 1 <= length s -> negb (is_empty s) = true.
Proof. destruct s; simpl; [lia | reflexivity]. Qed.

(** The matched text of an occurrence is its groups between the delimiters
    of its pattern, and the groups are as the character classes of the
    pattern make them. *)
Lemma occ_delimited (text : str) (o : Occurrence) :
  occ_ok text o ->
  m0 (o_match o) = delimited (o_pattern o) (o_match o) /\
  content_ok (o_pattern o) (o_match o) = true.
Proof.
  intros (caps & Hr & Hm & Hlt & Hend).
  destruct (o_pattern o); simpl regex in Hr.
  - (* link *)
    peel Hr. peel Hr. peel Hr. peel Hr. peel Hr. peel Hr. peel Hr. peel Hr.
    peel Hr. peel Hr. simpl in Hr. inversion Hr as [[He Hc]].
    assert (HS : skipn (o_start o) text
                 = LBRACK :: pre ++ RBRACK :: LPAREN :: pre0 ++ RPAREN :: s2)
      by (subst; assumption).
    assert (G1 : group text 1 caps = pre).
    { subst caps. unfold group. simpl closed. simpl assoc. cbv beta iota.
      slice_at text (o_start o) [LBRACK] pre
        (RBRACK :: LPAREN :: pre0 ++ RPAREN :: s2) HS. }
    assert (G2 : group text 2 caps = pre0).
    { subst caps. unfold group. simpl closed. simpl assoc. cbv beta iota.
      slice_at text (o_start o) (LBRACK :: pre ++ [RBRACK; LPAREN]) pre0
        (RPAREN :: s2) HS. }
    assert (G0 : slice text (o_start o) (o_end o)
                 = LBRACK :: pre ++ RBRACK :: LPAREN :: pre0 ++ [RPAREN]).
    { rewrite <- He.
      slice_at text (o_start o) (@nil char)
        (LBRACK :: pre ++ RBRACK :: LPAREN :: pre0 ++ [RPAREN]) s2 HS. }
    rewrite Hm. simpl. rewrite G0, G1, G2, Hall, Hall0.
    rewrite !nonempty_not_empty by assumption. auto.
  - (* bold, three asterisks *)
    peel Hr. peel Hr. peel Hr. peel Hr. peel Hr. peel Hr. peel Hr. peel Hr.
    peel Hr. simpl in Hr. inversion Hr as [[He Hc]].
    assert (HS : skipn (o_start o) text
                 = STAR :: STAR :: STAR :: pre ++ STAR :: STAR :: STAR :: s4)
      by (subst; assumption).
    assert (G1 : group text 1 caps = pre).
    { subst caps. unfold group. simpl closed. simpl assoc. cbv beta iota.
      slice_at text (o_start o) [STAR; STAR; STAR] pre
        (STAR :: STAR :: STAR :: s4) HS. }
    assert (G0 : slice text (o_start o) (o_end o)
                 = STAR :: STAR :: STAR :: pre ++ [STAR; STAR; STAR]).
    { rewrite <- He.
      slice_at text (o_start o) (@nil char)
        (STAR :: STAR :: STAR :: pre ++ [STAR; STAR; STAR]) s4 HS. }
    rewrite Hm. simpl. rewrite G0, G1. auto.
  - (* bold, two asterisks *)
    peel Hr. peel Hr. peel Hr. peel Hr. peel Hr. peel Hr. peel Hr.
    simpl in Hr. inversion Hr as [[He Hc]].
    assert (HS : skipn (o_start o) text
                 = STAR :: STAR :: pre ++ STAR :: STAR :: s2)
      by (subst; assumption).
    assert (G1 : group text 1 caps = pre).
    { subst caps. unfold group. simpl closed. simpl assoc. cbv beta iota.
      slice_at text (o_start o) [STAR; STAR] pre (STAR :: STAR :: s2) HS. }
    assert (G0 : slice text (o_start o) (o_end o)
                 = STAR :: STAR :: pre ++ [STAR; STAR]).
    { rewrite <- He.
      slice_at text (o_start o) (@nil char)
        (STAR :: STAR :: pre ++ [STAR; STAR]) s2 HS. }
    rewrite Hm. simpl. rewrite G0, G1. auto.
  - (* italic *)
    peel Hr. peel Hr. peel Hr. peel Hr. peel Hr.
    simpl in Hr. inversion Hr as [[He Hc]].
    assert (HS : skipn (o_start o) text = STAR :: pre ++ STAR :: s0)
      by (subst; assumption).
    assert (G1 : group text 1 caps = pre).
    { subst caps. unfold group. simpl closed. simpl assoc. cbv beta iota.
      slice_at text (o_start o) [STAR] pre (STAR :: s0) HS. }
    assert (G0 : slice text (o_start o) (o_end o) = STAR :: pre ++ [STAR]).
    { rewrite <- He.
      slice_at text (o_start o) (@nil char) (STAR :: pre ++ [STAR]) s0 HS. }
    rewrite Hm. simpl. rewrite G0, G1. auto.
  - (* inline code *)
    peel Hr. peel Hr. peel Hr. peel Hr. peel Hr.
    simpl in Hr. inversion Hr as [[He Hc]].
    assert (HS : skipn (o_start o) text = BACKTICK :: pre ++ BACKTICK :: s0)
      by (subst; assumption).
    assert (G1 : group text 1 caps = pre).
    { subst caps. unfold group. simpl closed. simpl assoc. cbv beta iota.
      slice_at text (o_start o) [BACKTICK] pre (BACKTICK :: s0) HS. }
    assert (G0 : slice text (o_start o) (o_end o)
                 = BACKTICK :: pre ++ [BACKTICK]).
    { rewrite <- He.
      slice_at text (o_start o) (@nil char) (BACKTICK :: pre ++ [BACKTICK])
        s0 HS. }
    rewrite Hm. simpl. rewrite G0, G1, Hall.
    rewrite nonempty_not_empty by assumption. auto.
Qed.

(** Every pooled occurrence records the text it matched: [match[0]] is the
    text of its range, made of the groups between the delimiters of the
    pattern, and the groups are as the pattern's character classes make
    them. *)
Theorem pooled_occurrence_shape (text : str) (o : Occurrence) :
  In o (allMatches text) ->
  index (o_match o) = o_start o /\
  m0 (o_match o) = slice text (o_start o) (o_end o) /\
  m0 (o_match o) = delimited (o_pattern o) (o_match o) /\
  content_ok (o_pattern o) (o_match o) = true.
Proof.
  intro Hin. pose proof (allMatches_ok text) as Hok.
  rewrite Forall_forall in Hok. specialize (Hok o Hin).
  destruct (occ_delimited text o Hok) as [Hd Hc].
  destruct Hok as (caps & _ & Hm & _). rewrite Hm at 1 2. simpl. auto.
Qed.

Lemma pooled_occurrence_shape_witness :
  0 = 0 /\
  lit "**a**" = slice (lit "**a**") 0 5 /\
  lit "**a**" = STAR :: STAR :: lit "a" ++ [STAR; STAR] /\
  forallb dot (lit "a") = true.
Proof.
  apply (pooled_occurrence_shape (lit "**a**")
           (mkOcc (mkMatch 0 (lit "**a**") (lit "a") []) BoldDouble 0 5)).
  vm_compute. auto.
Defined.

Lemma render_ok (p : Pattern) (m : RegExpMatch) (key : Key) :
  content_ok p m = true -> node_ok (render p m key) = true.
Proof. destruct p; simpl; auto. Qed.

Lemma push_text_ok (s : str) (st : Build) :
  forallb node_ok (parts st) = true ->
  forallb node_ok (parts (push_text s st)) = true.
Proof.
  intro H. unfold push_text. destruct s as [|c s]; simpl; auto.
  rewrite forallb_app, H. reflexivity.
Qed.

Lemma build_ok (text : str) (kept : list Occurrence) : forall st,
  Forall (occ_ok text) kept ->
  forallb node_ok (parts st) = true ->
  forallb node_ok
    (parts (tail_step text (fold_left (build_step text) kept st))) = true.
Proof.
  induction kept as [|o kept IH]; intros st Hk H; simpl.
  - unfold tail_step. destruct (_ <? _); auto using push_text_ok.
  - inversion Hk; subst. apply IH; auto. unfold build_step. simpl.
    rewrite forallb_app. simpl.
    rewrite render_ok by (apply (occ_delimited text); assumption).
    destruct (_ <? _); [rewrite push_text_ok|rewrite H]; auto.
Qed.

(** What the resolver never returns: an empty plain span (other than the
    fallback for the empty text), a link with an empty label or address,
    an empty inline-code element, or emphasized text holding a line
    terminator.  Only [strong] and [em] elements can be empty. *)
Theorem formatInlineText_nodes_ok (text : str) :
  forallb node_ok (formatInlineText text) = true.
Proof.
  rewrite formatInlineText_eq. unfold buildParts. rewrite finish_tail_step.
  pose proof (build_ok text (validMatches text) (mkBuild [] 0 0)
                (validMatches_ok text) eq_refl) as H.
  destruct (parts _); [simpl; now rewrite orb_true_r | exact H].
Qed.
(** * One construct in plain text *)

(** ** The sort and the filter with one dominant occurrence *)

Lemma sort_starts (l : list Occurrence) (P : Occurrence -> Prop) :
  Forall P l -> Forall P (sort l).
Proof.
  rewrite !Forall_forall. intros H x Hx. apply H. now apply sort_In.
Qed.

Lemma insert_first (o : Occurrence) (l : list Occurrence) :
  Forall (fun x => o_start o <= o_start x) l -> insert o l = o :: l.
Proof.
  destruct l as [|y l]; simpl; auto. intro H. inversion H; subst.
  destruct (o_start y <? o_start o) eqn:E; auto.
  apply Nat.ltb_lt in E. lia.
Qed.

(** An occurrence that starts before those pooled ahead of it, and not
    after those pooled behind it, is first after the stable sort. *)
Lemma sort_dominant (o : Occurrence) (l1 l2 : list Occurrence) :
  Forall (fun x => o_start o < o_start x) l1 ->
  Forall (fun x => o_start o <= o_start x) l2 ->
  sort (l1 ++ o :: l2) = o :: sort (l1 ++ l2).
Proof.
  intros H1 H2. induction l1 as [|a l1 IH]; simpl.
  - apply insert_first. now apply sort_starts.
  - inversion H1; subst. rewrite IH by assumption. simpl.
    destruct (o_start o <? o_start a) eqn:E; auto.
    apply Nat.ltb_ge in E. lia.
Qed.

Lemma keep_all_dropped (e : nat) (l : list Occurrence) :
  Forall (fun x => o_start x < e) l -> keep e l = [].
Proof.
  induction 1 as [|x l Hx Hl IH]; simpl; auto.
  destruct (e <=? o_start x) eqn:E; auto. apply Nat.leb_le in E. lia.
Qed.

Lemma validMatches_dominant (text : str) (o : Occurrence)
    (l1 l2 : list Occurrence) :
  allMatches text = l1 ++ o :: l2 ->
  Forall (fun x => o_start o < o_start x < o_end o) l1 ->
  Forall (fun x => o_start o <= o_start x < o_end o) l2 ->
  validMatches text = [o].
Proof.
  intros Hall H1 H2. unfold validMatches.
  rewrite removeOverlaps_keep, Hall, sort_dominant.
  - simpl. rewrite keep_all_dropped; auto. apply sort_starts.
    apply Forall_app. split; (eapply Forall_impl; [|eassumption]);
      simpl; intros; lia.
  - eapply Forall_impl; [|exact H1]. simpl. intros; lia.
  - eapply Forall_impl; [|exact H2]. simpl. intros; lia.
Qed.

(** ** The parts around one kept occurrence *)

Lemma slice_prefix (pre rest : str) : slice (pre ++ rest) 0 (length pre) = pre.
Proof.
  unfold slice. rewrite Nat.sub_0_r. simpl.
  rewrite <- (Nat.add_0_r (length pre)), firstn_app_2. simpl.
  apply app_nil_r.
Qed.

Lemma build_step_first (pre rest : str) (o : Occurrence) :
  o_start o = length pre ->
  build_step (pre ++ rest) (mkBuild [] 0 0) o
  = mkBuild (text_part 0 pre
             ++ [render (o_pattern o) (o_match o)
                   (KFormat (if is_empty pre then 0 else 1))])
            (o_end o) (S (if is_empty pre then 0 else 1)).
Proof.
  intro Hs. unfold build_step. simpl currentIndex. rewrite Hs, slice_prefix.
  destruct pre; reflexivity.
Qed.

Lemma finish_rest (pre mid post : str) (ps : list InlineNode)
    (x : InlineNode) (k : nat) :
  finish (pre ++ mid ++ post)
         (mkBuild (ps ++ [x]) (length pre + length mid) k)
  = ps ++ [x] ++ text_part k post.
Proof.
  unfold finish. simpl currentIndex.
  assert (Hskip : skipn (length pre + length mid) (pre ++ mid ++ post) = post).
  { rewrite app_assoc, <- length_app, skipn_app, skipn_all, Nat.sub_diag.
    reflexivity. }
  assert (Hlen : length (pre ++ mid ++ post)
                 = length pre + length mid + length post)
    by (rewrite !length_app; lia).
  rewrite Hskip, Hlen. unfold text_part, push_text.
  destruct post as [|d post].
  - simpl length. rewrite Nat.add_0_r, Nat.ltb_irrefl. simpl.
    destruct ps; reflexivity.
  - replace (length pre + length mid
               <? length pre + length mid + length (d :: post))
      with true by (symmetry; apply Nat.ltb_lt; simpl; lia).
    simpl. rewrite <- app_assoc. simpl. destruct ps; reflexivity.
Qed.

Lemma buildParts_single (pre mid post : str) (o : Occurrence) :
  o_start o = length pre -> o_end o = length pre + length mid ->
  buildParts (pre ++ mid ++ post) [o]
  = around pre (render (o_pattern o) (o_match o)) post.
Proof.
  intros Hs He. unfold buildParts, around. simpl fold_left.
  rewrite build_step_first by assumption. rewrite He.
  rewrite finish_rest. reflexivity.
Qed.

(** ** The pool of a text with one stretch of markup *)

(** Between two stretches without markup characters, every occurrence
    starts inside the stretch in the middle. *)
Lemma occ_inside (pre mid post : str) (o : Occurrence) :
  markup_free pre = true -> markup_free post = true ->
  occ_ok (pre ++ mid ++ post) o ->
  length pre <= o_start o < length pre + length mid.
Proof.
  intros Hpre Hpost Ho. pose proof (occ_lead _ _ Ho) as Hl.
  pose proof (lead_is_markup (o_pattern o)) as Hm.
  split.
  - destruct (Nat.lt_ge_cases (o_start o) (length pre)) as [Hlt|]; auto.
    rewrite nth_error_app1 in Hl by assumption.
    apply (markup_free_nth _ _ _ Hpre) in Hl. congruence.
  - destruct (Nat.lt_ge_cases (o_start o) (length pre + length mid))
      as [|Hge]; auto.
    rewrite app_assoc, nth_error_app2 in Hl by (rewrite length_app; lia).
    apply (markup_free_nth _ _ _ Hpost) in Hl. congruence.
Qed.

Lemma search_skip (c : char) (re : Regex) (text : str) (pre s : str) :
  forall pos,
    forallb (fun x => negb (N.eqb x c)) pre = true ->
    search (Lit c :: re) text (pre ++ s) pos
    = search (Lit c :: re) text s (pos + length pre).
Proof.
  induction pre as [|x pre IH]; intros pos H.
  - simpl. now rewrite Nat.add_0_r.
  - simpl in H. apply andb_true_iff in H. destruct H as [Hx H].
    apply negb_true_iff in Hx.
    change ((x :: pre) ++ s) with (x :: pre ++ s).
    cbn [search run]. rewrite Hx. rewrite IH by assumption.
    f_equal. simpl. lia.
Qed.

Lemma search_here (re : Regex) (text s : str) (pos e : nat) (caps : Caps) :
  run re s pos no_caps = Some (e, caps) ->
  search re text s pos
  = Some (mkMatch pos (slice text pos e) (group text 1 caps)
            (group text 2 caps)).
Proof. intro H. destruct s; simpl; now rewrite H. Qed.

Lemma regex_lead (p : Pattern) : exists re, regex p = Lit (lead p) :: re.
Proof. destruct p; simpl; eauto. Qed.

Lemma markup_free_not_lead (p : Pattern) (s : str) :
  markup_free s = true ->
  forallb (fun x => negb (N.eqb x (lead p))) s = true.
Proof.
  unfold markup_free. rewrite !forallb_forall. intros H x Hx.
  specialize (H x Hx). apply negb_true_iff in H. apply negb_true_iff.
  destruct (N.eqb x (lead p)) eqn:E; auto. apply N.eqb_eq in E. subst x.
  now rewrite lead_is_markup in H.
Qed.

(** The first [exec] of a family on a text that begins with a stretch
    without markup characters, when the family's pattern matches right
    after the stretch. *)
Lemma exec_first (p : Pattern) (pre rest : str) (e : nat) (caps : Caps) :
  markup_free pre = true ->
  run (regex p) rest (length pre) no_caps = Some (e, caps) ->
  exec (regex p) (pre ++ rest) 0
  = Some (mkMatch (length pre) (slice (pre ++ rest) (length pre) e)
            (group (pre ++ rest) 1 caps) (group (pre ++ rest) 2 caps),
          length pre + length (slice (pre ++ rest) (length pre) e)).
Proof.
  intros Hpre Hr. unfold exec. simpl (0 <=? _). simpl skipn.
  destruct (regex_lead p) as [re Hre]. rewrite Hre in *.
  rewrite search_skip by now apply markup_free_not_lead.
  simpl (0 + _). now rewrite (search_here _ _ _ _ _ _ Hr).
Qed.

(** A family whose first occurrence covers the whole stretch of markup
    has no other occurrence. *)
Lemma occurrences_single (p : Pattern) (pre mid post : str) (m : RegExpMatch) :
  markup_free pre = true -> markup_free post = true ->
  exec (regex p) (pre ++ mid ++ post) 0
  = Some (m, length pre + length mid) ->
  occurrences p (pre ++ mid ++ post)
  = [mkOcc m p (index m) (index m + length (m0 m))].
Proof.
  intros Hpre Hpost E. unfold occurrences. cbn [collect]. rewrite E.
  rewrite collect_acc.
  pose proof (exec_advances _ _ _ _ _ E) as (_ & Hb & Hd).
  destruct (collect_terminates p (pre ++ mid ++ post)
              (length (pre ++ mid ++ post)) (length pre + length mid) [])
    as [r Hr]; [lia|].
  rewrite Hr. simpl. apply collect_spec in Hr.
  destruct Hr as (Hc & Hok & _). destruct r as [|o' r]; [reflexivity|].
  exfalso. inversion Hok as [|? ? Ho _]; subst.
  apply (occ_inside _ _ _ _ Hpre Hpost) in Ho. simpl in Hc. lia.
Qed.

Lemma patterns_split (p : Pattern) :
  exists before after,
    patterns = before ++ p :: after /\
    forall q, In q before -> rank q < rank p.
Proof.
  destruct p.
  - exists [], [BoldTriple; BoldDouble; Italic; InlineCode].
    split; [reflexivity|]. intros q [].
  - exists [Link], [BoldDouble; Italic; InlineCode].
    split; [reflexivity|]. intros q [<-|[]]. simpl. lia.
  - exists [Link; BoldTriple], [Italic; InlineCode].
    split; [reflexivity|]. intros q [<-|[<-|[]]]; simpl; lia.
  - exists [Link; BoldTriple; BoldDouble], [InlineCode].
    split; [reflexivity|]. intros q [<-|[<-|[<-|[]]]]; simpl; lia.
  - exists [Link; BoldTriple; BoldDouble; Italic], [].
    split; [reflexivity|]. intros q [<-|[<-|[<-|[<-|[]]]]]; simpl; lia.
Qed.

(** One stretch of markup between two stretches without markup characters:
    when a family's pattern matches the whole stretch, and no family scanned
    before it has an occurrence at the start of the stretch, the result is
    that one element between the plain spans of the text around it. *)
Lemma single_construct (p : Pattern) (pre mid post : str) (m : RegExpMatch) :
  markup_free pre = true -> markup_free post = true ->
  exec (regex p) (pre ++ mid ++ post) 0
  = Some (m, length pre + length mid) ->
  index m = length pre ->
  (forall q o, rank q < rank p ->
     In o (occurrences q (pre ++ mid ++ post)) -> o_start o <> length pre) ->
  formatInlineText (pre ++ mid ++ post) = around pre (render p m) post.
Proof.
  intros Hpre Hpost E Hidx Hearlier. rewrite formatInlineText_eq.
  pose proof (exec_lastIndex _ _ _ _ _ E) as Hend.
  set (o := mkOcc m p (index m) (index m + length (m0 m))).
  assert (Hin : forall q x, In x (occurrences q (pre ++ mid ++ post)) ->
                  length pre <= o_start x < length pre + length mid).
  { intros q x Hx. apply (occ_inside _ _ _ _ Hpre Hpost).
    destruct (occurrences_spec q (pre ++ mid ++ post)) as (_ & Hok & _).
    rewrite Forall_forall in Hok. now apply Hok. }
  destruct (patterns_split p) as (before & after & Hsplit & Hrank).
  assert (Hv : validMatches (pre ++ mid ++ post) = [o]).
  { apply (validMatches_dominant _ o
             (flat_map (fun q => occurrences q (pre ++ mid ++ post)) before)
             (flat_map (fun q => occurrences q (pre ++ mid ++ post)) after)).
    - rewrite allMatches_flat, Hsplit, flat_map_app. simpl.
      rewrite (occurrences_single p pre mid post m) by assumption.
      reflexivity.
    - apply Forall_forall. intros x Hx. apply in_flat_map in Hx.
      destruct Hx as (q & Hq & Hx). pose proof (Hin q x Hx).
      pose proof (Hearlier q x (Hrank q Hq) Hx). simpl. lia.
    - apply Forall_forall. intros x Hx. apply in_flat_map in Hx.
      destruct Hx as (q & Hq & Hx). pose proof (Hin q x Hx). simpl. lia. }
  rewrite Hv. rewrite buildParts_single; simpl; auto.
Qed.

Lemma exec_first_groups (p : Pattern) (pre mid post : str) (caps : Caps)
    (g1 g2 : str) :
  markup_free pre = true ->
  run (regex p) (mid ++ post) (length pre) no_caps
  = Some (length pre + length mid, caps) ->
  group (pre ++ mid ++ post) 1 caps = g1 ->
  group (pre ++ mid ++ post) 2 caps = g2 ->
  exec (regex p) (pre ++ mid ++ post) 0
  = Some (mkMatch (length pre) mid g1 g2, length pre + length mid).
Proof.
  intros Hpre Hr <- <-.
  rewrite (exec_first p pre (mid ++ post) _ caps Hpre Hr).
  now rewrite slice_middle.
Qed.

(** An occurrence of a family with another leading character does not
    start where the stretch of markup starts. *)
Lemma other_lead_elsewhere (p q : Pattern) (pre rest : str) (o : Occurrence) :
  lead q <> lead p ->
  In o (occurrences q (pre ++ lead p :: rest)) ->
  o_start o <> length pre.
Proof.
  intros Hne Hin Hs.
  destruct (occurrences_spec q (pre ++ lead p :: rest)) as (_ & Hok & Hq).
  rewrite Forall_forall in Hok, Hq.
  pose proof (occ_lead _ _ (Hok o Hin)) as Hl. rewrite (Hq o Hin), Hs in Hl.
  rewrite nth_error_app2, Nat.sub_diag in Hl by lia. simpl in Hl.
  congruence.
Qed.

(** ** The first choice of a lazy quantifier *)

Lemma rep_lazy_first (cont : str -> nat -> option (nat * Caps))
    (cls : char -> bool) (x rest : str) (r : nat * Caps) :
  forall pos k,
    forallb cls x = true ->
    Forall (fun y => forall s pos', cont (y :: s) pos' = None) x ->
    cont rest (pos + length x) = Some r ->
    rep cont cls 0 None false (x ++ rest) pos k = Some r.
Proof.
  induction x as [|y x IH]; intros pos k Hall Hnone Hr.
  - simpl in *. rewrite Nat.add_0_r in Hr.
    destruct rest; simpl; now rewrite Hr.
  - simpl in Hall. apply andb_true_iff in Hall. destruct Hall as [Hy Hall].
    inversion Hnone as [|? ? Hy0 Hx0]; subst.
    change ((y :: x) ++ rest) with (y :: x ++ rest). cbn [rep].
    simpl (0 <=? k). cbv iota. rewrite Hy0, Hy. simpl.
    apply IH; auto. rewrite <- Hr. f_equal. simpl. lia.
Qed.

(** A lazy quantifier followed by a literal character stops at the first
    occurrence of that character. *)
Lemma run_lazy_first (cls : char -> bool) (g : nat) (c : char) (re : Regex)
    (x rest : str) (pos : nat) (caps : Caps) (r : nat * Caps) :
  forallb cls x = true -> forallb (not_char c) x = true ->
  run (Close g :: Lit c :: re) rest (pos + length x) caps = Some r ->
  run (lazy_star cls :: Close g :: Lit c :: re) (x ++ rest) pos caps = Some r.
Proof.
  intros Hall Hnot Hr. unfold lazy_star. cbn [run].
  apply rep_lazy_first; auto.
  apply Forall_forall. intros y Hy s pos'.
  rewrite forallb_forall in Hnot. specialize (Hnot y Hy).
  unfold not_char in Hnot. apply negb_true_iff in Hnot.
  rewrite N.eqb_sym in Hnot. now rewrite Hnot.
Qed.

Lemma emphasis_text_dot (x : str) :
  emphasis_text x = true -> forallb dot x = true.
Proof.
  unfold emphasis_text. rewrite !forallb_forall. intros H y Hy.
  specialize (H y Hy). now apply andb_true_iff in H.
Qed.

Lemma emphasis_text_no_star (x : str) :
  emphasis_text x = true -> forallb (not_char STAR) x = true.
Proof.
  unfold emphasis_text. rewrite !forallb_forall. intros H y Hy.
  specialize (H y Hy). now apply andb_true_iff in H.
Qed.

(** ** The five patterns on their own construct *)

Lemma code_run (c post : str) (pos : nat) :
  c <> [] -> forallb (not_char BACKTICK) c = true ->
  run (regex InlineCode) ((BACKTICK :: c ++ [BACKTICK]) ++ post) pos no_caps
  = Some (pos + length (BACKTICK :: c ++ [BACKTICK]),
          mkCaps [(1, S pos)] [(1, (S pos, S pos + length c))]).
Proof.
  intros Hc Hall. simpl regex. simpl app. rewrite run_lit_eq, run_open.
  unfold plus. rewrite <- app_assoc. apply run_rep_greedy_first; auto.
  - destruct c; [congruence | simpl; lia].
  - simpl app. rewrite run_close, run_lit_eq. simpl.
    rewrite length_app. simpl. repeat f_equal. lia.
Qed.

Lemma link_run (label url post : str) (pos : nat) :
  label <> [] -> forallb (not_char RBRACK) label = true ->
  url <> [] -> forallb (not_char RPAREN) url = true ->
  run (regex Link)
    ((LBRACK :: label ++ RBRACK :: LPAREN :: url ++ [RPAREN]) ++ post)
    pos no_caps
  = Some (pos + length (LBRACK :: label ++ RBRACK :: LPAREN :: url ++ [RPAREN]),
          mkCaps [(2, S pos + length label + 2); (1, S pos)]
            [(2, (S pos + length label + 2,
                  S pos + length label + 2 + length url));
             (1, (S pos, S pos + length label))]).
Proof.
  intros Hl Hla Hu Hua. simpl regex. simpl app.
  rewrite run_lit_eq, run_open. unfold plus. rewrite <- app_assoc.
  apply run_rep_greedy_first; auto.
  - destruct label; [congruence | simpl; lia].
  - simpl app. rewrite run_close, !run_lit_eq, run_open.
    rewrite <- app_assoc.
    replace (S (S (S pos + length label))) with (S pos + length label + 2)
      by lia.
    apply run_rep_greedy_first; auto.
    + destruct url; [congruence | simpl; lia].
    + simpl app. rewrite run_close, run_lit_eq. simpl.
      rewrite !length_app. simpl. rewrite !length_app. simpl.
      repeat f_equal. lia.
Qed.

Lemma italic_run (x post : str) (pos : nat) :
  emphasis_text x = true ->
  run (regex Italic) ((STAR :: x ++ [STAR]) ++ post) pos no_caps
  = Some (pos + length (STAR :: x ++ [STAR]),
          mkCaps [(1, S pos)] [(1, (S pos, S pos + length x))]).
Proof.
  intro Hx. simpl regex. simpl app. rewrite run_lit_eq, run_open.
  rewrite <- app_assoc.
  apply run_lazy_first;
    [now apply emphasis_text_dot | now apply emphasis_text_no_star |].
  simpl app. rewrite run_close, run_lit_eq. simpl.
  rewrite length_app. simpl. repeat f_equal. lia.
Qed.

Lemma bold_double_run (x post : str) (pos : nat) :
  emphasis_text x = true ->
  run (regex BoldDouble) ((STAR :: STAR :: x ++ [STAR; STAR]) ++ post)
    pos no_caps
  = Some (pos + length (STAR :: STAR :: x ++ [STAR; STAR]),
          mkCaps [(1, S (S pos))] [(1, (S (S pos), S (S pos) + length x))]).
Proof.
  intro Hx. simpl regex. simpl app. rewrite !run_lit_eq, run_open.
  rewrite <- app_assoc.
  apply run_lazy_first;
    [now apply emphasis_text_dot | now apply emphasis_text_no_star |].
  simpl app. rewrite run_close, !run_lit_eq. simpl.
  rewrite length_app. simpl. repeat f_equal. lia.
Qed.

Lemma bold_triple_run (x post : str) (pos : nat) :
  emphasis_text x = true ->
  run (regex BoldTriple)
    ((STAR :: STAR :: STAR :: x ++ [STAR; STAR; STAR]) ++ post) pos no_caps
  = Some (pos + length (STAR :: STAR :: STAR :: x ++ [STAR; STAR; STAR]),
          mkCaps [(1, S (S (S pos)))]
            [(1, (S (S (S pos)), S (S (S pos)) + length x))]).
Proof.
  intro Hx. simpl regex. simpl app. rewrite !run_lit_eq, run_open.
  rewrite <- app_assoc.
  apply run_lazy_first;
    [now apply emphasis_text_dot | now apply emphasis_text_no_star |].
  simpl app. rewrite run_close, !run_lit_eq. simpl.
  rewrite length_app. simpl. repeat f_equal. lia.
Qed.

(** ** Counting asterisks *)

Lemma stars_app (a b : str) : stars (a ++ b) = stars a + stars b.
Proof. unfold stars. now rewrite filter_app, length_app. Qed.

Lemma stars_cons_star (s : str) : stars (STAR :: s) = S (stars s).
Proof. reflexivity. Qed.

Lemma stars_none (x : str) : forallb (not_char STAR) x = true -> stars x = 0.
Proof.
  unfold stars, not_char. induction x as [|y x IH]; simpl; auto.
  intro H. apply andb_true_iff in H. destruct H as [Hy H].
  apply negb_true_iff in Hy. rewrite Hy. auto.
Qed.

Lemma stars_markup_free (s : str) : markup_free s = true -> stars s = 0.
Proof.
  intro H. apply stars_none. apply (markup_free_not_lead Italic) in H.
  rewrite forallb_forall in *. intros y Hy. specialize (H y Hy).
  unfold not_char. simpl lead in H. now rewrite N.eqb_sym.
Qed.

Lemma stars_slice_le (s : str) (a b : nat) : stars (slice s a b) <= stars s.
Proof.
  unfold slice.
  assert (H1 : stars (skipn a s) <= stars s).
  { rewrite <- (firstn_skipn a s) at 2. rewrite stars_app. lia. }
  assert (H2 : stars (firstn (b - a) (skipn a s)) <= stars (skipn a s)).
  { rewrite <- (firstn_skipn (b - a) (skipn a s)) at 2.
    rewrite stars_app. lia. }
  lia.
Qed.

(** An occurrence of an asterisk family needs the asterisks of both its
    delimiters in the text. *)
Lemma stars_needed (text : str) (o : Occurrence) :
  occ_ok text o ->
  match o_pattern o with
  | BoldTriple => 6
  | BoldDouble => 4
  | Italic => 2
  | _ => 0
  end <= stars text.
Proof.
  intro Ho. pose proof (occ_delimited _ _ Ho) as [Hd _].
  destruct Ho as (caps & _ & Hm & _).
  assert (Hs : stars (m0 (o_match o)) <= stars text)
    by (rewrite Hm; apply stars_slice_le).
  rewrite Hd in Hs.
  destruct (o_pattern o); simpl delimited in Hs; try lia;
    rewrite ?stars_cons_star, stars_app in Hs;
    rewrite ?stars_cons_star in Hs; lia.
Qed.

Lemma family_stars_needed (q : Pattern) (text : str) (o : Occurrence) :
  In o (occurrences q text) ->
  match q with
  | BoldTriple => 6
  | BoldDouble => 4
  | Italic => 2
  | _ => 0
  end <= stars text.
Proof.
  intro Hin. destruct (occurrences_spec q text) as (_ & Hok & Hq).
  rewrite Forall_forall in Hok, Hq. rewrite <- (Hq o Hin).
  apply stars_needed. now apply Hok.
Qed.

Lemma stars_around (pre mid post : str) :
  markup_free pre = true -> markup_free post = true ->
  stars (pre ++ mid ++ post) = stars mid.
Proof.
  intros Hpre Hpost.
  rewrite !stars_app, (stars_markup_free _ Hpre), (stars_markup_free _ Hpost).
  lia.
Qed.

Ltac group_at x0 y0 z0 :=
  unfold group; simpl closed; simpl assoc; cbv beta iota;
  apply (slice_from_skipn _ 0 x0 y0 z0);
  [ simpl skipn; repeat (progress (simpl; rewrite <- ?app_assoc)); reflexivity
  | repeat (progress (simpl; rewrite ?length_app)); lia
  | repeat (progress (simpl; rewrite ?length_app)); lia ].

(** ** One construct in plain text *)

(** Inline code between two stretches without markup characters is one
    [code] element holding the text between the backticks, with the
    stretches around it as plain spans; the text between the backticks may
    hold any character but a backtick. *)
Theorem inline_code_alone (pre c post : str) :
  markup_free pre = true -> markup_free post = true ->
  c <> [] -> forallb (not_char BACKTICK) c = true ->
  formatInlineText (pre ++ (BACKTICK :: c ++ [BACKTICK]) ++ post)
  = around pre (fun key => Code key c) post.
Proof.
  intros Hpre Hpost Hc Hall.
  rewrite (single_construct InlineCode pre _ post
             (mkMatch (length pre) (BACKTICK :: c ++ [BACKTICK]) c []));
    auto.
  - eapply exec_first_groups; [assumption | now apply code_run | | reflexivity].
    group_at (pre ++ [BACKTICK]) c (BACKTICK :: post).
  - intros q o Hq Hin.
    destruct q; simpl in Hq; try lia;
      (refine (other_lead_elsewhere InlineCode _ pre _ o _ Hin); discriminate).
Qed.

Lemma inline_code_alone_witness :
  formatInlineText (lit "run `ls *` now")
  = [Span (KText 0) (lit "run "); Code (KFormat 1) (lit "ls *");
     Span (KText 2) (lit " now")].
Proof.
  exact (inline_code_alone (lit "run ") (lit "ls *") (lit " now")
           eq_refl eq_refl ltac:(discriminate) eq_refl).
Defined.

(** A link between two stretches without markup characters is one
    anchor with the text between the square brackets as label and the text
    between the parentheses as address. *)
Theorem link_alone (pre label url post : str) :
  markup_free pre = true -> markup_free post = true ->
  label <> [] -> forallb (not_char RBRACK) label = true ->
  url <> [] -> forallb (not_char RPAREN) url = true ->
  formatInlineText
    (pre ++ (LBRACK :: label ++ RBRACK :: LPAREN :: url ++ [RPAREN]) ++ post)
  = around pre (fun key => Anchor key url label) post.
Proof.
  intros Hpre Hpost Hl Hla Hu Hua.
  rewrite (single_construct Link pre _ post
             (mkMatch (length pre)
                (LBRACK :: label ++ RBRACK :: LPAREN :: url ++ [RPAREN])
                label url));
    auto.
  - eapply exec_first_groups; [assumption | now apply link_run | |].
    + group_at (pre ++ [LBRACK]) label (RBRACK :: LPAREN :: url ++ RPAREN :: post).
    + group_at (pre ++ LBRACK :: label ++ [RBRACK; LPAREN]) url (RPAREN :: post).
  - intros q o Hq. simpl in Hq. lia.
Qed.

Lemma link_alone_witness :
  formatInlineText (lit "see [the *docs*](http://a.b/c) please")
  = [Span (KText 0) (lit "see ");
     Anchor (KFormat 1) (lit "http://a.b/c") (lit "the *docs*");
     Span (KText 2) (lit " please")].
Proof.
  exact (link_alone (lit "see ") (lit "the *docs*") (lit "http://a.b/c")
           (lit " please") eq_refl eq_refl ltac:(discriminate) eq_refl
           ltac:(discriminate) eq_refl).
Defined.

(** Three asterisks on each side of a text without asterisks and line
    terminators, between two stretches without markup characters, give one
    [strong] element holding that text. *)
Theorem bold_triple_alone (pre x post : str) :
  markup_free pre = true -> markup_free post = true ->
  emphasis_text x = true ->
  formatInlineText
    (pre ++ (STAR :: STAR :: STAR :: x ++ [STAR; STAR; STAR]) ++ post)
  = around pre (fun key => Strong key x) post.
Proof.
  intros Hpre Hpost Hx.
  rewrite (single_construct BoldTriple pre _ post
             (mkMatch (length pre)
                (STAR :: STAR :: STAR :: x ++ [STAR; STAR; STAR]) x []));
    auto.
  - eapply exec_first_groups;
      [assumption | now apply bold_triple_run | | reflexivity].
    group_at (pre ++ [STAR; STAR; STAR]) x (STAR :: STAR :: STAR :: post).
  - intros q o Hq Hin.
    destruct q; simpl in Hq; try lia.
    (refine (other_lead_elsewhere BoldTriple _ pre _ o _ Hin); discriminate).
Qed.

Lemma bold_triple_alone_witness :
  formatInlineText (lit "a ***b c*** d")
  = [Span (KText 0) (lit "a "); Strong (KFormat 1) (lit "b c");
     Span (KText 2) (lit " d")].
Proof.
  exact (bold_triple_alone (lit "a ") (lit "b c") (lit " d")
           eq_refl eq_refl eq_refl).
Defined.

(** Two asterisks on each side of a text without asterisks and line
    terminators, between two stretches without markup characters, give one
    [strong] element holding that text, also when the text is empty. *)
Theorem bold_double_alone (pre x post : str) :
  markup_free pre = true -> markup_free post = true ->
  emphasis_text x = true ->
  formatInlineText (pre ++ (STAR :: STAR :: x ++ [STAR; STAR]) ++ post)
  = around pre (fun key => Strong key x) post.
Proof.
  intros Hpre Hpost Hx.
  rewrite (single_construct BoldDouble pre _ post
             (mkMatch (length pre) (STAR :: STAR :: x ++ [STAR; STAR]) x []));
    auto.
  - eapply exec_first_groups;
      [assumption | now apply bold_double_run | | reflexivity].
    group_at (pre ++ [STAR; STAR]) x (STAR :: STAR :: post).
  - intros q o Hq Hin.
    destruct q; simpl in Hq; try lia.
    + (refine (other_lead_elsewhere BoldDouble _ pre _ o _ Hin); discriminate).
    + apply family_stars_needed in Hin.
      rewrite stars_around in Hin by assumption.
      rewrite !stars_cons_star, stars_app in Hin.
      rewrite (stars_none x) in Hin by now apply emphasis_text_no_star.
      unfold stars in Hin. simpl in Hin. lia.
Qed.

Lemma bold_double_alone_witness :
  formatInlineText (lit "a **b c** d")
  = [Span (KText 0) (lit "a "); Strong (KFormat 1) (lit "b c");
     Span (KText 2) (lit " d")].
Proof.
  exact (bold_double_alone (lit "a ") (lit "b c") (lit " d")
           eq_refl eq_refl eq_refl).
Defined.

(** One asterisk on each side of a text without asterisks and line
    terminators, between two stretches without markup characters, gives one
    [em] element holding that text; two adjacent asterisks are such a pair
    around the empty text. *)
Theorem italic_alone (pre x post : str) :
  markup_free pre = true -> markup_free post = true ->
  emphasis_text x = true ->
  formatInlineText (pre ++ (STAR :: x ++ [STAR]) ++ post)
  = around pre (fun key => Em key x) post.
Proof.
  intros Hpre Hpost Hx.
  rewrite (single_construct Italic pre _ post
             (mkMatch (length pre) (STAR :: x ++ [STAR]) x []));
    auto.
  - eapply exec_first_groups;
      [assumption | now apply italic_run | | reflexivity].
    group_at (pre ++ [STAR]) x (STAR :: post).
  - intros q o Hq Hin.
    destruct q; simpl in Hq; try lia.
    + (refine (other_lead_elsewhere Italic _ pre _ o _ Hin); discriminate).
    + apply family_stars_needed in Hin.
      rewrite stars_around in Hin by assumption.
      rewrite !stars_cons_star, stars_app in Hin.
      rewrite (stars_none x) in Hin by now apply emphasis_text_no_star.
      unfold stars in Hin. simpl in Hin. lia.
    + apply family_stars_needed in Hin.
      rewrite stars_around in Hin by assumption.
      rewrite !stars_cons_star, stars_app in Hin.
      rewrite (stars_none x) in Hin by now apply emphasis_text_no_star.
      unfold stars in Hin. simpl in Hin. lia.
Qed.

Lemma italic_alone_witness :
  formatInlineText (lit "a ** d")
  = [Span (KText 0) (lit "a "); Em (KFormat 1) []; Span (KText 2) (lit " d")].
Proof.
  exact (italic_alone (lit "a ") [] (lit " d") eq_refl eq_refl eq_refl).
Defined.
